(** * A limit order book with price-time priority

    Shallow embedding of the matching engine of [OrderBook.h],
    [OrderList.h], [ObjectPool.h] and [Order::Fill]:

    - an [Order] is a record; the orders live in the slots of a fixed
      capacity [ObjectPool] and are named by their slot index (the C++
      code names them by the address of the slot);
    - an [OrderList] is the sequence of the slots reached from [head_]
      by following [next_]; the queue operations are the list
      operations this sequence undergoes;
    - a [std::map] from price to level is an association list kept
      sorted by the map's comparator, so that [begin()] is its head;
    - the [std::unordered_map] from order id to order is a [gmap];
    - an exception is an [Err] result; nothing catches exceptions in
      the book, so an [Err] carries no state. *)

From Stdlib Require Import ZArith NArith Lia.
From stdpp Require Import base option list sorting gmap.

Open Scope Z_scope.
Open Scope N_scope.
Open Scope nat_scope.

(** ** Types.h *)

Inductive OrderType := GoodTillCancel | FillAndKill.
Inductive Side := Buy | Sell.

#[global] Instance OrderType_eq_dec : EqDecision OrderType.
Proof. solve_decision. Defined.
#[global] Instance Side_eq_dec : EqDecision Side.
Proof. solve_decision. Defined.

(** [std::int32_t], [std::uint32_t] and [std::uint64_t]. *)
Definition Price := Z.
Definition Quantity := N.
Definition OrderId := N.

Definition Price_ok (p : Price) : Prop := (- 2 ^ 31 <= p < 2 ^ 31)%Z.
Definition Quantity_modulus : N := (2 ^ 32)%N.
Definition Quantity_ok (q : Quantity) : Prop := (q < Quantity_modulus)%N.
Definition OrderId_ok (i : OrderId) : Prop := (i < 2 ^ 64)%N.

(** ** Exceptions and results *)

Inductive error :=
| PoolExhausted   (* std::runtime_error thrown by ObjectPool::acquire *)
| FillOverflow    (* std::logic_error thrown by Order::Fill *)
| AlienPointer    (* std::logic_error thrown by ObjectPool::release *)
| OutOfRange      (* std::out_of_range thrown by std::map::at *)
| Undefined       (* a pointer or iterator used outside its contract *)
| Diverges.       (* the loop budget ran out *)

Inductive result (A : Type) :=
| Ok (a : A)
| Err (e : error).
Arguments Ok {A} a.
Arguments Err {A} e.

#[global] Instance result_ret : MRet result := λ A a, Ok a.
#[global] Instance result_bind : MBind result :=
  λ A B f r, match r with Ok a => f a | Err e => Err e end.

(** ** Order *)

Record Order := mkOrder {
  orderType_ : OrderType;
  orderId_ : OrderId;
  side_ : Side;
  price_ : Price;
  initialQuantity_ : Quantity;
  remainingQuantity_ : Quantity
}.

Module Order.

(** [Order() = default]. *)
Definition default : Order := mkOrder GoodTillCancel 0%N Buy 0%Z 0%N 0%N.

(** [Order(orderType, orderId, side, price, quantity)]. *)
Definition new (orderType : OrderType) (orderId : OrderId) (side : Side)
    (price : Price) (quantity : Quantity) : Order :=
  mkOrder orderType orderId side price quantity quantity.

Definition GetFilledQuantity (o : Order) : Quantity :=
  ((initialQuantity_ o + Quantity_modulus - remainingQuantity_ o)
     mod Quantity_modulus)%N.

Definition IsFilled (o : Order) : bool := (remainingQuantity_ o =? 0)%N.

Definition Fill (quantity : Quantity) (o : Order) : result Order :=
  if (remainingQuantity_ o <? quantity)%N then Err FillOverflow
  else Ok (mkOrder (orderType_ o) (orderId_ o) (side_ o) (price_ o)
             (initialQuantity_ o) (remainingQuantity_ o - quantity)%N).

End Order.

(** ** ObjectPool<Order> *)

(** A pointer into the slab is the index of its slot. *)
Definition OrderPointer := nat.

(** [free_indices_] is used as a stack ([push_back], [back],
    [pop_back]); the list holds it with [back()] first. *)
Record ObjectPool := mkPool {
  pool_ : list Order;
  free_indices_ : list nat
}.

Module ObjectPool.

Definition new (size : nat) : ObjectPool :=
  mkPool (replicate size Order.default) (reverse (seq 0 size)).

Definition acquire (o : Order) (p : ObjectPool)
    : result (OrderPointer * ObjectPool) :=
  match free_indices_ p with
  | [] => Err PoolExhausted
  | index :: rest =>
      if decide (index < length (pool_ p))
      then Ok (index, mkPool (<[index := o]> (pool_ p)) rest)
      else Err Undefined
  end.

Definition release (ptr : OrderPointer) (p : ObjectPool) : result ObjectPool :=
  if decide (length (pool_ p) ≤ ptr) then Err AlienPointer
  else Ok (mkPool (pool_ p) (ptr :: free_indices_ p)).

(** [*ptr] and [*ptr = o]. *)
Definition read (ptr : OrderPointer) (p : ObjectPool) : result Order :=
  match pool_ p !! ptr with
  | Some o => Ok o
  | None => Err Undefined
  end.

Definition write (ptr : OrderPointer) (o : Order) (p : ObjectPool) : ObjectPool :=
  mkPool (<[ptr := o]> (pool_ p)) (free_indices_ p).

End ObjectPool.

(** ** OrderList *)

Definition OrderList := list OrderPointer.

Module OrderList.

Definition push_back (order : OrderPointer) (l : OrderList) : OrderList :=
  l ++ [order].

(** [remove] splices a member out; on a node that is not linked in
    this list the C++ code corrupts the list. *)
Fixpoint unlink (order : OrderPointer) (l : OrderList) : option OrderList :=
  match l with
  | [] => None
  | x :: l' =>
      if decide (x = order) then Some l' else cons x <$> unlink order l'
  end.

Definition remove (order : OrderPointer) (l : OrderList) : result OrderList :=
  match unlink order l with
  | Some l' => Ok l'
  | None => Err Undefined
  end.

Definition front (l : OrderList) : option OrderPointer := head l.

(** [if (head_) remove(head_)]. *)
Definition pop_front (l : OrderList) : OrderList := tail l.

Definition empty (l : OrderList) : bool :=
  match l with [] => true | _ => false end.

Definition size (l : OrderList) : nat := length l.

End OrderList.

(** ** std::map<Price, OrderList, Compare> *)

Definition PriceMap := list (Price * OrderList).

Module PriceMap.

(** [std::greater<Price>] and [std::less<Price>]. *)
Definition greater (a b : Price) : bool := (b <? a)%Z.
Definition less (a b : Price) : bool := (a <? b)%Z.

(** [m[k]]: the level at [k], inserted empty at its place when absent. *)
Fixpoint subscript (comp : Price → Price → bool) (k : Price) (m : PriceMap)
    : PriceMap :=
  match m with
  | [] => [(k, [])]
  | (k', l) :: m' =>
      if comp k k' then (k, []) :: m
      else if comp k' k then (k', l) :: subscript comp k m'
      else m
  end.

Fixpoint find (k : Price) (m : PriceMap) : option OrderList :=
  match m with
  | [] => None
  | (k', l) :: m' => if decide (k' = k) then Some l else find k m'
  end.

Definition at_ (k : Price) (m : PriceMap) : result OrderList :=
  match find k m with
  | Some l => Ok l
  | None => Err OutOfRange
  end.

(** Assignment through the reference that [m[k]] or [m.at(k)] gave. *)
Fixpoint assign (k : Price) (l : OrderList) (m : PriceMap) : PriceMap :=
  match m with
  | [] => []
  | (k', l') :: m' =>
      if decide (k' = k) then (k', l) :: m' else (k', l') :: assign k l m'
  end.

Fixpoint erase (k : Price) (m : PriceMap) : PriceMap :=
  match m with
  | [] => []
  | (k', l) :: m' => if decide (k' = k) then m' else (k', l) :: erase k m'
  end.

Definition empty (m : PriceMap) : bool :=
  match m with [] => true | _ => false end.

(** The level of [*m.begin()], and assignment through that reference. *)
Definition first (m : PriceMap) : OrderList :=
  match m with [] => [] | (_, l) :: _ => l end.

Definition assign_first (l : OrderList) (m : PriceMap) : PriceMap :=
  match m with [] => [] | (k, _) :: m' => (k, l) :: m' end.

End PriceMap.

(** ** OrderBook *)

Record TradeInfo := mkTradeInfo {
  ti_orderId : OrderId;
  ti_price : Price;
  ti_quantity : Quantity
}.

Record Trade := mkTrade {
  bidTrade_ : TradeInfo;
  askTrade_ : TradeInfo
}.

Definition Trades := list Trade.

Record LevelInfo := mkLevelInfo {
  li_price : Price;
  li_quantity : Quantity
}.

Definition LevelInfos := list LevelInfo.

Record OrderBookLevelInfos := mkOrderBookLevelInfos {
  GetBids : LevelInfos;
  GetAsks : LevelInfos
}.

Record OrderModify := mkOrderModify {
  om_orderId : OrderId;
  om_side : Side;
  om_price : Price;
  om_quantity : Quantity
}.

Record OrderBook := mkBook {
  bids_ : PriceMap;                       (* ordered by std::greater *)
  asks_ : PriceMap;                       (* ordered by std::less *)
  orders_ : gmap OrderId OrderPointer;
  trades_ : Trades;
  orderPool_ : ObjectPool
}.

Definition set_bids (m : PriceMap) (b : OrderBook) : OrderBook :=
  mkBook m (asks_ b) (orders_ b) (trades_ b) (orderPool_ b).
Definition set_asks (m : PriceMap) (b : OrderBook) : OrderBook :=
  mkBook (bids_ b) m (orders_ b) (trades_ b) (orderPool_ b).
Definition set_orders (o : gmap OrderId OrderPointer) (b : OrderBook) : OrderBook :=
  mkBook (bids_ b) (asks_ b) o (trades_ b) (orderPool_ b).
Definition set_trades (t : Trades) (b : OrderBook) : OrderBook :=
  mkBook (bids_ b) (asks_ b) (orders_ b) t (orderPool_ b).
Definition set_pool (p : ObjectPool) (b : OrderBook) : OrderBook :=
  mkBook (bids_ b) (asks_ b) (orders_ b) (trades_ b) p.

(** [ObjectPool<Order> orderPool_{ 1000000 }]. *)
Definition POOL_SIZE : nat := N.to_nat 1000000.

Definition OrderBook_with (size : nat) : OrderBook :=
  mkBook [] [] ∅ [] (ObjectPool.new size).

Definition OrderBook_new : OrderBook := OrderBook_with POOL_SIZE.

(** Field access through an order pointer. *)
Definition deref (ptr : OrderPointer) (b : OrderBook) : result Order :=
  ObjectPool.read ptr (orderPool_ b).

(** [ptr->Fill(quantity)]. *)
Definition Fill_at (ptr : OrderPointer) (quantity : Quantity) (b : OrderBook)
    : result OrderBook :=
  o ← deref ptr b;
  o' ← Order.Fill quantity o;
  Ok (set_pool (ObjectPool.write ptr o' (orderPool_ b)) b).

Definition release_at (ptr : OrderPointer) (b : OrderBook) : result OrderBook :=
  p ← ObjectPool.release ptr (orderPool_ b);
  Ok (set_pool p b).

Definition CanMatch (side : Side) (price : Price) (b : OrderBook) : bool :=
  match side with
  | Buy =>
      match asks_ b with
      | [] => false
      | (bestAsk, _) :: _ => (bestAsk <=? price)%Z
      end
  | Sell =>
      match bids_ b with
      | [] => false
      | (bestBid, _) :: _ => (price <=? bestBid)%Z
      end
  end.

Definition CancelOrder (orderId : OrderId) (b : OrderBook) : result OrderBook :=
  match orders_ b !! orderId with
  | None => Ok b
  | Some order =>
      let b := set_orders (delete orderId (orders_ b)) b in
      o ← deref order b;
      b ← match side_ o with
          | Sell =>
              let price := price_ o in
              orders ← PriceMap.at_ price (asks_ b);
              orders ← OrderList.remove order orders;
              let b := set_asks (PriceMap.assign price orders (asks_ b)) b in
              Ok (if OrderList.empty orders
                  then set_asks (PriceMap.erase price (asks_ b)) b else b)
          | Buy =>
              let price := price_ o in
              orders ← PriceMap.at_ price (bids_ b);
              orders ← OrderList.remove order orders;
              let b := set_bids (PriceMap.assign price orders (bids_ b)) b in
              Ok (if OrderList.empty orders
                  then set_bids (PriceMap.erase price (bids_ b)) b else b)
          end;
      release_at order b
  end.

(** The body of the inner [while] of [MatchOrders]; [bids] and [asks]
    are the levels of [*bids_.begin()] and [*asks_.begin()]. The
    boolean tells whether the loop was left by [break]. *)
Definition match_front (bidPrice askPrice : Price) (bid ask : OrderPointer)
    (b : OrderBook) : result (bool * OrderBook) :=
  ob ← deref bid b;
  oa ← deref ask b;
  let quantity := N.min (remainingQuantity_ ob) (remainingQuantity_ oa) in
  b ← Fill_at bid quantity b;
  b ← Fill_at ask quantity b;
  ob ← deref bid b;
  b ← (if Order.IsFilled ob then
         let b := set_bids (PriceMap.assign_first
                    (OrderList.pop_front (PriceMap.first (bids_ b))) (bids_ b)) b in
         let b := set_orders (delete (orderId_ ob) (orders_ b)) b in
         release_at bid b
       else Ok b);
  oa ← deref ask b;
  b ← (if Order.IsFilled oa then
         let b := set_asks (PriceMap.assign_first
                    (OrderList.pop_front (PriceMap.first (asks_ b))) (asks_ b)) b in
         let b := set_orders (delete (orderId_ oa) (orders_ b)) b in
         release_at ask b
       else Ok b);
  ob ← deref bid b;
  oa ← deref ask b;
  let b := set_trades (trades_ b ++
             [mkTrade (mkTradeInfo (orderId_ ob) (price_ ob) quantity)
                      (mkTradeInfo (orderId_ oa) (price_ oa) quantity)]) b in
  let bidsEmpty := OrderList.empty (PriceMap.first (bids_ b)) in
  let asksEmpty := OrderList.empty (PriceMap.first (asks_ b)) in
  let b := if bidsEmpty then set_bids (PriceMap.erase bidPrice (bids_ b)) b else b in
  let b := if asksEmpty then set_asks (PriceMap.erase askPrice (asks_ b)) b else b in
  Ok (bidsEmpty || asksEmpty, b).

(** [while (bids.size() && asks.size()) { ... }]. *)
Fixpoint match_level (fuel : nat) (bidPrice askPrice : Price) (b : OrderBook)
    : result OrderBook :=
  match fuel with
  | O => Err Diverges
  | S fuel' =>
      match OrderList.front (PriceMap.first (bids_ b)),
            OrderList.front (PriceMap.first (asks_ b)) with
      | Some bid, Some ask =>
          '(stop, b) ← match_front bidPrice askPrice bid ask b;
          if stop : bool then Ok b else match_level fuel' bidPrice askPrice b
      | _, _ => Ok b
      end
  end.

(** [while (true) { ... }]. *)
Fixpoint match_loop (fuel : nat) (b : OrderBook) : result OrderBook :=
  match fuel with
  | O => Err Diverges
  | S fuel' =>
      match bids_ b, asks_ b with
      | (bidPrice, _) :: _, (askPrice, _) :: _ =>
          if (bidPrice <? askPrice)%Z then Ok b
          else
            b ← match_level fuel bidPrice askPrice b;
            match_loop fuel' b
      | _, _ => Ok b
      end
  end.

(** The two blocks after the loop: a FillAndKill order at the front of
    the best level is cancelled. *)
Definition sweep (m : PriceMap) (b : OrderBook) : result OrderBook :=
  match m with
  | [] => Ok b
  | (_, orders) :: _ =>
      match OrderList.front orders with
      | None => Ok b
      | Some order =>
          o ← deref order b;
          match orderType_ o with
          | FillAndKill => CancelOrder (orderId_ o) b
          | GoodTillCancel => Ok b
          end
      end
  end.

(** The orders linked into one side, and their number on the two sides. *)
Definition handles (m : PriceMap) : list OrderPointer := concat m.*2.

Definition resting (b : OrderBook) : nat :=
  length (handles (bids_ b)) + length (handles (asks_ b)).

(** Every pass of the inner loop unlinks an order, so the loops of a
    book whose levels are non-empty finish within [S (resting b)]
    passes (see [match_loop_total] and [match_loop_fuel] below). *)
Definition MatchOrders (b : OrderBook) : result (Trades * OrderBook) :=
  let b := set_trades [] b in
  b ← match_loop (S (resting b)) b;
  b ← sweep (bids_ b) b;
  b ← sweep (asks_ b) b;
  Ok (trades_ b, b).

(** The book that [AddOrder] leaves, with the vector that its [return]
    statement names: [trades_], cleared, for an id of the index, and
    otherwise a temporary, [{}] or the copy of [trades_] that
    [MatchOrders] returns, which holds the trades that the call made.
    The function is declared [const Trades&]: the reference that it
    hands to its caller is in [ByRef.AddOrder] below. *)
Definition AddOrder (orderType : OrderType) (orderId : OrderId) (side : Side)
    (price : Price) (quantity : Quantity) (b : OrderBook)
    : result (Trades * OrderBook) :=
  match orders_ b !! orderId with
  | Some _ => Ok ([], set_trades [] b)
  | None =>
      if bool_decide (orderType = FillAndKill) && negb (CanMatch side price b)
      then Ok ([], b)
      else
        '(order, p) ← ObjectPool.acquire
                        (Order.new orderType orderId side price quantity)
                        (orderPool_ b);
        let b := set_pool p b in
        o ← deref order b;
        let b :=
          match side_ o with
          | Buy =>
              let m := PriceMap.subscript PriceMap.greater (price_ o) (bids_ b) in
              let orders := default [] (PriceMap.find (price_ o) m) in
              set_bids (PriceMap.assign (price_ o)
                          (OrderList.push_back order orders) m) b
          | Sell =>
              let m := PriceMap.subscript PriceMap.less (price_ o) (asks_ b) in
              let orders := default [] (PriceMap.find (price_ o) m) in
              set_asks (PriceMap.assign (price_ o)
                          (OrderList.push_back order orders) m) b
          end in
        let b := set_orders (<[orderId_ o := order]> (orders_ b)) b in
        MatchOrders b
  end.

(** The book that the statements of [MatchOrder] leave, with the
    vector that the [return] statement of its call of [AddOrder]
    names. What [return AddOrder(...)] makes of the reference it is
    given is in [ByRef.MatchOrder] below. *)
Definition MatchOrder (order : OrderModify) (b : OrderBook)
    : result (Trades * OrderBook) :=
  match orders_ b !! om_orderId order with
  | None => Ok ([], b)
  | Some existingOrder =>
      o ← deref existingOrder b;
      let type := orderType_ o in
      b ← CancelOrder (om_orderId order) b;
      AddOrder type (om_orderId order) (om_side order) (om_price order)
        (om_quantity order) b
  end.

Definition Size (b : OrderBook) : nat := size (orders_ b).

(** [std::accumulate] with a [Quantity] accumulator. *)
Fixpoint accumulate (orders : OrderList) (runningSum : Quantity) (b : OrderBook)
    : result Quantity :=
  match orders with
  | [] => Ok runningSum
  | order :: rest =>
      o ← deref order b;
      accumulate rest ((runningSum + remainingQuantity_ o) mod Quantity_modulus)%N b
  end.

Definition CreateLevelInfos (b : OrderBook) (level : Price * OrderList)
    : result LevelInfo :=
  q ← accumulate level.2 0%N b;
  Ok (mkLevelInfo level.1 q).

Fixpoint level_infos (b : OrderBook) (m : PriceMap) : result LevelInfos :=
  match m with
  | [] => Ok []
  | level :: m' =>
      i ← CreateLevelInfos b level;
      infos ← level_infos b m';
      Ok (i :: infos)
  end.

Definition GetOrderInfos (b : OrderBook) : result OrderBookLevelInfos :=
  bidInfos ← level_infos b (bids_ b);
  askInfos ← level_infos b (asks_ b);
  Ok (mkOrderBookLevelInfos bidInfos askInfos).

(** ** Event traces *)

Inductive event :=
| EvAdd (orderType : OrderType) (orderId : OrderId) (side : Side)
        (price : Price) (quantity : Quantity)
| EvCancel (orderId : OrderId)
| EvModify (order : OrderModify).

(** The arguments fit their C++ types. *)
Definition event_ok (e : event) : Prop :=
  match e with
  | EvAdd _ orderId _ price quantity =>
      OrderId_ok orderId ∧ Price_ok price ∧ Quantity_ok quantity
  | EvCancel orderId => OrderId_ok orderId
  | EvModify order =>
      OrderId_ok (om_orderId order) ∧ Price_ok (om_price order)
      ∧ Quantity_ok (om_quantity order)
  end.

Definition run_event (e : event) (b : OrderBook) : result (Trades * OrderBook) :=
  match e with
  | EvAdd orderType orderId side price quantity =>
      AddOrder orderType orderId side price quantity b
  | EvCancel orderId => b' ← CancelOrder orderId b; Ok ([], b')
  | EvModify order => MatchOrder order b
  end.

(** The books a caller can observe between two operations. The books
    that the statements of a modify of a resting order leave are
    counted among them, though the call itself is undefined (see
    [ByRef.MatchOrder]): what holds of every reachable book holds of
    the books of the callers that never make such a call. *)
Inductive reachable : OrderBook → Prop :=
| reachable_new : reachable OrderBook_new
| reachable_step b e trades b' :
    reachable b → event_ok e → run_event e b = Ok (trades, b') → reachable b'.

(** ** Auxiliary notions for the proofs *)

(** The orders linked into the book. *)
Definition live (b : OrderBook) : list OrderPointer :=
  handles (bids_ b) ++ handles (asks_ b).

Definition at_level (m : PriceMap) (p : Price) (h : OrderPointer) : Prop :=
  ∃ l, (p, l) ∈ m ∧ h ∈ l.

Definition slot (b : OrderBook) (h : OrderPointer) : option Order :=
  pool_ (orderPool_ b) !! h.

(** What [bids_[k].push_back(h)] makes of the map. *)
Definition push (comp : Price → Price → bool) (k : Price) (h : OrderPointer)
    (m : PriceMap) : PriceMap :=
  let m' := PriceMap.subscript comp k m in
  PriceMap.assign k
    (OrderList.push_back h (default [] (PriceMap.find k m'))) m'.

(** What unlinking [h] from the level at [k], and erasing the level if
    that empties it, makes of the map. *)
Definition drop (k : Price) (h : OrderPointer) (m : PriceMap) : PriceMap :=
  match PriceMap.find k m with
  | Some l =>
      match OrderList.unlink h l with
      | Some l' =>
          if OrderList.empty l'
          then PriceMap.erase k (PriceMap.assign k l' m)
          else PriceMap.assign k l' m
      | None => m
      end
  | None => m
  end.

Definition best (m : PriceMap) : option Price := fst <$> head m.


(** The keys of a map come in the strict order of its comparator. *)
Definition sorted (comp : Price → Price → bool) (m : PriceMap) : Prop :=
  StronglySorted (λ a b, comp a b = true) m.*1.

Definition no_empty_level (m : PriceMap) : Prop :=
  Forall (λ kl, kl.2 ≠ []) m.

Definition side_map (s : Side) (b : OrderBook) : PriceMap :=
  match s with Buy => bids_ b | Sell => asks_ b end.

Definition set_side (s : Side) (m : PriceMap) (b : OrderBook) : OrderBook :=
  match s with Buy => set_bids m b | Sell => set_asks m b end.

Definition side_comp (s : Side) : Price → Price → bool :=
  match s with Buy => PriceMap.greater | Sell => PriceMap.less end.

Definition opposite (s : Side) : Side :=
  match s with Buy => Sell | Sell => Buy end.

(** The slot of an order linked at price [p] on side [s] holds that
    side and price, and the index leads from its id back to it. *)
Definition linked_ok (b : OrderBook) (s : Side) (p : Price) (h : OrderPointer)
    : Prop :=
  ∃ o, slot b h = Some o ∧ side_ o = s ∧ price_ o = p
       ∧ orders_ b !! orderId_ o = Some h.

(** The representation invariant of the book. *)
Record WF (b : OrderBook) : Prop := mkWF {
  wf_sorted : ∀ s, sorted (side_comp s) (side_map s b);
  wf_no_empty : ∀ s, no_empty_level (side_map s b);
  wf_live_NoDup : NoDup (live b);
  wf_linked : ∀ s p h, at_level (side_map s b) p h → linked_ok b s p h;
  wf_index : ∀ id h, orders_ b !! id = Some h →
      h ∈ live b ∧ ∃ o, slot b h = Some o ∧ orderId_ o = id;
  wf_free_NoDup : NoDup (free_indices_ (orderPool_ b));
  wf_free : ∀ h, h ∈ free_indices_ (orderPool_ b) →
      h < length (pool_ (orderPool_ b)) ∧ h ∉ live b
}.

(** Every bid price is below every ask price. *)
Definition uncrossed (b : OrderBook) : Prop :=
  ∀ pb pa, pb ∈ (bids_ b).*1 → pa ∈ (asks_ b).*1 → (pb < pa)%Z.

(** Two states of one order: all but the remaining quantity agree. *)
Definition same_order (o o' : Order) : Prop :=
  orderType_ o' = orderType_ o ∧ orderId_ o' = orderId_ o
  ∧ side_ o' = side_ o ∧ price_ o' = price_ o
  ∧ initialQuantity_ o' = initialQuantity_ o.

Definition with_remaining (q : Quantity) (o : Order) : Order :=
  mkOrder (orderType_ o) (orderId_ o) (side_ o) (price_ o)
    (initialQuantity_ o) q.

(** The three elementary transitions of the book: an order's slot is
    overwritten; an order is unlinked, erased from the index and
    released; a fresh order is acquired, linked and indexed. *)
Definition store (h : OrderPointer) (o : Order) (b : OrderBook) : OrderBook :=
  set_pool (ObjectPool.write h o (orderPool_ b)) b.

Definition retire (h : OrderPointer) (o : Order) (b : OrderBook) : OrderBook :=
  let b1 := set_side (side_ o) (drop (price_ o) h (side_map (side_ o) b)) b in
  mkBook (bids_ b1) (asks_ b1) (delete (orderId_ o) (orders_ b)) (trades_ b)
    (mkPool (pool_ (orderPool_ b)) (h :: free_indices_ (orderPool_ b))).

Definition enter (h : OrderPointer) (o : Order) (b : OrderBook) : OrderBook :=
  let b1 := set_side (side_ o)
     (push (side_comp (side_ o)) (price_ o) h (side_map (side_ o) b)) b in
  mkBook (bids_ b1) (asks_ b1) (<[orderId_ o := h]> (orders_ b)) (trades_ b)
    (mkPool (<[h := o]> (pool_ (orderPool_ b)))
            (tail (free_indices_ (orderPool_ b)))).

(** What one pass of the inner loop of [MatchOrders] makes of the book
    when [bid] and [ask], holding [ob] and [oa], are at the front of
    the best levels. *)
Definition settle (bid ask : OrderPointer) (ob oa : Order) (b : OrderBook)
    : OrderBook :=
  let quantity := N.min (remainingQuantity_ ob) (remainingQuantity_ oa) in
  let ob' := with_remaining (remainingQuantity_ ob - quantity)%N ob in
  let oa' := with_remaining (remainingQuantity_ oa - quantity)%N oa in
  let b := store ask oa' (store bid ob' b) in
  let b := if Order.IsFilled ob' then retire bid ob' b else b in
  let b := if Order.IsFilled oa' then retire ask oa' b else b in
  set_trades (trades_ b ++
    [mkTrade (mkTradeInfo (orderId_ ob) (price_ ob) quantity)
             (mkTradeInfo (orderId_ oa) (price_ oa) quantity)]) b.

(** One pass of the inner loop of [MatchOrders], on a book whose best
    bid and best ask cross. *)
Inductive match_step (b : OrderBook) : OrderBook → Prop :=
| match_step_intro pb pa bid ask bt bm at_ am ob oa :
    bids_ b = (pb, bid :: bt) :: bm → asks_ b = (pa, ask :: at_) :: am →
    slot b bid = Some ob → slot b ask = Some oa → (pa ≤ pb)%Z →
    match_step b (settle bid ask ob oa b).

(** The condition on which the outer loop of [MatchOrders] is left. *)
Definition quiet (b : OrderBook) : Prop :=
  match bids_ b, asks_ b with
  | (bidPrice, _) :: _, (askPrice, _) :: _ => (bidPrice < askPrice)%Z
  | _, _ => True
  end.

(** What the block after the loops makes of the book, for one side. *)
Definition swept (s : Side) (b : OrderBook) : OrderBook :=
  match side_map s b with
  | (_, h :: _) :: _ =>
      match slot b h with
      | Some o =>
          match orderType_ o with
          | FillAndKill => retire h o b
          | GoodTillCancel => b
          end
      | None => b
      end
  | _ => b
  end.

(** ** Properties of the books between two operations *)

(** No FillAndKill order is linked. *)
Definition no_fak (b : OrderBook) : Prop :=
  ∀ h o, h ∈ live b → slot b h = Some o → orderType_ o = GoodTillCancel.

(** Every linked FillAndKill order is at the front of the best level of
    one of the sides in [ok]. *)
Definition fak_front (ok : Side → Prop) (b : OrderBook) : Prop :=
  ∀ h o, h ∈ live b → slot b h = Some o → orderType_ o = FillAndKill →
    ∃ s p l m, ok s ∧ side_map s b = (p, h :: l) :: m.

(** A linked order with nothing remaining was submitted with quantity 0. *)
Definition zero_ok (b : OrderBook) : Prop :=
  ∀ h o, h ∈ live b → slot b h = Some o →
    remainingQuantity_ o = 0%N → initialQuantity_ o = 0%N.

Definition trade_ok (t : Trade) : Prop :=
  (ti_price (askTrade_ t) ≤ ti_price (bidTrade_ t))%Z.

Record Inv (b : OrderBook) : Prop := mkInv {
  inv_wf : WF b;
  inv_uncrossed : uncrossed b;
  inv_no_fak : no_fak b;
  inv_zero_ok : zero_ok b
}.

(** [b] comes from [b0] by fills and removals only: the index shrank,
    and a linked order is the order it was, with no more remaining. *)
Definition descends (b0 b : OrderBook) : Prop :=
  orders_ b ⊆ orders_ b0
  ∧ ∀ h o', h ∈ live b → slot b h = Some o' →
      ∃ o, slot b0 h = Some o ∧ same_order o o'
           ∧ (remainingQuantity_ o' ≤ remainingQuantity_ o)%N.

(** If [h] is linked, it is the last of the level at [p] on side [s]. *)
Definition at_tail (s : Side) (p : Price) (h : OrderPointer) (b : OrderBook)
    : Prop :=
  h ∈ live b → ∃ l, PriceMap.find p (side_map s b) = Some (l ++ [h]).

(** Running a trace of events. *)
Fixpoint run_events (es : list event) (b : OrderBook)
    : result (list Trades * OrderBook) :=
  match es with
  | [] => Ok ([], b)
  | e :: es =>
      '(t, b) ← run_event e b;
      '(ts, b) ← run_events es b;
      Ok (t :: ts, b)
  end.

(** The book that a trace leaves when run on a new book (the new book
    itself if an operation of the trace throws). *)
Definition book_after (es : list event) : OrderBook :=
  match run_events es OrderBook_new with
  | Ok (_, b) => b
  | Err _ => OrderBook_new
  end.

(** ** The traces of the scenarios *)

(** Two bids at one price, then a sell that fills the first and part
    of the second. *)
Definition trace_priority : list event :=
  [EvAdd GoodTillCancel 1%N Buy 100%Z 5%N;
   EvAdd GoodTillCancel 2%N Buy 100%Z 5%N;
   EvAdd GoodTillCancel 3%N Sell 100%Z 7%N].

(** A bid, then a larger FillAndKill sell at its price. *)
Definition trace_fak : list event :=
  [EvAdd GoodTillCancel 1%N Buy 100%Z 4%N;
   EvAdd FillAndKill 2%N Sell 100%Z 10%N].

(** A bid and an ask that do not cross. *)
Definition trace_spread : list event :=
  [EvAdd GoodTillCancel 1%N Buy 99%Z 10%N;
   EvAdd GoodTillCancel 2%N Sell 100%Z 5%N].


(** Two bids of quantity 2^31 at one price. *)
Definition trace_large : list event :=
  [EvAdd GoodTillCancel 1%N Buy 100%Z 2147483648%N;
   EvAdd GoodTillCancel 2%N Buy 100%Z 2147483648%N].

(** Two bids at one price. *)
Definition trace_queue : list event :=
  [EvAdd GoodTillCancel 1%N Buy 100%Z 5%N;
   EvAdd GoodTillCancel 2%N Buy 100%Z 5%N].

(** A crossed book in a pool of three slots: the bids 1 and 2 of 5
    queue at 100 against the ask 3 of 7 at 100. *)
Definition book_crossed : OrderBook :=
  mkBook [(100%Z, [0; 1])] [(100%Z, [2])]
    (<[1%N:=0]> (<[2%N:=1]> (<[3%N:=2]> ∅))) []
    (mkPool [Order.new GoodTillCancel 1%N Buy 100%Z 5%N;
             Order.new GoodTillCancel 2%N Buy 100%Z 5%N;
             Order.new GoodTillCancel 3%N Sell 100%Z 7%N] []).

(** The order [id], if it rests in [b'], rested in [b] in the same
    slot, with no less remaining. *)
Definition inherits (b b' : OrderBook) (id : OrderId) : Prop :=
  ∀ h' o', orders_ b' !! id = Some h' → slot b' h' = Some o' →
    ∃ o, orders_ b !! id = Some h' ∧ slot b h' = Some o ∧ same_order o o'
         ∧ (remainingQuantity_ o' ≤ remainingQuantity_ o)%N.

(** The remaining quantity of the order in a slot, and the exact sum
    over a level. *)
Definition remaining_at (b : OrderBook) (h : OrderPointer) : N :=
  from_option remainingQuantity_ 0%N (slot b h).

Definition level_sum (b : OrderBook) (l : OrderList) : N :=
  foldr (λ h acc, (remaining_at b h + acc)%N) 0%N l.

(** The level that the snapshot gives for a level of the book. *)
Definition level_info (b : OrderBook) (level : Price * OrderList) : LevelInfo :=
  mkLevelInfo level.1 (level_sum b level.2 mod Quantity_modulus)%N.


(** ** Further notions *)

(** Every slot of the slab is free or linked. *)
Definition accounted (b : OrderBook) : Prop :=
  length (free_indices_ (orderPool_ b)) + length (live b)
  = length (pool_ (orderPool_ b)).

(** The fields of an order fit their types, and no more remains than
    was submitted. *)
Definition Order_ok (o : Order) : Prop :=
  (remainingQuantity_ o ≤ initialQuantity_ o)%N
  ∧ Quantity_ok (initialQuantity_ o)
  ∧ Price_ok (price_ o) ∧ OrderId_ok (orderId_ o).

Definition orders_ok (b : OrderBook) : Prop :=
  ∀ h o, h ∈ live b → slot b h = Some o → Order_ok o.

(** An order of side [s] with the limit [p] can trade with a resting
    order of the other side at [price]. *)
Definition crosses (s : Side) (p price : Price) : Prop :=
  match s with Buy => (price ≤ p)%Z | Sell => (p ≤ price)%Z end.

(** The leg of a trade that belongs to the order of side [s], and the
    other leg. *)
Definition taker_leg (s : Side) (t : Trade) : TradeInfo :=
  match s with Buy => bidTrade_ t | Sell => askTrade_ t end.

Definition maker_leg (s : Side) (t : Trade) : TradeInfo :=
  taker_leg (opposite s) t.

(** The quantity that a list of trades moved. *)
Definition traded (ts : Trades) : N :=
  foldr (λ t acc, (ti_quantity (bidTrade_ t) + acc)%N) 0%N ts.

(** [t] is a trade of the order [id], of side [s] and limit [p], with
    an order that rests in [e] in another slot than [h]. *)
Definition trade_with (e : OrderBook) (h : OrderPointer) (id : OrderId)
    (s : Side) (p : Price) (t : Trade) : Prop :=
  ti_orderId (taker_leg s t) = id ∧ ti_price (taker_leg s t) = p
  ∧ ti_quantity (bidTrade_ t) = ti_quantity (askTrade_ t)
  ∧ ∃ hm om, hm ≠ h
      ∧ orders_ e !! ti_orderId (maker_leg s t) = Some hm
      ∧ slot e hm = Some om ∧ side_ om = opposite s
      ∧ price_ om = ti_price (maker_leg s t)
      ∧ (ti_quantity (maker_leg s t) ≤ remainingQuantity_ om)%N.

(** The state of the matching loops that [AddOrder] runs after it
    entered the order [id] of quantity [q] in slot [h], giving [e]:
    the trades so far are trades of that order; what the order has
    left and what was traded make [q]; and the book is crossed, if at
    all, by that order alone at the front of its side. *)
Definition taker_inv (e : OrderBook) (h : OrderPointer) (id : OrderId)
    (s : Side) (p : Price) (q : Quantity) (b : OrderBook) : Prop :=
  descends e b
  ∧ Forall (trade_with e h id s p) (trades_ b)
  ∧ ((h ∈ live b
      ∧ (∃ o', slot b h = Some o'
               ∧ (remainingQuantity_ o' + traded (trades_ b))%N = q))
     ∨ ((h ∉ live b) ∧ traded (trades_ b) = q))
  ∧ (uncrossed b
     ∨ ∃ m, side_map s b = (p, [h]) :: m
            ∧ ∀ x y, x ∈ m.*1 → y ∈ (side_map (opposite s) b).*1 →
                     side_comp s y x = true).

(** [t'] was made at prices no better for the order that came in than
    [t]: its ask price is no lower and its bid price no higher. *)
Definition price_order (t t' : Trade) : Prop :=
  (ti_price (askTrade_ t) ≤ ti_price (askTrade_ t'))%Z
  ∧ (ti_price (bidTrade_ t') ≤ ti_price (bidTrade_ t))%Z.

(** The trades so far come in the order of their prices, and no level
    of the book has a better price than a trade that was made. *)
Definition best_first (b : OrderBook) : Prop :=
  StronglySorted price_order (trades_ b)
  ∧ ∀ t, t ∈ trades_ b →
      (∀ pa, pa ∈ (asks_ b).*1 → (ti_price (askTrade_ t) ≤ pa)%Z)
      ∧ (∀ pb, pb ∈ (bids_ b).*1 → (pb ≤ ti_price (bidTrade_ t))%Z).

(** ** The pool and its user *)

(** [used] are the slots that were handed out and not given back: the
    free indices are distinct, in range and not in use, and every slot
    is free or in use. *)
Definition pool_inv (p : ObjectPool) (used : gset OrderPointer) : Prop :=
  NoDup (free_indices_ p)
  ∧ (∀ h, h ∈ free_indices_ p → h < length (pool_ p) ∧ h ∉ used)
  ∧ (∀ h, h ∈ used → h < length (pool_ p))
  ∧ length (free_indices_ p) + size used = length (pool_ p).

(** ** OrderList.h, with its pointers *)

Module Intrusive.

(** The fields [prev_] and [next_] of the orders, as [OrderList] reads
    and writes them (Order.h, which declares them, is not among the
    sources): the slot that the field of an order points to; a null
    pointer is an absent key. *)
Record Links := mkLinks {
  prev_ : gmap OrderPointer OrderPointer;
  next_ : gmap OrderPointer OrderPointer
}.

Definition assign (order : OrderPointer) (v : option OrderPointer)
    (m : gmap OrderPointer OrderPointer) : gmap OrderPointer OrderPointer :=
  match v with Some x => <[order := x]> m | None => delete order m end.

(** [order->prev_ = v] and [order->next_ = v]. *)
Definition set_prev (order : OrderPointer) (v : option OrderPointer)
    (k : Links) : Links :=
  mkLinks (assign order v (prev_ k)) (next_ k).

Definition set_next (order : OrderPointer) (v : option OrderPointer)
    (k : Links) : Links :=
  mkLinks (prev_ k) (assign order v (next_ k)).

(** [size_t], taken as 64 bits wide. *)
Definition size_modulus : N := (2 ^ 64)%N.

Record OrderList := mkList {
  head_ : option OrderPointer;
  tail_ : option OrderPointer;
  size_ : N
}.

(** [OrderList() = default]. *)
Definition new : OrderList := mkList None None 0%N.

Definition push_back (order : OrderPointer) (k : Links) (l : OrderList)
    : result (Links * OrderList) :=
  '(k, l) ←
    match head_ l with
    | None =>
        let l := mkList (Some order) (Some order) (size_ l) in
        let k := set_prev order None k in
        let k := set_next order None k in
        Ok (k, l)
    | Some _ =>
        match tail_ l with
        | None => Err Undefined          (* [tail_->next_] through null *)
        | Some t =>
            let k := set_next t (Some order) k in
            let k := set_prev order (tail_ l) k in
            let k := set_next order None k in
            Ok (k, mkList (head_ l) (Some order) (size_ l))
        end
    end;
  Ok (k, mkList (head_ l) (tail_ l) ((size_ l + 1) mod size_modulus)%N).

Definition remove (order : OrderPointer) (k : Links) (l : OrderList)
    : Links * OrderList :=
  let '(k, l) :=
    match prev_ k !! order with
    | Some p => (set_next p (next_ k !! order) k, l)
    | None => (k, mkList (next_ k !! order) (tail_ l) (size_ l))
    end in
  let '(k, l) :=
    match next_ k !! order with
    | Some n => (set_prev n (prev_ k !! order) k, l)
    | None => (k, mkList (head_ l) (prev_ k !! order) (size_ l))
    end in
  let k := set_prev order None k in
  let k := set_next order None k in
  (k, mkList (head_ l) (tail_ l)
        ((size_ l + size_modulus - 1) mod size_modulus)%N).

Definition front (l : OrderList) : option OrderPointer := head_ l.

Definition pop_front (k : Links) (l : OrderList) : Links * OrderList :=
  match head_ l with
  | Some h => remove h k l
  | None => (k, l)
  end.

Definition empty (l : OrderList) : bool :=
  match head_ l with None => true | Some _ => false end.

Definition size (l : OrderList) : N := size_ l.

(** The iterators: [begin()], [end()] and [operator++]. *)
Definition begin_ (l : OrderList) : option OrderPointer := head_ l.
Definition end_ : option OrderPointer := None.

Definition incr (k : Links) (ptr : option OrderPointer)
    : option OrderPointer :=
  match ptr with
  | Some p => next_ k !! p
  | None => None
  end.

(** [for (it = first; it != end(); ++it)], collecting [*it]. *)
Fixpoint walk (fuel : nat) (k : Links) (it : option OrderPointer)
    : result (list OrderPointer) :=
  match it with
  | None => Ok []
  | Some p =>
      match fuel with
      | O => Err Diverges
      | S fuel' => xs ← walk fuel' k (incr k it); Ok (p :: xs)
      end
  end.

(** The orders [xs] are linked in this order from [p] to [n]: the
    first has [p] before it, the last has [n] behind it. *)
Fixpoint seg (k : Links) (p : option OrderPointer) (xs : list OrderPointer)
    (n : option OrderPointer) : Prop :=
  match xs with
  | [] => True
  | x :: xs' =>
      prev_ k !! x = p
      ∧ next_ k !! x = match xs' with [] => n | y :: _ => Some y end
      ∧ seg k (Some x) xs' n
  end.

(** The list [l] holds the orders [xs], in this order. *)
Definition represents (k : Links) (l : OrderList) (xs : list OrderPointer)
    : Prop :=
  head_ l = head xs ∧ tail_ l = last xs
  ∧ size_ l = (N.of_nat (length xs) mod size_modulus)%N
  ∧ NoDup xs ∧ seg k None xs None.

End Intrusive.

(** ** The operations with the references they return

    [AddOrder] is declared [const Trades& AddOrder(...)]: it hands its
    caller a reference, not a list. [AddOrder] above gives the book the
    call leaves and the vector that its [return] statement names; here
    is what the reference is bound to, and what [MatchOrder], which
    copies its result from that reference, makes of it. *)

Module ByRef.

(** What a [const Trades&] refers to. *)
Inductive TradesRef :=
| member                       (* the vector [trades_] of the book *)
| temporary (value : Trades).  (* a temporary of the function that returned
                                  it, destroyed when that function returns;
                                  [value] is what it held *)

(** Reading the vector through the reference after the call. *)
Definition read (r : TradesRef) (b : OrderBook) : result Trades :=
  match r with
  | member => Ok (trades_ b)
  | temporary _ => Err Undefined
  end.

Definition AddOrder (orderType : OrderType) (orderId : OrderId) (side : Side)
    (price : Price) (quantity : Quantity) (b : OrderBook)
    : result (TradesRef * OrderBook) :=
  match orders_ b !! orderId with
  | Some _ =>
      let b := set_trades [] b in       (* trades_.clear(); *)
      Ok (member, b)                    (* return trades_; *)
  | None =>
      if bool_decide (orderType = FillAndKill) && negb (CanMatch side price b)
      then Ok (temporary [], b)         (* return {}; *)
      else
        '(order, p) ← ObjectPool.acquire
                        (Order.new orderType orderId side price quantity)
                        (orderPool_ b);
        let b := set_pool p b in
        o ← deref order b;
        let b :=
          match side_ o with
          | Buy =>
              let m := PriceMap.subscript PriceMap.greater (price_ o) (bids_ b) in
              let orders := default [] (PriceMap.find (price_ o) m) in
              set_bids (PriceMap.assign (price_ o)
                          (OrderList.push_back order orders) m) b
          | Sell =>
              let m := PriceMap.subscript PriceMap.less (price_ o) (asks_ b) in
              let orders := default [] (PriceMap.find (price_ o) m) in
              set_asks (PriceMap.assign (price_ o)
                          (OrderList.push_back order orders) m) b
          end in
        let b := set_orders (<[orderId_ o := order]> (orders_ b)) b in
        '(trades, b) ← MatchOrders b;   (* [const Trades MatchOrders()] *)
        Ok (temporary trades, b)        (* return MatchOrders(); *)
  end.

(** [Trades MatchOrder(OrderModify)] returns a vector: the one that
    [return AddOrder(...)] copies from the reference it was given. *)
Definition MatchOrder (order : OrderModify) (b : OrderBook)
    : result (Trades * OrderBook) :=
  match orders_ b !! om_orderId order with
  | None => Ok ([], b)
  | Some existingOrder =>
      o ← deref existingOrder b;
      let type := orderType_ o in
      b ← CancelOrder (om_orderId order) b;
      '(r, b) ← AddOrder type (om_orderId order) (om_side order)
                  (om_price order) (om_quantity order) b;
      trades ← read r b;
      Ok (trades, b)
  end.

(** The book after an operation of a caller that does not use what
    [AddOrder] returns, as [main] calls it. *)
Definition run_event (e : event) (b : OrderBook) : result OrderBook :=
  match e with
  | EvAdd orderType orderId side price quantity =>
      '(_, b') ← AddOrder orderType orderId side price quantity b; Ok b'
  | EvCancel orderId => CancelOrder orderId b
  | EvModify order => '(_, b') ← MatchOrder order b; Ok b'
  end.

End ByRef.

(** ** Price-time priority, in the words of the specification *)

(** The orders that rest on side [s], in the order of their priority:
    the levels best price first, the orders of a level oldest first. *)
Definition book_orders (s : Side) (b : OrderBook) : list Order :=
  omap (slot b) (handles (side_map s b)).

(** The limit [p] of an order of side [s] reaches [price]. *)
Definition crossesb (s : Side) (p price : Price) : bool :=
  match s with Buy => (price <=? p)%Z | Sell => (p <=? price)%Z end.

(** What an order of side [s] with the limit [p] and the quantity [q]
    takes from the resting orders [makers], first come first served:
    from each order that its limit reaches the least of what the two
    have left, until it has nothing left or the next order is out of
    reach. *)
Fixpoint priority_fills (s : Side) (p : Price) (q : Quantity)
    (makers : list Order) : list (Order * Quantity) :=
  match makers with
  | [] => []
  | m :: makers' =>
      if crossesb s p (price_ m) then
        let x := N.min (remainingQuantity_ m) q in
        (m, x) :: (if (q - x =? 0)%N then []
                   else priority_fills s p (q - x)%N makers')
      else []
  end.

(** The trade of the order [id] of side [s] and limit [p] with the
    resting order [mx.1], for the quantity [mx.2]. *)
Definition trade_of (s : Side) (id : OrderId) (p : Price)
    (mx : Order * Quantity) : Trade :=
  let own := mkTradeInfo id p mx.2 in
  let other := mkTradeInfo (orderId_ mx.1) (price_ mx.1) mx.2 in
  match s with Buy => mkTrade own other | Sell => mkTrade other own end.

(** The state of the loops that [AddOrder] runs for the order [id] in
    slot [h] of [e]: the trades so far, followed by what the order
    would take from the other side as it is now, are what it takes
    from the other side of [e]. *)
Definition fills_inv (e : OrderBook) (h : OrderPointer) (id : OrderId)
    (s : Side) (p : Price) (q : Quantity) (b : OrderBook) : Prop :=
  (h ∈ live b
   ∧ ∃ o', slot b h = Some o'
       ∧ trade_of s id p <$> priority_fills s p q (book_orders (opposite s) e)
         = trades_ b ++
           (trade_of s id p <$>
              priority_fills s p (remainingQuantity_ o')
                (book_orders (opposite s) b)))
  ∨ ((h ∉ live b)
     ∧ trade_of s id p <$> priority_fills s p q (book_orders (opposite s) e)
       = trades_ b).
(** ** Proof tools *)

Ltac decide_simpl :=
  repeat first [rewrite decide_True by done | rewrite decide_False by done].

(** ** Facts on results *)

Lemma bind_Ok {A B} (r : result A) (f : A → result B) (y : B) :
  r ≫= f = Ok y → ∃ a, r = Ok a ∧ f a = Ok y.
Proof. destruct r as [a|e]; simpl; [eauto | discriminate]. Qed.

Lemma bind_Err {A B} (r : result A) (f : A → result B) (e : error) :
  r ≫= f = Err e → r = Err e ∨ ∃ a, r = Ok a ∧ f a = Err e.
Proof. destruct r as [a|e']; simpl; [eauto | intros [= ->]; auto]. Qed.

(** ** Facts on order lists *)

Lemma unlink_perm h l l' : OrderList.unlink h l = Some l' → l ≡ₚ h :: l'.
Proof.
  revert l'. induction l as [|x l IH]; intros l'; simpl; [discriminate|].
  case_decide as Hx.
  - intros [= <-]. by subst.
  - destruct (OrderList.unlink h l) as [l0|]; simpl; [|discriminate].
    intros [= <-]. rewrite (IH l0 eq_refl). apply Permutation_swap.
Qed.

Lemma unlink_elem h l : h ∈ l → is_Some (OrderList.unlink h l).
Proof.
  induction l as [|x l IH]; simpl; [by intros ?%elem_of_nil|].
  intros Hin. case_decide as Hx; [eauto|].
  apply elem_of_cons in Hin as [->|Hin]; [done|].
  destruct (IH Hin) as [l' ->]. simpl. eauto.
Qed.

Lemma unlink_front h l : OrderList.unlink h (h :: l) = Some l.
Proof. simpl. by rewrite decide_True. Qed.

Lemma unlink_last h l l' :
  OrderList.unlink h l = Some l' → NoDup l →
  ∀ x, x ≠ h → last l = Some x → last l' = Some x.
Proof.
  revert l'. induction l as [|y l IH]; intros l'; simpl; [discriminate|].
  case_decide as Hy.
  - intros [= <-] _ x Hx. destruct l as [|z l]; simpl; [|done].
    intros [= ->]. congruence.
  - destruct (OrderList.unlink h l) as [l0|] eqn:Hl; simpl; [|discriminate].
    intros [= <-] [_ Hnd]%NoDup_cons x Hx Hlast.
    destruct l as [|z l]; [discriminate|].
    specialize (IH l0 eq_refl Hnd x Hx Hlast).
    destruct l0; [discriminate|done].
Qed.

(** ** Facts on price maps *)

Lemma at_level_cons k l m p h :
  at_level ((k, l) :: m) p h ↔ (p = k ∧ h ∈ l) ∨ at_level m p h.
Proof.
  unfold at_level. split.
  - intros (l0 & [Heq|Hin]%elem_of_cons & Hh).
    + injection Heq as -> ->. auto.
    + right. eauto.
  - intros [[-> Hh]|(l0 & Hin & Hh)].
    + exists l. split; [left|done].
    + exists l0. split; [by right|done].
Qed.

Lemma at_level_nil p h : ¬ at_level [] p h.
Proof. intros (l & Hin & _). by apply elem_of_nil in Hin. Qed.

Lemma elem_handles m h : h ∈ handles m ↔ ∃ p, at_level m p h.
Proof.
  unfold handles. induction m as [|[k l] m IH]; simpl.
  - split; [by intros ?%elem_of_nil|]. by intros [p ?%at_level_nil].
  - rewrite elem_of_app, IH. split.
    + intros [Hh|[p Hp]].
      * exists k. apply at_level_cons. auto.
      * exists p. apply at_level_cons. auto.
    + intros [p [[-> Hh]|Hp]%at_level_cons]; eauto.
Qed.

Lemma at_level_key m p h : at_level m p h → p ∈ m.*1.
Proof.
  intros (l & Hin & _). apply list_elem_of_fmap. by exists (p, l).
Qed.

Lemma find_elem k m l : PriceMap.find k m = Some l → (k, l) ∈ m.
Proof.
  induction m as [|[k' l'] m IH]; simpl; [discriminate|].
  case_decide as Hk.
  - intros [= ->]. subst. left.
  - intros H. right. auto.
Qed.

Lemma find_None k m : PriceMap.find k m = None ↔ k ∉ m.*1.
Proof.
  induction m as [|[k' l'] m IH]; simpl.
  - split; [intros _ ?%elem_of_nil; done | done].
  - rewrite not_elem_of_cons. case_decide as Hk; split; try done.
    + intros [? _]. congruence.
    + intros H. split; [congruence | by apply IH].
    + intros [_ H]. by apply IH.
Qed.

Lemma elem_find k m l : NoDup m.*1 → (k, l) ∈ m → PriceMap.find k m = Some l.
Proof.
  induction m as [|[k' l'] m IH]; simpl; [by intros _ ?%elem_of_nil|].
  intros [Hk Hnd]%NoDup_cons [Heq|Hin]%elem_of_cons.
  - injection Heq as -> ->. by rewrite decide_True.
  - rewrite decide_False; [by apply IH|].
    intros ->. apply Hk, list_elem_of_fmap. by exists (k, l).
Qed.

(** [drop] and [push], case by case on the first level. *)
Lemma drop_nil k h : drop k h [] = [].
Proof. done. Qed.

Lemma drop_cons k h k' l m :
  drop k h ((k', l) :: m) =
    if decide (k' = k) then
      match OrderList.unlink h l with
      | Some l' => if OrderList.empty l' then m else (k', l') :: m
      | None => (k', l) :: m
      end
    else (k', l) :: drop k h m.
Proof.
  unfold drop. simpl. case_decide as Hk.
  - destruct (OrderList.unlink h l) as [l'|]; [|done].
    destruct (OrderList.empty l'); simpl; by rewrite ?decide_True.
  - destruct (PriceMap.find k m) as [l0|]; [|done].
    destruct (OrderList.unlink h l0) as [l'|]; [|done].
    destruct (OrderList.empty l'); simpl; by rewrite ?decide_False.
Qed.

Lemma drop_keys k h m : sublist (drop k h m).*1 m.*1.
Proof.
  induction m as [|[k' l] m IH]; [done|].
  rewrite drop_cons. case_decide.
  - destruct (OrderList.unlink h l) as [l'|]; [|done].
    destruct (OrderList.empty l'); simpl; [by apply sublist_cons|done].
  - simpl. by apply sublist_skip.
Qed.

Lemma drop_no_empty k h m : no_empty_level m → no_empty_level (drop k h m).
Proof.
  unfold no_empty_level.
  induction m as [|[k' l] m IH]; [done|].
  intros [Hl Hm]%Forall_cons. rewrite drop_cons. case_decide.
  - destruct (OrderList.unlink h l) as [l'|] eqn:Hu; [|by constructor].
    destruct l' as [|x l']; simpl; [done|]. by constructor.
  - constructor; auto.
Qed.

Lemma drop_perm k h m :
  NoDup m.*1 → at_level m k h → handles m ≡ₚ h :: handles (drop k h m).
Proof.
  unfold handles.
  induction m as [|[k' l] m IH]; simpl; [by intros _ ?%at_level_nil|].
  intros [Hk Hnd]%NoDup_cons Hat. rewrite drop_cons. case_decide as Hkk.
  - subst k'. apply at_level_cons in Hat as [[_ Hh]|Hat];
      [|by apply at_level_key in Hat].
    destruct (unlink_elem _ _ Hh) as [l' Hl']. rewrite Hl'.
    apply unlink_perm in Hl'.
    destruct l' as [|x l']; simpl; by rewrite Hl'.
  - apply at_level_cons in Hat as [[? _]|Hat]; [congruence|].
    simpl. rewrite (IH Hnd Hat). by rewrite Permutation_middle.
Qed.

Lemma drop_at_level k h m p x :
  at_level (drop k h m) p x → at_level m p x.
Proof.
  induction m as [|[k' l] m IH]; [done|].
  rewrite drop_cons. case_decide as Hk.
  - destruct (OrderList.unlink h l) as [l'|] eqn:Hu; [|done].
    apply unlink_perm in Hu.
    destruct (OrderList.empty l').
    + intros Hat. apply at_level_cons. by right.
    + rewrite !at_level_cons. intros [[-> Hx]|Hat]; [left|by right].
      split; [done|]. rewrite Hu. by right.
  - rewrite !at_level_cons. intros [?|Hat]; [by left|right; auto].
Qed.

Lemma at_level_drop k h m p x :
  at_level m p x → x ≠ h → at_level (drop k h m) p x.
Proof.
  intros Hat Hx. induction m as [|[k' l] m IH]; [done|].
  rewrite drop_cons. apply at_level_cons in Hat as [[-> Hin]|Hat].
  - case_decide as Hk; [|apply at_level_cons; by left].
    destruct (OrderList.unlink h l) as [l'|] eqn:Hu;
      [|apply at_level_cons; by left].
    apply unlink_perm in Hu. rewrite Hu in Hin.
    apply elem_of_cons in Hin as [?|Hin]; [done|].
    destruct l' as [|y l']; [by apply elem_of_nil in Hin|].
    simpl. apply at_level_cons. by left.
  - case_decide as Hk; [|apply at_level_cons; right; auto].
    destruct (OrderList.unlink h l) as [l'|] eqn:Hu;
      [|apply at_level_cons; by right].
    destruct (OrderList.empty l'); [done|]. apply at_level_cons. by right.
Qed.

Section Comparator.

Variable comp : Price → Price → bool.
Hypothesis comp_irrefl : ∀ a, comp a a = false.
Hypothesis comp_trans :
  ∀ a b c, comp a b = true → comp b c = true → comp a c = true.
Hypothesis comp_total : ∀ a b, comp a b = false → comp b a = false → a = b.

Lemma sorted_NoDup m : sorted comp m → NoDup m.*1.
Proof.
  unfold sorted. induction 1 as [|a l Hl IH Ha]; constructor; [|done].
  intros Hin. rewrite Forall_forall in Ha.
  specialize (Ha _ Hin). by rewrite comp_irrefl in Ha.
Qed.

Lemma sorted_sublist m m' :
  sublist m'.*1 m.*1 → sorted comp m → sorted comp m'.
Proof.
  unfold sorted. generalize (m.*1) (m'.*1). clear m m'.
  intros l l' Hsub Hs. revert l' Hsub.
  induction Hs as [|a l Hl IH Ha]; intros l' Hsub.
  - apply sublist_nil_r in Hsub as ->. constructor.
  - apply sublist_cons_r in Hsub as [Hsub|(l0 & -> & Hsub)]; [auto|].
    constructor; [auto|].
    rewrite Forall_forall in Ha |- *. intros x Hx. apply Ha.
    by eapply elem_of_sublist.
Qed.

Lemma drop_sorted k h m : sorted comp m → sorted comp (drop k h m).
Proof. apply sorted_sublist, drop_keys. Qed.

Lemma sorted_head k l m p :
  sorted comp ((k, l) :: m) → p ∈ m.*1 → comp k p = true.
Proof.
  unfold sorted. simpl. intros Hs Hp.
  apply StronglySorted_inv in Hs as [_ Ha].
  rewrite Forall_forall in Ha. auto.
Qed.

Lemma push_nil k h : push comp k h [] = [(k, [h])].
Proof. unfold push. simpl. by decide_simpl. Qed.

Lemma push_cons k h k' l m :
  push comp k h ((k', l) :: m) =
    if comp k k' then (k, [h]) :: (k', l) :: m
    else if comp k' k then (k', l) :: push comp k h m
    else (k', l ++ [h]) :: m.
Proof.
  unfold push. simpl. destruct (comp k k') eqn:H1.
  - simpl. by decide_simpl.
  - destruct (comp k' k) eqn:H2.
    + assert (k' ≠ k) by (intros ->; by rewrite comp_irrefl in H2).
      simpl. by decide_simpl.
    + assert (k' = k) as -> by by apply comp_total.
      simpl. by decide_simpl.
Qed.

Lemma push_keys k h m p : p ∈ (push comp k h m).*1 ↔ p = k ∨ p ∈ m.*1.
Proof.
  induction m as [|[k' l] m IH].
  - rewrite push_nil. simpl. rewrite list_elem_of_singleton.
    split; [auto|]. intros [?|?%elem_of_nil]; done.
  - rewrite push_cons. destruct (comp k k') eqn:H1; simpl.
    + by rewrite (elem_of_cons _ p k).
    + destruct (comp k' k) eqn:H2; simpl.
      * rewrite !elem_of_cons, IH. tauto.
      * assert (k' = k) as -> by by apply comp_total.
        rewrite !elem_of_cons. tauto.
Qed.

Lemma push_sorted k h m : sorted comp m → sorted comp (push comp k h m).
Proof.
  unfold sorted.
  induction m as [|[k' l] m IH]; intros Hs.
  - rewrite push_nil. simpl. repeat constructor.
  - rewrite push_cons. simpl in Hs.
    pose proof Hs as [Hm Ha]%StronglySorted_inv.
    destruct (comp k k') eqn:H1; simpl.
    + constructor; [done|]. constructor; [done|].
      rewrite Forall_forall in Ha |- *. intros x Hx. eauto.
    + destruct (comp k' k) eqn:H2; simpl; [|done].
      constructor; [auto|].
      rewrite Forall_forall in Ha |- *. intros x Hx.
      apply push_keys in Hx as [->|Hx]; auto.
Qed.

Lemma push_no_empty k h m :
  no_empty_level m → no_empty_level (push comp k h m).
Proof.
  unfold no_empty_level.
  induction m as [|[k' l] m IH]; intros Hm.
  - rewrite push_nil. by repeat constructor.
  - rewrite push_cons. pose proof Hm as [Hl Hm']%Forall_cons.
    destruct (comp k k'); [by repeat constructor|].
    destruct (comp k' k); constructor; auto.
    simpl. by destruct l.
Qed.

Lemma push_perm k h m : handles (push comp k h m) ≡ₚ h :: handles m.
Proof.
  unfold handles. induction m as [|[k' l] m IH].
  - by rewrite push_nil.
  - rewrite push_cons. destruct (comp k k'); [done|].
    destruct (comp k' k); simpl.
    + rewrite IH. by rewrite Permutation_middle.
    + rewrite <- (assoc_L (++)). simpl. by rewrite Permutation_middle.
Qed.

Lemma push_at_level k h m p x :
  at_level (push comp k h m) p x ↔ (p = k ∧ x = h) ∨ at_level m p x.
Proof.
  induction m as [|[k' l] m IH].
  - rewrite push_nil, at_level_cons, list_elem_of_singleton.
    split; [intros [?|?%at_level_nil]; [auto|done]|].
    intros [?|?%at_level_nil]; [auto|done].
  - rewrite push_cons. destruct (comp k k') eqn:H1.
    + rewrite (at_level_cons k), list_elem_of_singleton. tauto.
    + destruct (comp k' k) eqn:H2.
      * rewrite !at_level_cons, IH. tauto.
      * assert (k' = k) as -> by by apply comp_total.
        rewrite !at_level_cons, elem_of_app, list_elem_of_singleton. tauto.
Qed.

(** A price better than every price of the map opens a new first level. *)
Lemma push_best k h m :
  (∀ p, p ∈ m.*1 → comp k p = true) → push comp k h m = (k, [h]) :: m.
Proof.
  destruct m as [|[k' l] m]; intros Hk; [apply push_nil|].
  rewrite push_cons. rewrite Hk; [done|]. left.
Qed.

(** The pushed order is the last of its level. *)
Lemma push_last k h m :
  sorted comp m →
  ∃ l, PriceMap.find k (push comp k h m) = Some (l ++ [h]).
Proof.
  induction m as [|[k' l] m IH]; intros Hs.
  - rewrite push_nil. exists []. simpl. by decide_simpl.
  - rewrite push_cons. destruct (comp k k') eqn:H1.
    + exists []. simpl. by decide_simpl.
    + destruct (comp k' k) eqn:H2.
      * assert (k' ≠ k) by (intros ->; by rewrite comp_irrefl in H2).
        simpl. rewrite decide_False by done. apply IH.
        unfold sorted in *. simpl in Hs.
        by apply StronglySorted_inv in Hs as [? _].
      * assert (k' = k) as -> by by apply comp_total.
        exists l. simpl. by decide_simpl.
Qed.

End Comparator.

(** ** The comparators of the two sides *)

Lemma side_comp_irrefl s a : side_comp s a a = false.
Proof. destruct s; unfold side_comp, PriceMap.greater, PriceMap.less; lia. Qed.

Lemma side_comp_trans s a b c :
  side_comp s a b = true → side_comp s b c = true → side_comp s a c = true.
Proof. destruct s; unfold side_comp, PriceMap.greater, PriceMap.less; lia. Qed.

Lemma side_comp_total s a b :
  side_comp s a b = false → side_comp s b a = false → a = b.
Proof. destruct s; unfold side_comp, PriceMap.greater, PriceMap.less; lia. Qed.

Create HintDb book.
#[local] Hint Resolve side_comp_irrefl side_comp_trans side_comp_total : book.

Lemma side_sorted_NoDup s m : sorted (side_comp s) m → NoDup m.*1.
Proof. apply sorted_NoDup, side_comp_irrefl. Qed.

Section Sides.

Variable s : Side.

Lemma side_push_sorted k h m :
  sorted (side_comp s) m → sorted (side_comp s) (push (side_comp s) k h m).
Proof. apply push_sorted; eauto with book. Qed.

Lemma side_push_no_empty k h m :
  no_empty_level m → no_empty_level (push (side_comp s) k h m).
Proof. apply push_no_empty; eauto with book. Qed.

Lemma side_push_perm k h m :
  handles (push (side_comp s) k h m) ≡ₚ h :: handles m.
Proof. apply push_perm; eauto with book. Qed.

Lemma side_push_keys k h m p :
  p ∈ (push (side_comp s) k h m).*1 ↔ p = k ∨ p ∈ m.*1.
Proof. apply push_keys; eauto with book. Qed.

Lemma side_push_at_level k h m p x :
  at_level (push (side_comp s) k h m) p x ↔ (p = k ∧ x = h) ∨ at_level m p x.
Proof. apply push_at_level; eauto with book. Qed.

Lemma side_push_best k h m :
  (∀ p, p ∈ m.*1 → side_comp s k p = true) →
  push (side_comp s) k h m = (k, [h]) :: m.
Proof. apply push_best; eauto with book. Qed.

Lemma side_push_last k h m :
  sorted (side_comp s) m →
  ∃ l, PriceMap.find k (push (side_comp s) k h m) = Some (l ++ [h]).
Proof. apply push_last; eauto with book. Qed.

End Sides.

(** ** Reading the fields of an updated book *)

Lemma side_map_set_side s s' m b :
  side_map s (set_side s' m b) = if decide (s = s') then m else side_map s b.
Proof. by destruct s, s'. Qed.

Lemma live_set_side s m b :
  live (set_side s m b) ≡ₚ handles m ++ handles (side_map (opposite s) b).
Proof. destruct s; unfold live; simpl; [done|]. apply Permutation_app_comm. Qed.

Lemma live_sides s b :
  live b ≡ₚ handles (side_map s b) ++ handles (side_map (opposite s) b).
Proof. destruct s; unfold live; simpl; [done|]. apply Permutation_app_comm. Qed.

Lemma elem_live b h : h ∈ live b ↔ ∃ s p, at_level (side_map s b) p h.
Proof.
  unfold live. rewrite elem_of_app, !elem_handles. split.
  - intros [[p Hp]|[p Hp]]; [by exists Buy, p | by exists Sell, p].
  - intros ([] & p & Hp); eauto.
Qed.

Lemma slot_lt b h o : slot b h = Some o → h < length (pool_ (orderPool_ b)).
Proof. apply lookup_lt_Some. Qed.

Lemma deref_slot b h o : slot b h = Some o → deref h b = Ok o.
Proof. unfold deref, ObjectPool.read, slot. by intros ->. Qed.

Lemma slot_store_eq b h o o0 :
  slot b h = Some o0 → slot (store h o b) h = Some o.
Proof.
  intros H%slot_lt. unfold slot, store. simpl. by apply list_lookup_insert_eq.
Qed.

Lemma slot_store_ne b h h' o : h ≠ h' → slot (store h o b) h' = slot b h'.
Proof. intros H. unfold slot, store. simpl. by apply list_lookup_insert_ne. Qed.

(** ** The invariant in use *)

Section WellFormed.

Context (b : OrderBook) (Hwf : WF b).

(** A linked order sits on the side and at the price its slot names. *)
Lemma wf_live_slot h :
  h ∈ live b →
  ∃ o, slot b h = Some o ∧ at_level (side_map (side_ o) b) (price_ o) h
       ∧ orders_ b !! orderId_ o = Some h.
Proof.
  intros (s & p & Hat)%elem_live.
  destruct (wf_linked b Hwf s p h Hat) as (o & Ho & <- & <- & Hid).
  eauto.
Qed.

Lemma wf_index_slot id h :
  orders_ b !! id = Some h →
  ∃ o, slot b h = Some o ∧ orderId_ o = id
       ∧ at_level (side_map (side_ o) b) (price_ o) h.
Proof.
  intros Hid. destruct (wf_index b Hwf id h Hid) as (Hlive & o & Ho & Hoid).
  destruct (wf_live_slot h Hlive) as (o' & Ho' & Hat & _).
  assert (o' = o) as -> by congruence. eauto.
Qed.

(** One order is linked at one place only. *)
Lemma wf_at_level_unique s p s' p' h :
  at_level (side_map s b) p h → at_level (side_map s' b) p' h →
  s = s' ∧ p = p'.
Proof.
  intros H1 H2.
  destruct (wf_linked b Hwf _ _ _ H1) as (o & Ho & <- & <- & _).
  destruct (wf_linked b Hwf _ _ _ H2) as (o' & Ho' & <- & <- & _).
  assert (o' = o) as -> by congruence. done.
Qed.

Lemma wf_find s p h :
  at_level (side_map s b) p h →
  ∃ l, PriceMap.find p (side_map s b) = Some l ∧ h ∈ l.
Proof.
  intros (l & Hl & Hh). exists l. split; [|done].
  apply elem_find; [|done]. eapply side_sorted_NoDup, wf_sorted, Hwf.
Qed.

Lemma wf_sides_disjoint h :
  h ∈ handles (bids_ b) → h ∈ handles (asks_ b) → False.
Proof.
  intros H1 H2. pose proof (wf_live_NoDup b Hwf) as Hnd.
  unfold live in Hnd. apply NoDup_app in Hnd as (_ & Hd & _). by eapply Hd.
Qed.

End WellFormed.

(** ** The elementary transitions keep the invariant *)

Lemma side_map_store s h o b : side_map s (store h o b) = side_map s b.
Proof. by destruct s. Qed.

Lemma side_map_retire s h o b :
  side_map s (retire h o b) =
    if decide (s = side_ o) then drop (price_ o) h (side_map s b)
    else side_map s b.
Proof. unfold retire. by destruct s, (side_ o). Qed.

Lemma side_map_enter s h o b :
  side_map s (enter h o b) =
    if decide (s = side_ o) then push (side_comp s) (price_ o) h (side_map s b)
    else side_map s b.
Proof. unfold enter. by destruct s, (side_ o). Qed.

Lemma live_store h o b : live (store h o b) = live b.
Proof. done. Qed.

Lemma live_enter h o b : live (enter h o b) ≡ₚ h :: live b.
Proof.
  rewrite (live_sides (side_ o) (enter h o b)), (live_sides (side_ o) b).
  rewrite !side_map_enter. decide_simpl.
  rewrite decide_False by by destruct (side_ o).
  by rewrite side_push_perm.
Qed.

Lemma live_retire h o b :
  WF b → slot b h = Some o → h ∈ live b → live b ≡ₚ h :: live (retire h o b).
Proof.
  intros Hwf Ho Hh.
  destruct (wf_live_slot b Hwf h Hh) as (o' & Ho' & Hat & _).
  assert (o' = o) as -> by congruence.
  rewrite (live_sides (side_ o) (retire h o b)), (live_sides (side_ o) b).
  rewrite !side_map_retire. decide_simpl.
  rewrite decide_False by by destruct (side_ o).
  rewrite (drop_perm (price_ o) h (side_map (side_ o) b)); [done| |done].
  eapply side_sorted_NoDup, wf_sorted, Hwf.
Qed.

Lemma WF_store h o o' b :
  WF b → slot b h = Some o → same_order o o' → WF (store h o' b).
Proof.
  intros Hwf Ho (Hty & Hid & Hside & Hprice & Hinit).
  split.
  - intros s. rewrite side_map_store. apply Hwf.
  - intros s. rewrite side_map_store. apply Hwf.
  - apply Hwf.
  - intros s p x. rewrite side_map_store. intros Hat.
    destruct (wf_linked b Hwf s p x Hat) as (ox & Hox & Hs & Hp & Hi).
    destruct (decide (h = x)) as [->|Hne].
    + exists o'. rewrite (slot_store_eq _ _ _ _ Ho).
      assert (ox = o) as -> by congruence.
      simpl. rewrite Hside, Hprice, Hid. done.
    + exists ox. by rewrite slot_store_ne.
  - intros id x Hx. destruct (wf_index b Hwf id x Hx) as (Hl & ox & Hox & Hi).
    split; [done|]. destruct (decide (h = x)) as [->|Hne].
    + exists o'. rewrite (slot_store_eq _ _ _ _ Ho).
      assert (ox = o) as -> by congruence. split; [done|congruence].
    + exists ox. by rewrite slot_store_ne.
  - apply Hwf.
  - intros x Hx. simpl. rewrite length_insert. by apply Hwf.
Qed.

Lemma WF_retire h o b :
  WF b → slot b h = Some o → h ∈ live b → WF (retire h o b).
Proof.
  intros Hwf Ho Hh.
  pose proof (live_retire h o b Hwf Ho Hh) as Hperm.
  pose proof (wf_live_NoDup b Hwf) as Hnd. rewrite Hperm in Hnd.
  apply NoDup_cons in Hnd as [Hh' Hnd].
  destruct (wf_live_slot b Hwf h Hh) as (o' & Ho' & Hat & Hidx).
  assert (o' = o) as -> by congruence.
  assert (Hsub : ∀ x, x ∈ live (retire h o b) → x ∈ live b ∧ x ≠ h).
  { intros x Hx. split; [rewrite Hperm; by right|]. by intros ->. }
  split.
  - intros s. rewrite side_map_retire. case_decide; [|apply Hwf].
    apply drop_sorted; auto with book. apply Hwf.
  - intros s. rewrite side_map_retire. case_decide; [|apply Hwf].
    apply drop_no_empty, Hwf.
  - done.
  - intros s p x Hx.
    assert (x ∈ live (retire h o b)) as [_ Hne]%Hsub
      by (apply elem_live; eauto).
    assert (Hx' : at_level (side_map s b) p x).
    { rewrite side_map_retire in Hx. case_decide; [|done].
      by eapply drop_at_level. }
    destruct (wf_linked b Hwf s p x Hx') as (ox & Hox & Hs & Hp & Hi).
    exists ox. repeat split; try done. simpl.
    rewrite lookup_delete_ne; [done|]. intros Heq. rewrite Heq in Hidx.
    congruence.
  - intros id x. simpl. intros Hx.
    apply lookup_delete_Some in Hx as [Hne Hx].
    destruct (wf_index b Hwf id x Hx) as (Hl & ox & Hox & Hi).
    assert (x ≠ h) by (intros ->; congruence).
    split; [|by exists ox].
    rewrite Hperm in Hl. by apply elem_of_cons in Hl as [?|?].
  - simpl. constructor; [|apply Hwf].
    intros Hin. by apply (wf_free b Hwf) in Hin as [_ ?].
  - intros x. simpl. intros [->|Hx]%elem_of_cons.
    + split; [by eapply slot_lt|done].
    + apply (wf_free b Hwf) in Hx as [? Hx]. split; [done|].
      intros [? _]%Hsub. done.
Qed.

Lemma WF_enter h o b :
  WF b → head (free_indices_ (orderPool_ b)) = Some h →
  orders_ b !! orderId_ o = None → WF (enter h o b).
Proof.
  intros Hwf Hfree Hnew.
  destruct (free_indices_ (orderPool_ b)) as [|h' rest] eqn:Hf; [done|].
  injection Hfree as ->.
  assert (Hh : h < length (pool_ (orderPool_ b)) ∧ h ∉ live b).
  { apply (wf_free b Hwf). rewrite Hf. left. }
  destruct Hh as [Hlt Hh].
  pose proof (wf_free_NoDup b Hwf) as Hnd. rewrite Hf in Hnd.
  apply NoDup_cons in Hnd as [Hhrest Hnd].
  assert (Hslot : slot (enter h o b) h = Some o).
  { unfold slot, enter. simpl. by apply list_lookup_insert_eq. }
  assert (Hslot' : ∀ x, x ≠ h → slot (enter h o b) x = slot b x).
  { intros x Hx. unfold slot, enter. simpl. by apply list_lookup_insert_ne. }
  split.
  - intros s. rewrite side_map_enter. case_decide; [|apply Hwf].
    subst s. apply side_push_sorted, Hwf.
  - intros s. rewrite side_map_enter. case_decide; [|apply Hwf].
    subst s. apply side_push_no_empty, Hwf.
  - rewrite live_enter. constructor; [done|apply Hwf].
  - intros s p x Hx.
    assert (Hcases : (s = side_ o ∧ p = price_ o ∧ x = h)
                     ∨ at_level (side_map s b) p x).
    { rewrite side_map_enter in Hx. case_decide; [|by right].
      apply side_push_at_level in Hx as [[-> ->]|Hx]; auto. }
    destruct Hcases as [(-> & -> & ->)|Hx'].
    + exists o. repeat split; try done. simpl. apply lookup_insert_eq.
    + destruct (wf_linked b Hwf s p x Hx') as (ox & Hox & Hs & Hp & Hi).
      assert (x ≠ h).
      { intros ->. apply Hh, elem_live. eauto. }
      exists ox. rewrite Hslot' by done. repeat split; try done. simpl.
      rewrite lookup_insert_ne; [done|]. intros Heq. congruence.
  - intros id x. simpl. intros Hx.
    apply lookup_insert_Some in Hx as [[<- <-]|[Hne Hx]].
    + split; [|eauto]. rewrite live_enter. left.
    + destruct (wf_index b Hwf id x Hx) as (Hl & ox & Hox & Hi).
      assert (x ≠ h) by (intros ->; done).
      split; [rewrite live_enter; by right|].
      exists ox. by rewrite Hslot'.
  - simpl. by rewrite Hf.
  - intros x. simpl. rewrite Hf. simpl. intros Hx.
    rewrite length_insert, live_enter.
    assert (x ∈ free_indices_ (orderPool_ b)) as [? ?]%(wf_free b Hwf)
      by (rewrite Hf; by right).
    split; [done|]. intros [->|?]%elem_of_cons; done.
Qed.

(** ** The operations in terms of the elementary transitions *)

Lemma Fill_at_store h q o b :
  slot b h = Some o → (q ≤ remainingQuantity_ o)%N →
  Fill_at h q b = Ok (store h (with_remaining (remainingQuantity_ o - q)%N o) b).
Proof.
  intros Ho Hq. unfold Fill_at. rewrite (deref_slot _ _ _ Ho). simpl.
  unfold Order.Fill. destruct (N.ltb_spec (remainingQuantity_ o) q); [lia|done].
Qed.

Lemma Fill_at_overflow h q o b :
  slot b h = Some o → (remainingQuantity_ o < q)%N →
  Fill_at h q b = Err FillOverflow.
Proof.
  intros Ho Hq. unfold Fill_at. rewrite (deref_slot _ _ _ Ho). simpl.
  unfold Order.Fill. destruct (N.ltb_spec (remainingQuantity_ o) q); [done|lia].
Qed.

Lemma release_at_Ok h b :
  h < length (pool_ (orderPool_ b)) →
  release_at h b =
    Ok (set_pool (mkPool (pool_ (orderPool_ b))
                         (h :: free_indices_ (orderPool_ b))) b).
Proof.
  intros Hlt. unfold release_at, ObjectPool.release.
  rewrite decide_False by lia. done.
Qed.

Lemma CancelOrder_absent id b : orders_ b !! id = None → CancelOrder id b = Ok b.
Proof. unfold CancelOrder. by intros ->. Qed.

Lemma CancelOrder_retire id h b :
  WF b → orders_ b !! id = Some h →
  ∃ o, slot b h = Some o ∧ orderId_ o = id ∧ h ∈ live b
       ∧ CancelOrder id b = Ok (retire h o b).
Proof.
  intros Hwf Hid.
  destruct (wf_index_slot b Hwf id h Hid) as (o & Ho & Hoid & Hat).
  destruct (wf_find b Hwf _ _ _ Hat) as (l & Hfind & Hl).
  destruct (unlink_elem _ _ Hl) as [l' Hl'].
  exists o. repeat split; [done|done|apply elem_live; eauto|].
  unfold CancelOrder. rewrite Hid.
  assert (Hd : deref h (set_orders (delete id (orders_ b)) b) = Ok o)
    by by apply deref_slot.
  rewrite Hd. simpl. unfold retire, drop. subst id.
  destruct (side_ o); simpl in Hfind |- *.
  - unfold PriceMap.at_. rewrite Hfind. simpl.
    unfold OrderList.remove. rewrite Hl'. simpl.
    rewrite release_at_Ok by (destruct (OrderList.empty l'); by eapply slot_lt).
    by destruct (OrderList.empty l').
  - unfold PriceMap.at_. rewrite Hfind. simpl.
    unfold OrderList.remove. rewrite Hl'. simpl.
    rewrite release_at_Ok by (destruct (OrderList.empty l'); by eapply slot_lt).
    by destruct (OrderList.empty l').
Qed.

Lemma CancelOrder_WF id b b' : WF b → CancelOrder id b = Ok b' → WF b'.
Proof.
  intros Hwf. destruct (orders_ b !! id) as [h|] eqn:Hid.
  - destruct (CancelOrder_retire id h b Hwf Hid) as (o & Ho & _ & Hl & ->).
    intros [= <-]. by apply WF_retire.
  - rewrite CancelOrder_absent by done. by intros [= <-].
Qed.

Lemma CancelOrder_total id b : WF b → ∃ b', CancelOrder id b = Ok b'.
Proof.
  intros Hwf. destruct (orders_ b !! id) as [h|] eqn:Hid.
  - destruct (CancelOrder_retire id h b Hwf Hid) as (o & _ & _ & _ & ->). eauto.
  - rewrite CancelOrder_absent by done. eauto.
Qed.
Lemma match_front_settle pb pa bid ask bt bm at_ am ob oa b :
  bids_ b = (pb, bid :: bt) :: bm → asks_ b = (pa, ask :: at_) :: am →
  slot b bid = Some ob → slot b ask = Some oa → bid ≠ ask →
  side_ ob = Buy → price_ ob = pb → side_ oa = Sell → price_ oa = pa →
  let q := N.min (remainingQuantity_ ob) (remainingQuantity_ oa) in
  match_front pb pa bid ask b =
    Ok ((remainingQuantity_ ob - q =? 0)%N && OrderList.empty bt
        || (remainingQuantity_ oa - q =? 0)%N && OrderList.empty at_,
        settle bid ask ob oa b).
Proof.
  intros Hb Ha Hob Hoa Hne Hsb Hpb Hsa Hpa q.
  pose proof (slot_lt _ _ _ Hob) as Hlb. pose proof (slot_lt _ _ _ Hoa) as Hla.
  assert (Hqb : (q ≤ remainingQuantity_ ob)%N) by apply N.le_min_l.
  assert (Hqa : (q ≤ remainingQuantity_ oa)%N) by apply N.le_min_r.
  unfold match_front.
  rewrite (deref_slot _ _ _ Hob), (deref_slot _ _ _ Hoa). simpl.
  fold q.
  rewrite (Fill_at_store _ _ _ _ Hob Hqb). simpl.
  erewrite Fill_at_store; [| by rewrite slot_store_ne | done]. simpl.
  unfold settle. fold q.
  set (ob' := with_remaining (remainingQuantity_ ob - q)%N ob).
  set (oa' := with_remaining (remainingQuantity_ oa - q)%N oa).
  destruct b as [bids asks orders trades [pool free]].
  unfold slot in Hob, Hoa. simpl in Hb, Ha, Hob, Hoa, Hlb, Hla. subst bids asks.
  assert (L1 : <[ask := oa']> (<[bid := ob']> pool) !! bid = Some ob').
  { rewrite list_lookup_insert_ne by done. by apply list_lookup_insert_eq. }
  assert (L2 : <[ask := oa']> (<[bid := ob']> pool) !! ask = Some oa').
  { apply list_lookup_insert_eq. by rewrite length_insert. }
  assert (L3 : ¬ length (<[ask := oa']> (<[bid := ob']> pool)) ≤ bid)
    by (rewrite !length_insert; lia).
  assert (L4 : ¬ length (<[ask := oa']> (<[bid := ob']> pool)) ≤ ask)
    by (rewrite !length_insert; lia).
  unfold deref, release_at, ObjectPool.read, ObjectPool.release, store,
    ObjectPool.write, retire, Order.IsFilled. simpl.
  rewrite L1. simpl.
  destruct (remainingQuantity_ ob - q =? 0)%N eqn:Hfb; simpl.
  - rewrite (decide_False _ _ L3). simpl. repeat (progress (rewrite ?L1, ?L2; simpl)).
    destruct (remainingQuantity_ oa - q =? 0)%N eqn:Hfa; simpl.
    + rewrite (decide_False _ _ L4). simpl. repeat (progress (rewrite ?L1, ?L2; simpl)).
      rewrite Hsb, Hsa, Hpb, Hpa. simpl.
      rewrite !drop_cons. decide_simpl. rewrite !unlink_front.
      destruct bt, at_; simpl; by decide_simpl.
    + repeat (progress (rewrite ?L1, ?L2; simpl)). rewrite Hsb, Hpb. simpl.
      rewrite !drop_cons. decide_simpl. rewrite !unlink_front.
      destruct bt; simpl; by decide_simpl.
  - repeat (progress (rewrite ?L1, ?L2; simpl)).
    destruct (remainingQuantity_ oa - q =? 0)%N eqn:Hfa; simpl.
    + rewrite (decide_False _ _ L4). simpl. repeat (progress (rewrite ?L1, ?L2; simpl)).
      rewrite Hsa, Hpa. simpl.
      rewrite !drop_cons. decide_simpl. rewrite !unlink_front.
      destruct at_; simpl; by decide_simpl.
    + repeat (progress (rewrite ?L1, ?L2; simpl)). done.
Qed.

Lemma WF_set_trades t b : WF b → WF (set_trades t b).
Proof. intros Hwf. split; apply Hwf. Qed.

Lemma handles_cons k l m : handles ((k, l) :: m) = l ++ handles m.
Proof. done. Qed.


(** The orders at the front of the two best levels of a book. *)
Lemma WF_fronts b pb lb bm pa la am :
  WF b → bids_ b = (pb, lb) :: bm → asks_ b = (pa, la) :: am →
  ∃ bid bt ask at_ ob oa,
    lb = bid :: bt ∧ la = ask :: at_
    ∧ slot b bid = Some ob ∧ slot b ask = Some oa ∧ bid ≠ ask
    ∧ side_ ob = Buy ∧ price_ ob = pb ∧ side_ oa = Sell ∧ price_ oa = pa.
Proof.
  intros Hwf Hb Ha.
  pose proof (wf_no_empty b Hwf Buy) as Hnb.
  pose proof (wf_no_empty b Hwf Sell) as Hna.
  simpl in Hnb, Hna. rewrite Hb in Hnb. rewrite Ha in Hna.
  apply Forall_cons in Hnb as [Hnb _]. apply Forall_cons in Hna as [Hna _].
  destruct lb as [|bid bt]; [done|]. destruct la as [|ask at_]; [done|].
  assert (Hatb : at_level (side_map Buy b) pb bid).
  { simpl. rewrite Hb. apply at_level_cons. left. split; [done|left]. }
  assert (Hata : at_level (side_map Sell b) pa ask).
  { simpl. rewrite Ha. apply at_level_cons. left. split; [done|left]. }
  destruct (wf_linked b Hwf _ _ _ Hatb) as (ob & Hob & Hsb & Hpb & _).
  destruct (wf_linked b Hwf _ _ _ Hata) as (oa & Hoa & Hsa & Hpa & _).
  exists bid, bt, ask, at_, ob, oa. repeat split; try done.
  intros ->. destruct (wf_at_level_unique b Hwf _ _ _ _ _ Hatb Hata). done.
Qed.

Section Settle.

Context (b : OrderBook) (pb pa : Price) (bid ask : OrderPointer)
  (bt at_ : OrderList) (bm am : PriceMap) (ob oa : Order).
Hypothesis Hwf : WF b.
Hypothesis Hb : bids_ b = (pb, bid :: bt) :: bm.
Hypothesis Ha : asks_ b = (pa, ask :: at_) :: am.
Hypothesis Hob : slot b bid = Some ob.
Hypothesis Hoa : slot b ask = Some oa.

Let q := N.min (remainingQuantity_ ob) (remainingQuantity_ oa).
Let ob' := with_remaining (remainingQuantity_ ob - q)%N ob.
Let oa' := with_remaining (remainingQuantity_ oa - q)%N oa.

Lemma settle_facts :
  bid ≠ ask ∧ side_ ob = Buy ∧ price_ ob = pb
  ∧ side_ oa = Sell ∧ price_ oa = pa.
Proof.
  destruct (WF_fronts b _ _ _ _ _ _ Hwf Hb Ha)
    as (bid' & bt' & ask' & at' & ob0 & oa0 & [= <- <-] & [= <- <-] & H).
  destruct H as (Hob0 & Hoa0 & H).
  assert (ob0 = ob) as -> by congruence.
  assert (oa0 = oa) as -> by congruence. done.
Qed.

Lemma settle_bids :
  bids_ (settle bid ask ob oa b) =
    if (remainingQuantity_ ob - q =? 0)%N
    then (if OrderList.empty bt then bm else (pb, bt) :: bm)
    else (pb, bid :: bt) :: bm.
Proof.
  destruct settle_facts as (Hne & Hsb & Hpb & Hsa & Hpa).
  unfold settle, retire, Order.IsFilled. simpl. fold q.
  destruct (remainingQuantity_ ob - q =? 0)%N,
    (remainingQuantity_ oa - q =? 0)%N; simpl;
    rewrite ?Hsb, ?Hsa, ?Hpb, ?Hpa; simpl; rewrite ?Hb; try done.
  all: rewrite drop_cons; decide_simpl; by rewrite unlink_front.
Qed.

Lemma settle_asks :
  asks_ (settle bid ask ob oa b) =
    if (remainingQuantity_ oa - q =? 0)%N
    then (if OrderList.empty at_ then am else (pa, at_) :: am)
    else (pa, ask :: at_) :: am.
Proof.
  destruct settle_facts as (Hne & Hsb & Hpb & Hsa & Hpa).
  unfold settle, retire, Order.IsFilled. simpl. fold q.
  destruct (remainingQuantity_ ob - q =? 0)%N,
    (remainingQuantity_ oa - q =? 0)%N; simpl;
    rewrite ?Hsb, ?Hsa, ?Hpb, ?Hpa; simpl; rewrite ?Ha; try done.
  all: rewrite drop_cons; decide_simpl; by rewrite unlink_front.
Qed.

Lemma settle_filled :
  (remainingQuantity_ ob - q =? 0)%N = true
  ∨ (remainingQuantity_ oa - q =? 0)%N = true.
Proof. rewrite !N.eqb_eq. unfold q. lia. Qed.

Lemma settle_resting : resting (settle bid ask ob oa b) < resting b.
Proof.
  unfold resting. rewrite settle_bids, settle_asks, Hb, Ha.
  destruct settle_filled as [-> | ->].
  - destruct (remainingQuantity_ oa - q =? 0)%N, bt, at_;
      cbn [OrderList.empty];
      rewrite ?handles_cons, ?length_app; cbn [length]; lia.
  - destruct (remainingQuantity_ ob - q =? 0)%N, bt, at_;
      cbn [OrderList.empty];
      rewrite ?handles_cons, ?length_app; cbn [length]; lia.
Qed.

Lemma settle_WF : WF (settle bid ask ob oa b).
Proof.
  destruct settle_facts as (Hne & Hsb & Hpb & Hsa & Hpa).
  assert (Hlb : bid ∈ live b).
  { apply elem_live. exists Buy, pb. simpl. rewrite Hb.
    apply at_level_cons. left. split; [done|left]. }
  assert (Hla : ask ∈ live b).
  { apply elem_live. exists Sell, pa. simpl. rewrite Ha.
    apply at_level_cons. left. split; [done|left]. }
  set (b1 := store bid ob' b). set (b2 := store ask oa' b1).
  assert (Hwf1 : WF b1) by (eapply WF_store; [done..|by repeat split]).
  assert (Hoa1 : slot b1 ask = Some oa) by by (unfold b1; rewrite slot_store_ne).
  assert (Hwf2 : WF b2) by (eapply WF_store; [done..|by repeat split]).
  assert (Hob2 : slot b2 bid = Some ob').
  { unfold b2. rewrite slot_store_ne by done. unfold b1.
    by eapply slot_store_eq. }
  assert (Hoa2 : slot b2 ask = Some oa') by (by eapply slot_store_eq).
  unfold settle. fold q ob' oa' b1 b2.
  apply WF_set_trades.
  destruct (Order.IsFilled ob') eqn:Hfb.
  - assert (Hwf3 : WF (retire bid ob' b2)) by by apply WF_retire.
    destruct (Order.IsFilled oa'); [|done].
    apply WF_retire; [done..|].
    pose proof (live_retire bid ob' b2 Hwf2 Hob2 Hlb) as Hperm.
    assert (Hin : ask ∈ live b2) by done.
    rewrite Hperm in Hin. apply elem_of_cons in Hin as [?|?]; [congruence|done].
  - destruct (Order.IsFilled oa'); [|done]. by apply WF_retire.
Qed.

End Settle.

(** ** The matching loops *)

Lemma match_level_S fuel pb pa b :
  match_level (S fuel) pb pa b =
    match OrderList.front (PriceMap.first (bids_ b)),
          OrderList.front (PriceMap.first (asks_ b)) with
    | Some bid, Some ask =>
        '(stop, b) ← match_front pb pa bid ask b;
        if stop : bool then Ok b else match_level fuel pb pa b
    | _, _ => Ok b
    end.
Proof. done. Qed.

Lemma match_loop_S fuel b :
  match_loop (S fuel) b =
    match bids_ b, asks_ b with
    | (bidPrice, _) :: _, (askPrice, _) :: _ =>
        if (bidPrice <? askPrice)%Z then Ok b
        else
          b ← match_level (S fuel) bidPrice askPrice b;
          match_loop fuel b
    | _, _ => Ok b
    end.
Proof. done. Qed.

(** A larger budget does not change what the loops return. *)
Lemma match_level_fuel fuel fuel' pb pa b b' :
  match_level fuel pb pa b = Ok b' → fuel ≤ fuel' →
  match_level fuel' pb pa b = Ok b'.
Proof.
  revert fuel' b. induction fuel as [|fuel IH]; intros fuel' b; [done|].
  intros Hrun Hle. destruct fuel' as [|fuel']; [lia|].
  rewrite match_level_S in Hrun |- *.
  destruct (OrderList.front (PriceMap.first (bids_ b))) as [bid|]; [|done].
  destruct (OrderList.front (PriceMap.first (asks_ b))) as [ask|]; [|done].
  destruct (match_front pb pa bid ask b) as [[stop b1]|e]; [|done].
  simpl in Hrun |- *. destruct stop; [done|]. apply IH; [done|lia].
Qed.

Lemma match_loop_fuel fuel fuel' b b' :
  match_loop fuel b = Ok b' → fuel ≤ fuel' → match_loop fuel' b = Ok b'.
Proof.
  revert fuel' b. induction fuel as [|fuel IH]; intros fuel' b; [done|].
  intros Hrun Hle. destruct fuel' as [|fuel']; [lia|].
  rewrite match_loop_S in Hrun |- *.
  destruct (bids_ b) as [|[pb lb] bm]; [done|].
  destruct (asks_ b) as [|[pa la] am]; [done|].
  destruct (pb <? pa)%Z; [done|].
  apply bind_Ok in Hrun as (b1 & Hlevel & Hrun).
  rewrite (match_level_fuel _ (S fuel') _ _ _ _ Hlevel) by lia. simpl.
  apply IH; [done|lia].
Qed.

Section MatchLoop.

(** A property that every pass of the inner loop keeps. *)
Variable P : OrderBook → Prop.
Hypothesis P_step : ∀ b b', WF b → P b → match_step b b' → P b'.

Lemma match_level_run fuel pb lb bm pa la am b :
  WF b → P b → bids_ b = (pb, lb) :: bm → asks_ b = (pa, la) :: am →
  (pa ≤ pb)%Z → resting b < fuel →
  ∃ b', match_level fuel pb pa b = Ok b' ∧ WF b' ∧ P b'
        ∧ resting b' < resting b.
Proof.
  revert lb la b. induction fuel as [|fuel IH]; intros lb la b; [lia|].
  intros Hwf HP Hb Ha Hcross Hfuel.
  destruct (WF_fronts b _ _ _ _ _ _ Hwf Hb Ha)
    as (bid & bt & ask & at_ & ob & oa & -> & -> & Hob & Hoa & Hne & Hf).
  destruct Hf as (Hsb & Hpb & Hsa & Hpa).
  rewrite match_level_S, Hb, Ha. simpl.
  rewrite (match_front_settle pb pa bid ask bt bm at_ am ob oa) by done.
  simpl.
  set (b1 := settle bid ask ob oa b).
  assert (Hwf1 : WF b1)
    by by apply (settle_WF b pb pa bid ask bt at_ bm am ob oa).
  assert (HP1 : P b1).
  { apply (P_step b b1 Hwf HP).
    by apply (match_step_intro b pb pa bid ask bt bm at_ am ob oa). }
  assert (Hr1 : resting b1 < resting b)
    by by apply (settle_resting b pb pa bid ask bt at_ bm am ob oa).
  pose proof (settle_bids b pb pa bid ask bt at_ bm am ob oa Hwf Hb Ha Hob Hoa)
    as Hb1.
  pose proof (settle_asks b pb pa bid ask bt at_ bm am ob oa Hwf Hb Ha Hob Hoa)
    as Ha1.
  fold b1 in Hb1, Ha1. clearbody b1.
  destruct (_ || _) eqn:Hstop; [by exists b1|].
  apply orb_false_iff in Hstop as [Hsb' Hsa'].
  assert (Hb1' : ∃ lb', bids_ b1 = (pb, lb') :: bm).
  { rewrite Hb1. destruct (remainingQuantity_ ob - _ =? 0)%N.
    - simpl in Hsb'. rewrite Hsb'. by exists bt.
    - by exists (bid :: bt). }
  assert (Ha1' : ∃ la', asks_ b1 = (pa, la') :: am).
  { rewrite Ha1. destruct (remainingQuantity_ oa - _ =? 0)%N.
    - simpl in Hsa'. rewrite Hsa'. by exists at_.
    - by exists (ask :: at_). }
  destruct Hb1' as [lb' Hb1'], Ha1' as [la' Ha1'].
  assert (Hfuel1 : resting b1 < fuel) by lia.
  destruct (IH lb' la' b1 Hwf1 HP1 Hb1' Ha1' Hcross Hfuel1)
    as (b' & Hrun & Hwf' & HP' & Hr').
  exists b'. split_and!; [done..|lia].
Qed.

Lemma match_loop_run fuel b :
  WF b → P b → resting b < fuel →
  ∃ b', match_loop fuel b = Ok b' ∧ WF b' ∧ P b' ∧ quiet b'.
Proof.
  revert b. induction fuel as [|fuel IH]; intros b; [lia|].
  intros Hwf HP Hfuel. rewrite match_loop_S. unfold quiet.
  destruct (bids_ b) as [|[pb lb] bm] eqn:Hb.
  { exists b. by rewrite Hb. }
  destruct (asks_ b) as [|[pa la] am] eqn:Ha.
  { exists b. by rewrite Hb, Ha. }
  destruct (Z.ltb_spec pb pa) as [Hlt|Hge].
  { exists b. by rewrite Hb, Ha. }
  destruct (match_level_run (S fuel) pb lb bm pa la am b)
    as (b1 & Hlevel & Hwf1 & HP1 & Hr1); try done.
  rewrite Hlevel. simpl. apply IH; [done..|lia].
Qed.

End MatchLoop.

(** The loops of a well-formed book return within the budget that
    [MatchOrders] gives them. *)
Lemma match_loop_total b :
  WF b → ∃ b', match_loop (S (resting b)) b = Ok b' ∧ WF b' ∧ quiet b'.
Proof.
  intros Hwf.
  destruct (match_loop_run (λ _, True) (λ _ _ _ _ _, I) (S (resting b)) b)
    as (b' & ? & ? & _ & ?); eauto.
Qed.

(** ** The sweep, [MatchOrders] and [AddOrder] *)

Lemma sweep_swept s b : WF b → sweep (side_map s b) b = Ok (swept s b).
Proof.
  intros Hwf. unfold sweep, swept.
  destruct (side_map s b) as [|[p [|h l]] m] eqn:Hm; [done..|]. simpl.
  assert (Hat : at_level (side_map s b) p h).
  { rewrite Hm. apply at_level_cons. left. split; [done|left]. }
  destruct (wf_linked b Hwf s p h Hat) as (o & Ho & Hs & Hp & Hid).
  rewrite (deref_slot _ _ _ Ho), Ho. simpl.
  destruct (orderType_ o); [done|].
  destruct (CancelOrder_retire _ _ _ Hwf Hid) as (o' & Ho' & _ & _ & ->).
  congruence.
Qed.

Lemma swept_WF s b : WF b → WF (swept s b).
Proof.
  intros Hwf. unfold swept.
  destruct (side_map s b) as [|[p [|h l]] m] eqn:Hm; [done..|].
  destruct (slot b h) as [o|] eqn:Ho; [|done].
  destruct (orderType_ o); [done|]. apply WF_retire; [done..|].
  apply elem_live. exists s, p. rewrite Hm. apply at_level_cons. left.
  split; [done|left].
Qed.

Lemma MatchOrders_swept b b1 :
  WF b → match_loop (S (resting b)) (set_trades [] b) = Ok b1 → WF b1 →
  MatchOrders b =
    Ok (trades_ (swept Sell (swept Buy b1)), swept Sell (swept Buy b1)).
Proof.
  intros Hwf Hloop Hwf1. unfold MatchOrders.
  change (resting (set_trades [] b)) with (resting b).
  rewrite Hloop. cbn [mbind result_bind].
  pose proof (sweep_swept Buy b1 Hwf1) as H1. cbn [side_map] in H1.
  rewrite H1. cbn [mbind result_bind].
  pose proof (sweep_swept Sell _ (swept_WF Buy b1 Hwf1)) as H2.
  cbn [side_map] in H2. by rewrite H2.
Qed.

Section MatchOrdersRule.

Variable P : OrderBook → Prop.
Hypothesis P_step : ∀ b b', WF b → P b → match_step b b' → P b'.

Lemma MatchOrders_run b :
  WF b → P (set_trades [] b) →
  ∃ b1, WF b1 ∧ P b1 ∧ quiet b1
    ∧ MatchOrders b =
        Ok (trades_ (swept Sell (swept Buy b1)), swept Sell (swept Buy b1)).
Proof.
  intros Hwf HP.
  destruct (match_loop_run P P_step (S (resting b)) (set_trades [] b))
    as (b1 & Hloop & Hwf1 & HP1 & Hq); [by apply WF_set_trades|done|..].
  { change (resting (set_trades [] b)) with (resting b). lia. }
  exists b1. split_and!; [done..|]. by apply MatchOrders_swept.
Qed.

End MatchOrdersRule.

Lemma acquire_Ok o b h :
  WF b → head (free_indices_ (orderPool_ b)) = Some h →
  ObjectPool.acquire o (orderPool_ b) =
    Ok (h, mkPool (<[h := o]> (pool_ (orderPool_ b)))
                  (tail (free_indices_ (orderPool_ b)))).
Proof.
  intros Hwf Hh. unfold ObjectPool.acquire.
  destruct (free_indices_ (orderPool_ b)) as [|h' rest] eqn:Hf; [done|].
  injection Hh as ->. rewrite decide_True; [done|].
  apply (wf_free b Hwf). rewrite Hf. left.
Qed.

(** The four ways through [AddOrder]. *)
Lemma AddOrder_duplicate ty id s p q b :
  is_Some (orders_ b !! id) →
  AddOrder ty id s p q b = Ok ([], set_trades [] b).
Proof. intros [h Hh]. unfold AddOrder. by rewrite Hh. Qed.

Lemma AddOrder_dropped id s p q b :
  orders_ b !! id = None → CanMatch s p b = false →
  AddOrder FillAndKill id s p q b = Ok ([], b).
Proof. intros Hid Hm. unfold AddOrder. by rewrite Hid, Hm. Qed.

Lemma AddOrder_exhausted ty id s p q b :
  orders_ b !! id = None → (ty = FillAndKill → CanMatch s p b = true) →
  free_indices_ (orderPool_ b) = [] →
  AddOrder ty id s p q b = Err PoolExhausted.
Proof.
  intros Hid Hm Hf. unfold AddOrder. rewrite Hid.
  destruct ty; simpl.
  - unfold ObjectPool.acquire. by rewrite Hf.
  - rewrite Hm by done. simpl. unfold ObjectPool.acquire. by rewrite Hf.
Qed.

Lemma AddOrder_enter ty id s p q b h :
  WF b → orders_ b !! id = None → (ty = FillAndKill → CanMatch s p b = true) →
  head (free_indices_ (orderPool_ b)) = Some h →
  AddOrder ty id s p q b = MatchOrders (enter h (Order.new ty id s p q) b).
Proof.
  intros Hwf Hid Hm Hh. unfold AddOrder. rewrite Hid.
  assert (bool_decide (ty = FillAndKill) && negb (CanMatch s p b) = false)
    as ->.
  { destruct ty; [done|]. by rewrite Hm. }
  rewrite (acquire_Ok _ _ _ Hwf Hh). simpl.
  assert (Hlt : h < length (pool_ (orderPool_ b))).
  { apply (wf_free b Hwf). by apply head_Some_elem_of. }
  unfold deref, ObjectPool.read. simpl.
  rewrite list_lookup_insert_eq by done. simpl.
  unfold enter, push. by destruct s.
Qed.

(** ** What one pass of the inner loop changes *)

Lemma live_retire_sub h o b x : x ∈ live (retire h o b) → x ∈ live b.
Proof.
  rewrite !elem_live. intros (s & p & Hat). exists s, p.
  rewrite side_map_retire in Hat. case_decide; [|done].
  by eapply drop_at_level.
Qed.

Lemma slot_retire h o b x : slot (retire h o b) x = slot b x.
Proof. done. Qed.

Lemma keys_retire_sub s h o b p :
  p ∈ (side_map s (retire h o b)).*1 → p ∈ (side_map s b).*1.
Proof.
  rewrite side_map_retire. case_decide; [|done].
  intros Hp. eapply elem_of_sublist; [done|]. apply drop_keys.
Qed.

Section SettleFacts.

Context (b : OrderBook) (pb pa : Price) (bid ask : OrderPointer)
  (bt at_ : OrderList) (bm am : PriceMap) (ob oa : Order).
Hypothesis Hwf : WF b.
Hypothesis Hb : bids_ b = (pb, bid :: bt) :: bm.
Hypothesis Ha : asks_ b = (pa, ask :: at_) :: am.
Hypothesis Hob : slot b bid = Some ob.
Hypothesis Hoa : slot b ask = Some oa.

Let q := N.min (remainingQuantity_ ob) (remainingQuantity_ oa).
Let ob' := with_remaining (remainingQuantity_ ob - q)%N ob.
Let oa' := with_remaining (remainingQuantity_ oa - q)%N oa.
Let b' := settle bid ask ob oa b.

Lemma settle_slot x :
  slot b' x =
    if decide (x = ask) then Some oa'
    else if decide (x = bid) then Some ob' else slot b x.
Proof.
  pose proof (slot_lt _ _ _ Hob) as Hlb.
  pose proof (slot_lt _ _ _ Hoa) as Hla.
  assert (slot b' x = <[ask := oa']> (<[bid := ob']> (pool_ (orderPool_ b))) !! x)
    as ->.
  { unfold b', settle, slot. fold q ob' oa'.
    by destruct (Order.IsFilled ob'), (Order.IsFilled oa'). }
  case_decide as H1.
  - subst x. apply list_lookup_insert_eq. by rewrite length_insert.
  - rewrite list_lookup_insert_ne by done. case_decide as H2.
    + subst x. by apply list_lookup_insert_eq.
    + by rewrite list_lookup_insert_ne.
Qed.

Lemma settle_trades :
  trades_ b' = trades_ b ++
    [mkTrade (mkTradeInfo (orderId_ ob) pb q) (mkTradeInfo (orderId_ oa) pa q)].
Proof.
  destruct (settle_facts b pb pa bid ask bt at_ bm am ob oa)
    as (_ & _ & <- & _ & <-); try done.
  unfold b', settle. fold q ob' oa'.
  by destruct (Order.IsFilled ob'), (Order.IsFilled oa').
Qed.

Lemma settle_orders :
  orders_ b' ⊆ orders_ b.
Proof.
  unfold b', settle. fold q ob' oa'.
  destruct (Order.IsFilled ob'), (Order.IsFilled oa'); simpl;
    try done; try apply delete_subseteq.
  etrans; apply delete_subseteq.
Qed.

Lemma settle_handles_bids :
  handles (bids_ b') =
    if (remainingQuantity_ ob - q =? 0)%N then bt ++ handles bm
    else bid :: bt ++ handles bm.
Proof.
  unfold b'.
  rewrite (settle_bids b pb pa bid ask bt at_ bm am ob oa) by done. fold q.
  destruct (remainingQuantity_ ob - q =? 0)%N; [|done]. by destruct bt.
Qed.

Lemma settle_handles_asks :
  handles (asks_ b') =
    if (remainingQuantity_ oa - q =? 0)%N then at_ ++ handles am
    else ask :: at_ ++ handles am.
Proof.
  unfold b'.
  rewrite (settle_asks b pb pa bid ask bt at_ bm am ob oa) by done. fold q.
  destruct (remainingQuantity_ oa - q =? 0)%N; [|done]. by destruct at_.
Qed.

(** The orders left are those that were there, less the filled ones. *)
Lemma settle_live x :
  x ∈ live b' ↔
    x ∈ live b
    ∧ (x = bid → (remainingQuantity_ ob - q =? 0)%N = false)
    ∧ (x = ask → (remainingQuantity_ oa - q =? 0)%N = false).
Proof.
  pose proof (wf_live_NoDup b Hwf) as Hnd.
  unfold live in *. rewrite settle_handles_bids, settle_handles_asks.
  rewrite Hb, Ha, !handles_cons in *. cbn [app] in *.
  generalize dependent (bt ++ handles bm).
  generalize dependent (at_ ++ handles am). intros B A Hnd.
  apply NoDup_cons in Hnd as [HbAB Hnd].
  apply NoDup_app in Hnd as (_ & Hd & Hr).
  apply NoDup_cons in Hr as [HaB _].
  apply not_elem_of_app in HbAB as [HbA HbB].
  apply not_elem_of_cons in HbB as [Hne HbB].
  assert (HaA : ask ∉ A).
  { intros Hin. apply (Hd ask); [done|left]. }
  destruct (remainingQuantity_ ob - q =? 0)%N,
    (remainingQuantity_ oa - q =? 0)%N;
    repeat first [rewrite elem_of_app | rewrite elem_of_cons];
    (split; [intros Hx | intros (Hx & Hxb & Hxa)]).
  all: try (split_and!; [tauto|intros ->..]; first [done | exfalso; tauto]).
  all: destruct (decide (x = bid)) as [->|?];
    [first [by specialize (Hxb eq_refl) | tauto]|].
  all: destruct (decide (x = ask)) as [->|?];
    [first [by specialize (Hxa eq_refl) | tauto]|].
  all: tauto.
Qed.

Lemma settle_live_sub x : x ∈ live b' → x ∈ live b.
Proof. by intros [? _]%settle_live. Qed.

(** A linked order keeps its slot, but for the remaining quantity of
    the two that traded, which did not grow and is not 0. *)
Lemma settle_live_slot x o' :
  x ∈ live b' → slot b' x = Some o' →
  ∃ o, slot b x = Some o ∧ same_order o o'
       ∧ (remainingQuantity_ o' ≤ remainingQuantity_ o)%N
       ∧ (o' = o ∨ remainingQuantity_ o' ≠ 0%N).
Proof.
  intros (Hx & Hxb & Hxa)%settle_live. rewrite settle_slot.
  case_decide as H1; [|case_decide as H2].
  - subst x. intros [= <-]. exists oa.
    split_and!; [done|done|unfold oa'; simpl; lia|].
    right. unfold oa'. simpl. by apply N.eqb_neq, Hxa.
  - subst x. intros [= <-]. exists ob.
    split_and!; [done|done|unfold ob'; simpl; lia|].
    right. unfold ob'. simpl. by apply N.eqb_neq, Hxb.
  - intros Ho. exists o'. split_and!; [done|done|lia|by left].
Qed.

End SettleFacts.

(** ** The properties kept between two operations *)

Lemma quiet_uncrossed b : WF b → quiet b → uncrossed b.
Proof.
  intros Hwf Hq pb pa Hpb Hpa. unfold quiet in Hq.
  pose proof (wf_sorted b Hwf Buy) as Hsb.
  pose proof (wf_sorted b Hwf Sell) as Hsa. simpl in Hsb, Hsa.
  destruct (bids_ b) as [|[pb0 lb] bm]; [by apply elem_of_nil in Hpb|].
  destruct (asks_ b) as [|[pa0 la] am]; [by apply elem_of_nil in Hpa|].
  assert (pb ≤ pb0)%Z.
  { simpl in Hpb. apply elem_of_cons in Hpb as [->|Hpb]; [lia|].
    pose proof (sorted_head _ _ _ _ _ Hsb Hpb) as Hgt.
    unfold PriceMap.greater in Hgt. lia. }
  assert (pa0 ≤ pa)%Z.
  { simpl in Hpa. apply elem_of_cons in Hpa as [->|Hpa]; [lia|].
    pose proof (sorted_head _ _ _ _ _ Hsa Hpa) as Hlt.
    unfold PriceMap.less in Hlt. lia. }
  lia.
Qed.

Lemma uncrossed_retire h o b : uncrossed b → uncrossed (retire h o b).
Proof.
  intros Hu pb pa Hpb Hpa. apply Hu.
  - by apply (keys_retire_sub Buy h o b).
  - by apply (keys_retire_sub Sell h o b).
Qed.

Lemma no_fak_retire h o b : no_fak b → no_fak (retire h o b).
Proof. intros Hn x ox Hx%live_retire_sub Hox. by eapply Hn. Qed.

Lemma zero_ok_retire h o b : zero_ok b → zero_ok (retire h o b).
Proof. intros Hz x ox Hx%live_retire_sub Hox. by eapply Hz. Qed.

Lemma zero_ok_step b b' : WF b → zero_ok b → match_step b b' → zero_ok b'.
Proof.
  intros Hwf Hz Hstep.
  destruct Hstep as [pb pa bid ask bt bm at_ am ob oa Hb Ha Hob Hoa Hcross].
  intros x o' Hx Ho' Hzero.
  destruct (settle_live_slot b pb pa bid ask bt at_ bm am ob oa
              Hwf Hb Ha Hob Hoa x o' Hx Ho')
    as (o & Ho & Hsame & _ & [->|?]); [|done].
  eapply Hz; [|done..].
  by eapply (settle_live_sub b pb pa bid ask bt at_ bm am ob oa).
Qed.

Lemma fak_front_step ok b b' :
  WF b → fak_front ok b → match_step b b' → fak_front ok b'.
Proof.
  intros Hwf Hf Hstep.
  destruct Hstep as [pb pa bid ask bt bm at_ am ob oa Hb Ha Hob Hoa Hcross].
  intros x o' Hx Ho' Hty.
  destruct (settle_live_slot b pb pa bid ask bt at_ bm am ob oa
              Hwf Hb Ha Hob Hoa x o' Hx Ho')
    as (o & Ho & (Hty' & _) & _).
  pose proof Hx as (Hxl & Hxb & Hxa)%(settle_live b pb pa bid ask bt at_ bm am ob oa);
    try done.
  destruct (Hf x o Hxl Ho) as (s & p & l & m & Hok & Hm); [congruence|].
  exists s. destruct s; simpl in Hm.
  - rewrite Hb in Hm. injection Hm as <- <- <- <-.
    exists pb, bt, bm. split; [done|]. cbn [side_map].
    rewrite (settle_bids b pb pa bid ask bt at_ bm am ob oa) by done.
    by rewrite Hxb.
  - rewrite Ha in Hm. injection Hm as <- <- <- <-.
    exists pa, at_, am. split; [done|]. cbn [side_map].
    rewrite (settle_asks b pb pa bid ask bt at_ bm am ob oa) by done.
    by rewrite Hxa.
Qed.

Lemma trades_ok_step b b' :
  WF b → Forall trade_ok (trades_ b) → match_step b b' →
  Forall trade_ok (trades_ b').
Proof.
  intros Hwf Ht Hstep.
  destruct Hstep as [pb pa bid ask bt bm at_ am ob oa Hb Ha Hob Hoa Hcross].
  rewrite (settle_trades b pb pa bid ask bt at_ bm am ob oa) by done.
  apply Forall_app. split; [done|]. by repeat constructor.
Qed.

(** Entering a fresh order. *)
Section Enter.

Context (b : OrderBook) (h : OrderPointer) (o : Order).
Hypothesis Hwf : WF b.
Hypothesis Hfree : head (free_indices_ (orderPool_ b)) = Some h.

Lemma enter_fresh : h < length (pool_ (orderPool_ b)) ∧ h ∉ live b.
Proof. apply (wf_free b Hwf). by apply head_Some_elem_of. Qed.

Lemma slot_enter x :
  slot (enter h o b) x = if decide (x = h) then Some o else slot b x.
Proof.
  destruct enter_fresh as [Hlt _]. unfold slot, enter. simpl.
  case_decide as Hx.
  - subst x. by apply list_lookup_insert_eq.
  - by apply list_lookup_insert_ne.
Qed.

Lemma elem_live_enter x : x ∈ live (enter h o b) ↔ x = h ∨ x ∈ live b.
Proof. by rewrite live_enter, elem_of_cons. Qed.

Lemma zero_ok_enter :
  zero_ok b → (remainingQuantity_ o = 0%N → initialQuantity_ o = 0%N) →
  zero_ok (enter h o b).
Proof.
  intros Hz Ho x ox Hx. rewrite slot_enter. case_decide as Hxh.
  - by intros [= <-].
  - apply elem_live_enter in Hx as [?|Hx]; [done|]. by apply Hz.
Qed.

Lemma fak_front_enter :
  uncrossed b → no_fak b →
  (orderType_ o = FillAndKill → CanMatch (side_ o) (price_ o) b = true) →
  fak_front (λ _, True) (enter h o b).
Proof.
  intros Hu Hn Hcan x ox Hx. rewrite slot_enter. case_decide as Hxh.
  - subst x. intros [= <-] Hty. specialize (Hcan Hty).
    exists (side_ o), (price_ o), [], (side_map (side_ o) b).
    split; [done|]. rewrite side_map_enter. decide_simpl.
    apply side_push_best. intros p Hp.
    unfold CanMatch in Hcan. destruct (side_ o); simpl in *.
    + destruct (asks_ b) as [|[pa la] am] eqn:Ha; [done|].
      assert (p < pa)%Z by (apply Hu; [done|rewrite Ha; left]).
      unfold PriceMap.greater. lia.
    + destruct (bids_ b) as [|[pb lb] bm] eqn:Hb; [done|].
      assert (pb < p)%Z by (apply Hu; [rewrite Hb; left|done]).
      unfold PriceMap.less. lia.
  - apply elem_live_enter in Hx as [?|Hx]; [done|].
    intros Hox Hty. rewrite (Hn x ox Hx Hox) in Hty. done.
Qed.

End Enter.

(** The sweep retires the FillAndKill orders that the loops left at
    the front of the best levels. *)
Lemma fak_front_swept s (ok : Side → Prop) b :
  WF b → fak_front ok b → fak_front (λ s', ok s' ∧ s' ≠ s) (swept s b).
Proof.
  intros Hwf Hf. unfold swept.
  destruct (side_map s b) as [|[p [|x l]] m] eqn:Hm.
  - intros h o Hh Ho Hty.
    destruct (Hf h o Hh Ho Hty) as (s' & p' & l' & m' & Hok & Hm').
    exists s', p', l', m'. split; [|done]. split; [done|].
    intros ->. congruence.
  - intros h o Hh Ho Hty.
    destruct (Hf h o Hh Ho Hty) as (s' & p' & l' & m' & Hok & Hm').
    exists s', p', l', m'. split; [|done]. split; [done|].
    intros ->. congruence.
  - assert (Hat : at_level (side_map s b) p x).
    { rewrite Hm. apply at_level_cons. left. split; [done|left]. }
    destruct (wf_linked b Hwf s p x Hat) as (ox & Hox & Hs & Hp & Hid).
    rewrite Hox. destruct (orderType_ ox) eqn:Htx.
    + intros h o Hh Ho Hty.
      destruct (Hf h o Hh Ho Hty) as (s' & p' & l' & m' & Hok & Hm').
      exists s', p', l', m'. split; [|done]. split; [done|].
      intros ->. rewrite Hm in Hm'. injection Hm' as -> -> -> ->. congruence.
    + assert (Hxl : x ∈ live b) by (apply elem_live; eauto).
      pose proof (live_retire x ox b Hwf Hox Hxl) as Hperm.
      pose proof (wf_live_NoDup b Hwf) as Hnd. rewrite Hperm in Hnd.
      apply NoDup_cons in Hnd as [Hx' _].
      intros h o Hh Ho Hty.
      assert (h ≠ x) by (intros ->; done).
      apply live_retire_sub in Hh.
      destruct (Hf h o Hh Ho Hty) as (s' & p' & l' & m' & Hok & Hm').
      assert (s' ≠ s).
      { intros ->. rewrite Hm in Hm'. injection Hm' as -> -> -> ->. done. }
      exists s', p', l', m'. split; [done|].
      rewrite side_map_retire. rewrite decide_False; [done|congruence].
Qed.

Lemma swept_no_fak b :
  WF b → fak_front (λ _, True) b → no_fak (swept Sell (swept Buy b)).
Proof.
  intros Hwf Hf h o Hh Ho.
  apply (fak_front_swept Buy) in Hf; [|done].
  apply (fak_front_swept Sell) in Hf; [|by apply swept_WF].
  destruct (orderType_ o) eqn:Hty; [done|].
  destruct (Hf h o Hh Ho Hty) as ([] & _ & _ & _ & ((_ & ?) & ?) & _); done.
Qed.

Lemma swept_uncrossed s b : uncrossed b → uncrossed (swept s b).
Proof.
  intros Hu. unfold swept.
  destruct (side_map s b) as [|[p [|x l]] m]; [done..|].
  destruct (slot b x) as [ox|]; [|done].
  destruct (orderType_ ox); [done|]. by apply uncrossed_retire.
Qed.

Lemma swept_zero_ok s b : zero_ok b → zero_ok (swept s b).
Proof.
  intros Hu. unfold swept.
  destruct (side_map s b) as [|[p [|x l]] m]; [done..|].
  destruct (slot b x) as [ox|]; [|done].
  destruct (orderType_ ox); [done|]. by apply zero_ok_retire.
Qed.

Lemma swept_trades s b : trades_ (swept s b) = trades_ b.
Proof.
  unfold swept.
  destruct (side_map s b) as [|[p [|x l]] m]; [done..|].
  destruct (slot b x) as [ox|]; [|done].
  by destruct (orderType_ ox).
Qed.


(** ** What an operation does to the orders that stay *)

Lemma same_order_refl o : same_order o o.
Proof. by repeat split. Qed.

Lemma same_order_trans o1 o2 o3 :
  same_order o1 o2 → same_order o2 o3 → same_order o1 o3.
Proof.
  intros (? & ? & ? & ? & ?) (? & ? & ? & ? & ?). repeat split; congruence.
Qed.

Lemma descends_refl b : descends b b.
Proof.
  split; [done|]. intros h o Hh Ho. exists o.
  split_and!; [done|apply same_order_refl|lia].
Qed.

Lemma descends_retire b0 h o b :
  descends b0 b → descends b0 (retire h o b).
Proof.
  intros [Hsub Hslot]. split.
  - trans (orders_ b); [apply delete_subseteq|done].
  - intros x ox Hx%live_retire_sub Hox. by apply Hslot.
Qed.

Lemma descends_swept b0 s b : descends b0 b → descends b0 (swept s b).
Proof.
  intros Hd. unfold swept.
  destruct (side_map s b) as [|[p [|x l]] m]; [done..|].
  destruct (slot b x) as [ox|]; [|done].
  destruct (orderType_ ox); [done|]. by apply descends_retire.
Qed.

Lemma descends_step b0 b b' :
  WF b → descends b0 b → match_step b b' → descends b0 b'.
Proof.
  intros Hwf [Hsub Hslot] Hstep.
  destruct Hstep as [pb pa bid ask bt bm at_ am ob oa Hb Ha Hob Hoa Hcross].
  split.
  - pose proof (settle_orders b bid ask ob oa) as Hs.
    by trans (orders_ b).
  - intros x o' Hx Ho'.
    destruct (settle_live_slot b pb pa bid ask bt at_ bm am ob oa
                Hwf Hb Ha Hob Hoa x o' Hx Ho')
      as (o & Ho & Hsame & Hle & _).
    apply (settle_live_sub b pb pa bid ask bt at_ bm am ob oa) in Hx;
      try done.
    destruct (Hslot x o Hx Ho) as (o0 & Ho0 & Hsame0 & Hle0).
    exists o0. split_and!; [done|by eapply same_order_trans|lia].
Qed.

(** Unlinking the front of the best level leaves the last order of
    every level in its place. *)
Lemma find_pop_front k x t m p l h :
  h ≠ x → PriceMap.find p ((k, x :: t) :: m) = Some (l ++ [h]) →
  ∃ l', PriceMap.find p (if OrderList.empty t then m else (k, t) :: m)
        = Some (l' ++ [h]).
Proof.
  intros Hne. simpl. case_decide as Hk.
  - intros [= Heq]. destruct l as [|y l]; simpl in Heq.
    + injection Heq as -> _. done.
    + injection Heq as -> ->. exists l.
      destruct (l ++ [h]) eqn:Hl; [by destruct l|].
      simpl. by rewrite decide_True.
  - intros Hfind. exists l. destruct t; simpl; [done|].
    by rewrite decide_False.
Qed.

Lemma drop_front p x l m :
  drop p x ((p, x :: l) :: m) = if OrderList.empty l then m else (p, l) :: m.
Proof. rewrite drop_cons. decide_simpl. by rewrite unlink_front. Qed.

Lemma at_tail_step s p h b b' :
  WF b → at_tail s p h b → match_step b b' → at_tail s p h b'.
Proof.
  intros Hwf Ht Hstep.
  destruct Hstep as [pb pa bid ask bt bm at_ am ob oa Hb Ha Hob Hoa Hcross].
  intros Hh.
  pose proof Hh as (Hhl & Hhb & Hha)%(settle_live b pb pa bid ask bt at_ bm am ob oa);
    try done.
  destruct (Ht Hhl) as [l Hfind].
  destruct s; cbn [side_map] in *.
  - rewrite (settle_bids b pb pa bid ask bt at_ bm am ob oa) by done.
    rewrite Hb in Hfind.
    destruct (remainingQuantity_ ob - _ =? 0)%N eqn:Hfb; [|by exists l].
    eapply find_pop_front; [|done].
    intros ->. by specialize (Hhb eq_refl).
  - rewrite (settle_asks b pb pa bid ask bt at_ bm am ob oa) by done.
    rewrite Ha in Hfind.
    destruct (remainingQuantity_ oa - _ =? 0)%N eqn:Hfa; [|by exists l].
    eapply find_pop_front; [|done].
    intros ->. by specialize (Hha eq_refl).
Qed.

Lemma at_tail_swept s p h s' b :
  WF b → at_tail s p h b → at_tail s p h (swept s' b).
Proof.
  intros Hwf Ht. unfold swept.
  destruct (side_map s' b) as [|[k [|x t]] m] eqn:Hm; [done..|].
  assert (Hat : at_level (side_map s' b) k x).
  { rewrite Hm. apply at_level_cons. left. split; [done|left]. }
  destruct (wf_linked b Hwf s' k x Hat) as (ox & Hox & Hs & Hp & Hid).
  rewrite Hox. destruct (orderType_ ox); [done|].
  assert (Hxl : x ∈ live b) by (apply elem_live; eauto).
  pose proof (live_retire x ox b Hwf Hox Hxl) as Hperm.
  pose proof (wf_live_NoDup b Hwf) as Hnd. rewrite Hperm in Hnd.
  apply NoDup_cons in Hnd as [Hx' _].
  intros Hh. assert (h ≠ x) by (intros ->; done).
  destruct (Ht (live_retire_sub _ _ _ _ Hh)) as [l Hfind].
  rewrite side_map_retire. case_decide as Hss; [|by exists l].
  subst s. rewrite Hs, Hp, Hm, drop_front.
  rewrite Hs, Hm in Hfind. by eapply find_pop_front.
Qed.

Lemma at_tail_enter s p h o b :
  WF b → side_ o = s → price_ o = p → at_tail s p h (enter h o b).
Proof.
  intros Hwf <- <- _. rewrite side_map_enter. decide_simpl.
  apply side_push_last, Hwf.
Qed.

(** What [MatchOrders] returns on the book [AddOrder] hands it, and
    how the book it leaves relates to that book. *)
Lemma MatchOrders_enter h o b :
  Inv b → head (free_indices_ (orderPool_ b)) = Some h →
  orders_ b !! orderId_ o = None →
  (remainingQuantity_ o = 0%N → initialQuantity_ o = 0%N) →
  (orderType_ o = FillAndKill → CanMatch (side_ o) (price_ o) b = true) →
  ∃ trades b', MatchOrders (enter h o b) = Ok (trades, b') ∧ Inv b'
               ∧ Forall trade_ok trades
               ∧ descends (enter h o b) b'
               ∧ at_tail (side_ o) (price_ o) h b'.
Proof.
  intros [Hwf Hu Hn Hz] Hh Hid Hzero Hcan.
  pose proof (WF_enter h o b Hwf Hh Hid) as Hwf0.
  set (e := enter h o b) in *.
  set (P := λ b, zero_ok b ∧ fak_front (λ _, True) b
                 ∧ Forall trade_ok (trades_ b)
                 ∧ descends e b ∧ at_tail (side_ o) (price_ o) h b).
  destruct (MatchOrders_run P) with (b := e)
    as (b1 & Hwf1 & (Hz1 & Hf1 & Ht1 & Hd1 & Ha1) & Hq1 & ->); [|done|..].
  { intros b0 b0' Hwfb (? & ? & ? & ? & ?) Hstep. split_and!.
    - by eapply zero_ok_step.
    - by eapply fak_front_step.
    - by eapply trades_ok_step.
    - by eapply descends_step.
    - by eapply at_tail_step. }
  { split_and!.
    - by apply (zero_ok_enter b h o).
    - by apply (fak_front_enter b h o).
    - constructor.
    - apply (descends_refl e).
    - by apply (at_tail_enter _ _ h o b). }
  eexists _, _. split; [done|]. split_and!.
  - split.
    + by do 2 apply swept_WF.
    + by do 2 apply swept_uncrossed; apply quiet_uncrossed.
    + by apply swept_no_fak.
    + by do 2 apply swept_zero_ok.
  - by rewrite !swept_trades.
  - by do 2 apply descends_swept.
  - apply at_tail_swept; [by apply swept_WF|]. by apply at_tail_swept.
Qed.

(** ** Every operation keeps the properties *)

Lemma Inv_set_trades t b : Inv b → Inv (set_trades t b).
Proof.
  intros [Hwf Hu Hn Hz]. split; [by apply WF_set_trades|done..].
Qed.

Lemma WF_OrderBook_with n : WF (OrderBook_with n).
Proof.
  split.
  - intros []; constructor.
  - intros []; constructor.
  - constructor.
  - intros [] p h Hat; by apply at_level_nil in Hat.
  - intros id h Hid. simpl in Hid. by rewrite lookup_empty in Hid.
  - simpl. rewrite reverse_Permutation. apply NoDup_seq.
  - intros h. simpl. rewrite elem_of_reverse, elem_of_seq, length_replicate.
    split; [lia|]. by intros ?%elem_of_nil.
Qed.

Lemma Inv_OrderBook_with n : Inv (OrderBook_with n).
Proof.
  split.
  - apply WF_OrderBook_with.
  - by intros pb pa ?%elem_of_nil.
  - by intros h o ?%elem_of_nil.
  - by intros h o ?%elem_of_nil.
Qed.

Lemma Inv_retire h o b :
  Inv b → slot b h = Some o → h ∈ live b → Inv (retire h o b).
Proof.
  intros [Hwf Hu Hn Hz] Ho Hh. split.
  - by apply WF_retire.
  - by apply uncrossed_retire.
  - by apply no_fak_retire.
  - by apply zero_ok_retire.
Qed.

Lemma Inv_CancelOrder id b b' : Inv b → CancelOrder id b = Ok b' → Inv b'.
Proof.
  intros HI. destruct (orders_ b !! id) as [h|] eqn:Hid.
  - destruct (CancelOrder_retire id h b (inv_wf b HI) Hid)
      as (o & Ho & _ & Hl & ->).
    intros [= <-]. by apply Inv_retire.
  - rewrite CancelOrder_absent by done. by intros [= <-].
Qed.

(** The four ways through [AddOrder]. *)
Lemma AddOrder_cases ty id s p q b :
  Inv b →
  (is_Some (orders_ b !! id)
   ∧ AddOrder ty id s p q b = Ok ([], set_trades [] b))
  ∨ (orders_ b !! id = None ∧ ty = FillAndKill ∧ CanMatch s p b = false
     ∧ AddOrder ty id s p q b = Ok ([], b))
  ∨ (orders_ b !! id = None ∧ free_indices_ (orderPool_ b) = []
     ∧ AddOrder ty id s p q b = Err PoolExhausted)
  ∨ (∃ h trades b',
       orders_ b !! id = None
       ∧ head (free_indices_ (orderPool_ b)) = Some h
       ∧ AddOrder ty id s p q b = Ok (trades, b') ∧ Inv b'
       ∧ Forall trade_ok trades
       ∧ descends (enter h (Order.new ty id s p q) b) b'
       ∧ at_tail s p h b').
Proof.
  intros HI.
  destruct (orders_ b !! id) as [h0|] eqn:Hid.
  { left. split; [done|]. by apply AddOrder_duplicate. }
  destruct (decide (ty = FillAndKill ∧ CanMatch s p b = false)) as [[-> Hc]|Hc].
  { right. left. split_and!; [done..|]. by apply AddOrder_dropped. }
  assert (Hcan : ty = FillAndKill → CanMatch s p b = true).
  { intros ->. destruct (CanMatch s p b); [done|]. by destruct Hc. }
  destruct (free_indices_ (orderPool_ b)) as [|h rest] eqn:Hf.
  { right. right. left. split_and!; [done..|]. by apply AddOrder_exhausted. }
  right. right. right.
  destruct (MatchOrders_enter h (Order.new ty id s p q) b HI)
    as (trades & b' & Hrun & HI' & Ht & Hd & Hta); try done.
  { by rewrite Hf. }
  exists h, trades, b'. split_and!; try done.
  rewrite (AddOrder_enter ty id s p q b h); try done.
  - apply HI.
  - by rewrite Hf.
Qed.

(** [AddOrder] returns, unless the pool is exhausted. *)
Lemma AddOrder_result ty id s p q b :
  Inv b →
  (free_indices_ (orderPool_ b) = [] ∧ orders_ b !! id = None
   ∧ AddOrder ty id s p q b = Err PoolExhausted)
  ∨ ∃ trades b', AddOrder ty id s p q b = Ok (trades, b') ∧ Inv b'
                 ∧ Forall trade_ok trades.
Proof.
  intros HI.
  destruct (AddOrder_cases ty id s p q b HI)
    as [(_ & ->)|[(_ & _ & _ & ->)|[(? & ? & ?)|(h & trades & b' & _ & _ & -> & ? & ? & _)]]].
  - right. eexists _, _. split; [done|].
    split; [by apply Inv_set_trades|constructor].
  - right. eexists _, _. split; [done|]. split; [done|constructor].
  - by left.
  - right. by eexists _, _.
Qed.

Lemma Inv_AddOrder ty id s p q b trades b' :
  Inv b → AddOrder ty id s p q b = Ok (trades, b') →
  Inv b' ∧ Forall trade_ok trades.
Proof.
  intros HI Hadd.
  destruct (AddOrder_result ty id s p q b HI)
    as [(_ & _ & Herr)|(trades0 & b0 & Hok & HI0 & Ht0)]; [congruence|].
  rewrite Hadd in Hok. by injection Hok as <- <-.
Qed.

(** [MatchOrder] always returns: the pool slot it needs is the one it
    has just released. *)
Lemma MatchOrder_result order b :
  Inv b →
  ∃ trades b', MatchOrder order b = Ok (trades, b') ∧ Inv b'
               ∧ Forall trade_ok trades.
Proof.
  intros HI. unfold MatchOrder.
  destruct (orders_ b !! om_orderId order) as [h|] eqn:Hid.
  - destruct (CancelOrder_retire _ h b (inv_wf b HI) Hid)
      as (o & Ho & Hoid & Hl & ->).
    rewrite (deref_slot _ _ _ Ho). simpl.
    pose proof (Inv_retire h o b HI Ho Hl) as HI1.
    destruct (AddOrder_result (orderType_ o) (om_orderId order)
                (om_side order) (om_price order) (om_quantity order)
                (retire h o b) HI1) as [(Hf & _)|?]; [done|done].
  - eexists _, _. split; [done|]. split; [done|constructor].
Qed.

Lemma Inv_MatchOrder order b trades b' :
  Inv b → MatchOrder order b = Ok (trades, b') →
  Inv b' ∧ Forall trade_ok trades.
Proof.
  intros HI Hrun.
  destruct (MatchOrder_result order b HI) as (trades0 & b0 & Hok & HI0 & Ht0).
  rewrite Hrun in Hok. by injection Hok as <- <-.
Qed.

Lemma Inv_run_event e b trades b' :
  Inv b → run_event e b = Ok (trades, b') → Inv b' ∧ Forall trade_ok trades.
Proof.
  intros HI. destruct e as [ty id s p q|id|order]; simpl.
  - by apply Inv_AddOrder.
  - intros (b0 & Hc & [= <- <-])%bind_Ok. split; [|constructor].
    by eapply Inv_CancelOrder.
  - by apply Inv_MatchOrder.
Qed.

Lemma reachable_Inv b : reachable b → Inv b.
Proof.
  induction 1 as [|b e trades b' _ IH _ Hrun].
  - apply Inv_OrderBook_with.
  - by eapply Inv_run_event.
Qed.

(** An operation on a reachable book returns, unless it is an
    [AddOrder] on an exhausted pool. *)
Lemma run_event_result e b :
  Inv b → run_event e b = Err PoolExhausted
          ∨ ∃ trades b', run_event e b = Ok (trades, b').
Proof.
  intros HI. destruct e as [ty id s p q|id|order]; simpl.
  - destruct (AddOrder_result ty id s p q b HI)
      as [(_ & _ & ?)|(trades & b' & ? & _)]; eauto.
  - destruct (CancelOrder_total id b (inv_wf b HI)) as [b' ->]. eauto.
  - destruct (MatchOrder_result order b HI) as (trades & b' & ? & _); eauto.
Qed.

(** ** Running traces on a new book *)

Ltac pool_simpl :=
  repeat first
    [ rewrite list_lookup_insert_eq by (rewrite ?length_insert; done)
    | rewrite list_lookup_insert_ne by done
    | rewrite length_insert
    | rewrite lookup_empty
    | rewrite lookup_insert_eq
    | rewrite lookup_insert_ne by done
    | rewrite lookup_delete_eq
    | rewrite lookup_delete_ne by done
    | rewrite decide_True by (done || lia)
    | rewrite decide_False by (done || lia) ].

Ltac book_step :=
  progress
    (unfold run_event, AddOrder, MatchOrders, MatchOrder, CancelOrder,
       CanMatch, sweep,
       match_front, deref, Fill_at, release_at, resting,
       ObjectPool.acquire, ObjectPool.release, ObjectPool.read,
       ObjectPool.write, Order.Fill, Order.IsFilled, Order.new,
       OrderList.remove, OrderList.front, OrderList.pop_front,
       OrderList.push_back, PriceMap.at_, PriceMap.greater, PriceMap.less,
       set_bids, set_asks, set_orders, set_trades, set_pool, handles;
     simpl; pool_simpl).

Ltac book_run := repeat book_step.

Ltac snapshot_run :=
  repeat progress
    (unfold GetOrderInfos, CreateLevelInfos, deref, ObjectPool.read;
     simpl; pool_simpl).

Ltac map_cases :=
  apply map_eq; intros ?;
  rewrite ?lookup_delete, ?lookup_insert, ?lookup_singleton, ?lookup_empty;
  repeat case_decide; congruence.

Section Scenarios.

Context (pool : list Order) (h1 h2 h3 : OrderPointer) (rest : list nat).
Hypothesis H12 : h1 ≠ h2.
Hypothesis H13 : h1 ≠ h3.
Hypothesis H23 : h2 ≠ h3.
Hypothesis Hlt1 : h1 < length pool.
Hypothesis Hlt2 : h2 < length pool.
Hypothesis Hlt3 : h3 < length pool.

Let b0 := mkBook [] [] ∅ [] (mkPool pool (h1 :: h2 :: h3 :: rest)).

Let o1 := Order.new GoodTillCancel 1%N Buy 100%Z 4%N.
Let o2 := Order.new FillAndKill 2%N Sell 100%Z 10%N.

(** [trace_fak]: the bid is filled and released; the loops leave the
    FillAndKill sell with 6 remaining at the front of the asks, and
    the sweep cancels it. *)
Lemma run_fak :
  ∃ b1 e m b2,
    AddOrder GoodTillCancel 1%N Buy 100%Z 4%N b0 = Ok ([], b1)
    ∧ orders_ b1 !! 2%N = None
    ∧ e = enter h2 o2 b1
    ∧ AddOrder FillAndKill 2%N Sell 100%Z 10%N b1 = MatchOrders e
    ∧ match_loop (S (resting e)) (set_trades [] e) = Ok m
    ∧ bids_ m = [] ∧ asks_ m = [(100%Z, [h2])]
    ∧ slot m h1 = Some (with_remaining 0%N o1)
    ∧ slot m h2 = Some (with_remaining 6%N o2)
    ∧ orders_ m !! 1%N = None ∧ orders_ m !! 2%N = Some h2
    ∧ free_indices_ (orderPool_ m) = h1 :: h3 :: rest
    ∧ sweep (bids_ m) m = Ok m
    ∧ sweep (asks_ m) m = Ok b2
    ∧ AddOrder FillAndKill 2%N Sell 100%Z 10%N b1 =
        Ok ([mkTrade (mkTradeInfo 1%N 100%Z 4%N) (mkTradeInfo 2%N 100%Z 4%N)],
            b2)
    ∧ bids_ b2 = [] ∧ asks_ b2 = [] ∧ orders_ b2 = ∅
    ∧ slot b2 h2 = Some (with_remaining 6%N o2)
    ∧ free_indices_ (orderPool_ b2) = h2 :: h1 :: h3 :: rest.
Proof.
  unfold b0, o1, o2. eexists _, _, _, _.
  split; [book_run; reflexivity|].
  split; [simpl; by pool_simpl|].
  split; [reflexivity|].
  split; [book_run; reflexivity|].
  split; [unfold enter; book_run; reflexivity|].
  split; [reflexivity|]. split; [reflexivity|].
  split; [unfold slot; simpl; by pool_simpl|].
  split; [unfold slot; simpl; by pool_simpl|].
  split; [simpl; by pool_simpl|]. split; [simpl; by pool_simpl|].
  split; [reflexivity|].
  split; [reflexivity|].
  split; [book_run; reflexivity|].
  split; [unfold enter; book_run; reflexivity|].
  split; [reflexivity|]. split; [reflexivity|].
  split; [simpl; map_cases|].
  split; [unfold slot; simpl; by pool_simpl|].
  reflexivity.
Qed.

(** [trace_priority]: the two bids queue in arrival order; the sell
    takes 5 from the first and 2 from the second. *)
Lemma run_priority :
  ∃ b1 b2 b3,
    AddOrder GoodTillCancel 1%N Buy 100%Z 5%N b0 = Ok ([], b1)
    ∧ AddOrder GoodTillCancel 2%N Buy 100%Z 5%N b1 = Ok ([], b2)
    ∧ bids_ b2 = [(100%Z, [h1; h2])] ∧ asks_ b2 = []
    ∧ orders_ b2 !! 2%N = Some h2
    ∧ slot b2 h2 = Some (Order.new GoodTillCancel 2%N Buy 100%Z 5%N)
    ∧ AddOrder GoodTillCancel 3%N Sell 100%Z 7%N b2 =
        Ok ([mkTrade (mkTradeInfo 1%N 100%Z 5%N) (mkTradeInfo 3%N 100%Z 5%N);
             mkTrade (mkTradeInfo 2%N 100%Z 2%N) (mkTradeInfo 3%N 100%Z 2%N)],
            b3)
    ∧ bids_ b3 = [(100%Z, [h2])] ∧ asks_ b3 = []
    ∧ orders_ b3 = {[2%N := h2]}
    ∧ slot b3 h2 =
        Some (with_remaining 3%N (Order.new GoodTillCancel 2%N Buy 100%Z 5%N)).
Proof.
  unfold b0. eexists _, _, _.
  split; [book_run; reflexivity|].
  split; [book_run; reflexivity|].
  split; [reflexivity|]. split; [reflexivity|].
  split; [simpl; by pool_simpl|].
  split; [unfold slot; simpl; by pool_simpl|].
  split; [book_run; reflexivity|].
  split; [reflexivity|]. split; [reflexivity|].
  split; [simpl; map_cases|].
  unfold slot; simpl; by pool_simpl.
Qed.

(** [trace_spread]: a bid at 99 and an ask at 100 rest. *)
Lemma run_spread :
  ∃ b1 b2,
    AddOrder GoodTillCancel 1%N Buy 99%Z 10%N b0 = Ok ([], b1)
    ∧ AddOrder GoodTillCancel 2%N Sell 100%Z 5%N b1 = Ok ([], b2)
    ∧ bids_ b2 = [(99%Z, [h1])] ∧ asks_ b2 = [(100%Z, [h2])]
    ∧ slot b2 h1 = Some (Order.new GoodTillCancel 1%N Buy 99%Z 10%N)
    ∧ slot b2 h2 = Some (Order.new GoodTillCancel 2%N Sell 100%Z 5%N)
    ∧ GetOrderInfos b2 =
        Ok (mkOrderBookLevelInfos [mkLevelInfo 99%Z 10%N]
                                  [mkLevelInfo 100%Z 5%N]).
Proof.
  unfold b0. eexists _, _.
  split; [book_run; reflexivity|].
  split; [book_run; reflexivity|].
  split; [reflexivity|]. split; [reflexivity|].
  split; [unfold slot; simpl; by pool_simpl|].
  split; [unfold slot; simpl; by pool_simpl|].
  by snapshot_run.
Qed.


(** [trace_large]: two bids of 2^31 rest at one price; the snapshot
    gives the level the quantity 0. *)
Lemma run_large :
  ∃ b1 b2,
    AddOrder GoodTillCancel 1%N Buy 100%Z 2147483648%N b0 = Ok ([], b1)
    ∧ AddOrder GoodTillCancel 2%N Buy 100%Z 2147483648%N b1 = Ok ([], b2)
    ∧ bids_ b2 = [(100%Z, [h1; h2])] ∧ asks_ b2 = []
    ∧ slot b2 h1 =
        Some (Order.new GoodTillCancel 1%N Buy 100%Z 2147483648%N)
    ∧ slot b2 h2 =
        Some (Order.new GoodTillCancel 2%N Buy 100%Z 2147483648%N)
    ∧ GetOrderInfos b2 =
        Ok (mkOrderBookLevelInfos [mkLevelInfo 100%Z 0%N] []).
Proof.
  unfold b0. eexists _, _.
  split; [book_run; reflexivity|].
  split; [book_run; reflexivity|].
  split; [reflexivity|]. split; [reflexivity|].
  split; [unfold slot; simpl; by pool_simpl|].
  split; [unfold slot; simpl; by pool_simpl|].
  by snapshot_run.
Qed.

(** [trace_queue], then a modify of the first bid that changes
    nothing but its place in the queue. *)
Lemma run_queue :
  ∃ b1 b2 b3,
    AddOrder GoodTillCancel 1%N Buy 100%Z 5%N b0 = Ok ([], b1)
    ∧ AddOrder GoodTillCancel 2%N Buy 100%Z 5%N b1 = Ok ([], b2)
    ∧ bids_ b2 = [(100%Z, [h1; h2])] ∧ asks_ b2 = []
    ∧ orders_ b2 !! 1%N = Some h1 ∧ orders_ b2 !! 7%N = None
    ∧ slot b2 h1 = Some (Order.new GoodTillCancel 1%N Buy 100%Z 5%N)
    ∧ MatchOrder (mkOrderModify 1%N Buy 100%Z 5%N) b2 = Ok ([], b3)
    ∧ bids_ b3 = [(100%Z, [h2; h1])]
    ∧ orders_ b3 !! 1%N = Some h1.
Proof.
  unfold b0. eexists _, _, _.
  split; [book_run; reflexivity|].
  split; [book_run; reflexivity|].
  split; [reflexivity|]. split; [reflexivity|].
  split; [simpl; by pool_simpl|]. split; [simpl; by pool_simpl|].
  split; [unfold slot; simpl; by pool_simpl|].
  split; [book_run; reflexivity|].
  split; [reflexivity|].
  simpl; by pool_simpl.
Qed.

End Scenarios.

(** The fields of the new book. *)
Lemma OrderBook_new_fields :
  ∃ pool h1 h2 h3 rest,
    OrderBook_new = mkBook [] [] ∅ [] (mkPool pool (h1 :: h2 :: h3 :: rest))
    ∧ h1 ≠ h2 ∧ h1 ≠ h3 ∧ h2 ≠ h3
    ∧ h1 < length pool ∧ h2 < length pool ∧ h3 < length pool.
Proof.
  set (n := N.to_nat 999997).
  assert (Hn : POOL_SIZE = S (S (S n))) by (unfold POOL_SIZE, n; lia).
  exists (replicate POOL_SIZE Order.default), (S (S n)), (S n), n,
    (reverse (seq 0 n)).
  rewrite length_replicate. split; [|lia].
  unfold OrderBook_new, OrderBook_with, ObjectPool.new. rewrite Hn at 2.
  by rewrite !seq_S, !reverse_snoc.
Qed.

(** ** Traces and reachable books *)

Lemma run_events_reachable es b ts b' :
  reachable b → Forall event_ok es → run_events es b = Ok (ts, b') →
  reachable b'.
Proof.
  revert b ts. induction es as [|e es IH]; intros b ts Hb Hok; simpl.
  - by intros [= _ <-].
  - apply Forall_cons in Hok as [He Hes].
    intros ([t b1] & Hrun & Hrest)%bind_Ok.
    apply bind_Ok in Hrest as ([ts' b2] & Hrest & [= _ <-]).
    eapply IH; [|done|done]. by eapply reachable_step.
Qed.

Lemma book_after_reachable es : Forall event_ok es → reachable (book_after es).
Proof.
  intros Hok. unfold book_after.
  destruct (run_events es OrderBook_new) as [[ts b]|e] eqn:Hrun.
  - eapply run_events_reachable; [constructor|done..].
  - constructor.
Qed.

Lemma book_after_one e t b :
  run_event e OrderBook_new = Ok (t, b) → book_after [e] = b.
Proof. intros H. unfold book_after. cbn [run_events]. by rewrite H. Qed.

Lemma book_after_two e1 e2 t1 t2 b1 b2 :
  run_event e1 OrderBook_new = Ok (t1, b1) → run_event e2 b1 = Ok (t2, b2) →
  book_after [e1; e2] = b2.
Proof.
  intros H1 H2. unfold book_after. cbn [run_events]. rewrite H1.
  cbn [mbind result_bind]. by rewrite H2.
Qed.

Lemma book_after_three e1 e2 e3 t1 t2 t3 b1 b2 b3 :
  run_event e1 OrderBook_new = Ok (t1, b1) → run_event e2 b1 = Ok (t2, b2) →
  run_event e3 b2 = Ok (t3, b3) → book_after [e1; e2; e3] = b3.
Proof.
  intros H1 H2 H3. unfold book_after. cbn [run_events]. rewrite H1.
  cbn [mbind result_bind]. rewrite H2. cbn [mbind result_bind]. by rewrite H3.
Qed.

(** ** Orders that stay through an operation *)

Lemma inherits_refl b id : inherits b b id.
Proof.
  intros h o Hh Ho. exists o. split_and!; [done..|apply same_order_refl|lia].
Qed.

Lemma inherits_trans b1 b2 b3 id :
  inherits b1 b2 id → inherits b2 b3 id → inherits b1 b3 id.
Proof.
  intros H12 H23 h3 o3 Hh3 Ho3.
  destruct (H23 h3 o3 Hh3 Ho3) as (o2 & Hh2 & Ho2 & Hs2 & Hle2).
  destruct (H12 h3 o2 Hh2 Ho2) as (o1 & Hh1 & Ho1 & Hs1 & Hle1).
  exists o1. split_and!; [done..|by eapply same_order_trans|lia].
Qed.

Lemma descends_inherits b b' id : WF b' → descends b b' → inherits b b' id.
Proof.
  intros Hwf [Hsub Hslot] h' o' Hh' Ho'.
  destruct (wf_index b' Hwf id h' Hh') as (Hl & _).
  destruct (Hslot h' o' Hl Ho') as (o & Ho & Hs & Hle).
  exists o. split_and!; try done. by eapply lookup_weaken.
Qed.

Lemma inherits_retire h o b id :
  WF b → slot b h = Some o → h ∈ live b → inherits b (retire h o b) id.
Proof.
  intros Hwf Ho Hh. apply descends_inherits; [by apply WF_retire|].
  apply descends_retire, descends_refl.
Qed.


Lemma inherits_AddOrder ty id0 s p q b trades b' id :
  Inv b → AddOrder ty id0 s p q b = Ok (trades, b') →
  id ≠ id0 ∨ is_Some (orders_ b !! id) → inherits b b' id.
Proof.
  intros HI Hadd Hid.
  destruct (AddOrder_cases ty id0 s p q b HI)
    as [(_ & Heq)|[(_ & _ & _ & Heq)|[(_ & _ & Heq)|Hent]]];
    try (rewrite Hadd in Heq; injection Heq as -> ->).
  - exact (inherits_refl b id).
  - apply inherits_refl.
  - congruence.
  - destruct Hent as (h & trades0 & b0 & Hnone & Hh & Heq & HI0 & _ & Hd & _).
    rewrite Hadd in Heq. injection Heq as <- <-.
    assert (Hne : id ≠ id0).
    { destruct Hid as [?|[x Hx]]; [done|]. intros ->. congruence. }
    pose proof (descends_inherits _ _ id (inv_wf _ HI0) Hd) as Hinh.
    intros h' o' Hh' Ho'.
    destruct (Hinh h' o' Hh' Ho') as (o & Hhe & Hoe & Hs & Hle).
    simpl in Hhe. rewrite lookup_insert_ne in Hhe by done.
    destruct (wf_index b (inv_wf b HI) id h' Hhe) as (Hl & _).
    rewrite (slot_enter b h _ (inv_wf b HI) Hh) in Hoe.
    rewrite decide_False in Hoe.
    + by exists o.
    + intros ->. by destruct (enter_fresh b h (inv_wf b HI) Hh).
Qed.

Lemma inherits_MatchOrder order b trades b' id :
  Inv b → MatchOrder order b = Ok (trades, b') → id ≠ om_orderId order →
  inherits b b' id.
Proof.
  intros HI Hrun Hne. unfold MatchOrder in Hrun.
  destruct (orders_ b !! om_orderId order) as [h|] eqn:Hid.
  - destruct (CancelOrder_retire _ h b (inv_wf b HI) Hid)
      as (o & Ho & Hoid & Hl & Hc).
    rewrite (deref_slot _ _ _ Ho), Hc in Hrun. simpl in Hrun.
    eapply inherits_trans.
    + by apply (inherits_retire h o b id (inv_wf b HI)).
    + eapply inherits_AddOrder; [by apply Inv_retire|done|by left].
  - injection Hrun as _ <-. apply inherits_refl.
Qed.

(** [CancelOrder] erases the id from the index. *)
Lemma CancelOrder_erases id b b' :
  CancelOrder id b = Ok b' → orders_ b' !! id = None.
Proof.
  unfold CancelOrder. destruct (orders_ b !! id) as [h|] eqn:Hid.
  - intros (o & _ & Hrest)%bind_Ok.
    apply bind_Ok in Hrest as (b1 & Hside & Hrel).
    unfold release_at in Hrel.
    apply bind_Ok in Hrel as (pl & _ & [= <-]).
    assert (orders_ b1 = delete id (orders_ b)) as Hb1.
    { destruct (side_ o).
      - apply bind_Ok in Hside as (l & _ & Hside).
        apply bind_Ok in Hside as (l' & _ & [= <-]).
        by destruct (OrderList.empty l').
      - apply bind_Ok in Hside as (l & _ & Hside).
        apply bind_Ok in Hside as (l' & _ & [= <-]).
        by destruct (OrderList.empty l'). }
    simpl. rewrite Hb1. apply lookup_delete_eq.
  - by intros [= <-].
Qed.

(** ** The traces are made of well-typed events *)

Ltac events_ok :=
  repeat constructor;
  unfold OrderId_ok, Price_ok, Quantity_ok, Quantity_modulus; simpl; lia.

Lemma trace_priority_ok : Forall event_ok trace_priority.
Proof. events_ok. Qed.

Lemma trace_fak_ok : Forall event_ok trace_fak.
Proof. events_ok. Qed.

Lemma trace_spread_ok : Forall event_ok trace_spread.
Proof. events_ok. Qed.


Lemma trace_large_ok : Forall event_ok trace_large.
Proof. events_ok. Qed.

Lemma trace_queue_ok : Forall event_ok trace_queue.
Proof. events_ok. Qed.


(** ** The place of a pushed order *)

Lemma push_find s k h m :
  sorted (side_comp s) m →
  PriceMap.find k (push (side_comp s) k h m)
    = Some (default [] (PriceMap.find k m) ++ [h]).
Proof.
  induction m as [|[k' l] m IH]; intros Hs.
  - rewrite push_nil. simpl. by rewrite decide_True.
  - rewrite (push_cons _ (side_comp_irrefl s) (side_comp_total s)).
    destruct (side_comp s k k') eqn:H1.
    + assert (Hk : PriceMap.find k ((k', l) :: m) = None).
      { apply find_None. simpl. apply not_elem_of_cons. split.
        - intros ->. by rewrite side_comp_irrefl in H1.
        - intros Hin. pose proof (sorted_head _ _ _ _ _ Hs Hin) as H2.
          pose proof (side_comp_trans s _ _ _ H1 H2) as H3.
          by rewrite side_comp_irrefl in H3. }
      rewrite Hk. simpl. by rewrite decide_True.
    + destruct (side_comp s k' k) eqn:H2.
      * assert (k' ≠ k) by (intros ->; by rewrite side_comp_irrefl in H2).
        simpl. rewrite !decide_False by done. apply IH.
        unfold sorted in *. simpl in Hs.
        by apply StronglySorted_inv in Hs as [? _].
      * assert (k' = k) as -> by by apply side_comp_total with s.
        simpl. by rewrite !decide_True.
Qed.

(** ** One pass of the inner loop, from the slots of the two fronts *)

Section SettleShape.

Context (b : OrderBook) (pb pa : Price) (bid ask : OrderPointer)
  (bt at_ : OrderList) (bm am : PriceMap) (ob oa : Order).
Hypothesis Hb : bids_ b = (pb, bid :: bt) :: bm.
Hypothesis Ha : asks_ b = (pa, ask :: at_) :: am.
Hypothesis Hob : slot b bid = Some ob.
Hypothesis Hoa : slot b ask = Some oa.
Hypothesis Hne : bid ≠ ask.
Hypothesis Hsb : side_ ob = Buy.
Hypothesis Hpb : price_ ob = pb.
Hypothesis Hsa : side_ oa = Sell.
Hypothesis Hpa : price_ oa = pa.

Let q := N.min (remainingQuantity_ ob) (remainingQuantity_ oa).

Lemma settle_shape :
  trades_ (settle bid ask ob oa b) = trades_ b ++
    [mkTrade (mkTradeInfo (orderId_ ob) pb q) (mkTradeInfo (orderId_ oa) pa q)]
  ∧ slot (settle bid ask ob oa b) bid
      = Some (with_remaining (remainingQuantity_ ob - q)%N ob)
  ∧ slot (settle bid ask ob oa b) ask
      = Some (with_remaining (remainingQuantity_ oa - q)%N oa)
  ∧ bids_ (settle bid ask ob oa b) =
      (if (remainingQuantity_ ob - q =? 0)%N
       then (if OrderList.empty bt then bm else (pb, bt) :: bm)
       else (pb, bid :: bt) :: bm)
  ∧ asks_ (settle bid ask ob oa b) =
      (if (remainingQuantity_ oa - q =? 0)%N
       then (if OrderList.empty at_ then am else (pa, at_) :: am)
       else (pa, ask :: at_) :: am).
Proof.
  pose proof (slot_lt _ _ _ Hob) as Hlb.
  pose proof (slot_lt _ _ _ Hoa) as Hla.
  unfold settle, retire, Order.IsFilled, slot. simpl. fold q.
  destruct (remainingQuantity_ ob - q =? 0)%N,
    (remainingQuantity_ oa - q =? 0)%N; simpl;
    rewrite ?Hsb, ?Hsa, ?Hpb, ?Hpa; simpl; rewrite ?Hb, ?Ha;
    rewrite ?drop_front;
    rewrite list_lookup_insert_ne by done;
    rewrite !list_lookup_insert_eq by (rewrite ?length_insert; done);
    done.
Qed.

End SettleShape.

(** ** The snapshot *)

Lemma accumulate_sum b l acc :
  (∀ h, h ∈ l → is_Some (slot b h)) → (acc < Quantity_modulus)%N →
  accumulate l acc b = Ok ((acc + level_sum b l) mod Quantity_modulus)%N.
Proof.
  revert acc. induction l as [|h l IH]; intros acc Hl Hacc; simpl.
  - by rewrite N.add_0_r, N.mod_small.
  - destruct (Hl h) as [o Ho]; [left|].
    rewrite (deref_slot _ _ _ Ho). simpl. rewrite IH.
    + unfold remaining_at. rewrite Ho. simpl.
      by rewrite N.Div0.add_mod_idemp_l, N.add_assoc.
    + intros x Hx. apply Hl. by right.
    + by apply N.mod_lt.
Qed.

Lemma level_infos_fmap b m :
  (∀ p l h, (p, l) ∈ m → h ∈ l → is_Some (slot b h)) →
  level_infos b m = Ok (level_info b <$> m).
Proof.
  induction m as [|[p l] m IH]; intros Hm; [done|].
  simpl. unfold CreateLevelInfos. simpl.
  rewrite accumulate_sum; [|intros h Hh; eapply Hm; [left|done]|done].
  simpl. rewrite IH; [done|]. intros p' l' h Hl' Hh. eapply Hm; [by right|done].
Qed.

Lemma level_info_sorted (R : Price → Price → Prop) b m :
  StronglySorted R m.*1 →
  StronglySorted (λ x y, R (li_price x) (li_price y)) (level_info b <$> m).
Proof.
  induction m as [|[p l] m IH]; simpl; intros Hs; [constructor|].
  apply StronglySorted_inv in Hs as [Hs Hall]. constructor; [auto|].
  rewrite Forall_fmap. rewrite Forall_fmap in Hall.
  eapply Forall_impl; [done|]. by intros [p' l'].
Qed.

Lemma StronglySorted_weaken {A} (R R' : A → A → Prop) (l : list A) :
  (∀ x y, R x y → R' x y) → StronglySorted R l → StronglySorted R' l.
Proof.
  intros HR. induction 1 as [|x l _ IH Hall]; constructor; [done|].
  eapply Forall_impl; [done|]. auto.
Qed.

(** On a well-formed book, every linked order has a slot. *)
Lemma wf_level_slots b s p l h :
  WF b → (p, l) ∈ side_map s b → h ∈ l → is_Some (slot b h).
Proof.
  intros Hwf Hl Hh.
  assert (Hat : at_level (side_map s b) p h) by by exists l.
  destruct (wf_linked b Hwf s p h Hat) as (o & Ho & _). eauto.
Qed.

(** [MatchOrders] returns on every well-formed book. *)
Lemma MatchOrders_total b :
  WF b → ∃ trades b', MatchOrders b = Ok (trades, b').
Proof.
  intros Hwf.
  destruct (MatchOrders_run (λ _, True) (λ _ _ _ _ _, I) b Hwf I)
    as (b1 & _ & _ & _ & ->).
  eauto.
Qed.

(** * Further properties of the code *)

(** ** Properties kept by every operation *)

Section Kept.

(** A property of the book that the elementary transitions keep is
    kept by every operation. *)
Variable Q : OrderBook → Prop.
Hypothesis Q_trades : ∀ t b, Q b → Q (set_trades t b).
Hypothesis Q_store : ∀ h o o' b,
  WF b → Q b → slot b h = Some o → h ∈ live b → same_order o o' →
  (remainingQuantity_ o' ≤ remainingQuantity_ o)%N → Q (store h o' b).
Hypothesis Q_retire : ∀ h o b,
  WF b → Q b → slot b h = Some o → h ∈ live b → Q (retire h o b).
Hypothesis Q_enter : ∀ ty id s p q h b,
  WF b → Q b → OrderId_ok id → Price_ok p → Quantity_ok q →
  head (free_indices_ (orderPool_ b)) = Some h → orders_ b !! id = None →
  Q (enter h (Order.new ty id s p q) b).

Lemma kept_step b b' : WF b → Q b → match_step b b' → Q b'.
Proof.
  intros Hwf HQ Hstep.
  destruct Hstep as [pb pa bid ask bt bm at_ am ob oa Hb Ha Hob Hoa Hcross].
  destruct (settle_facts b pb pa bid ask bt at_ bm am ob oa Hwf Hb Ha Hob Hoa)
    as (Hne & Hsb & Hpb & Hsa & Hpa).
  assert (Hlb : bid ∈ live b).
  { apply elem_live. exists Buy, pb. simpl. rewrite Hb.
    apply at_level_cons. left. split; [done|left]. }
  assert (Hla : ask ∈ live b).
  { apply elem_live. exists Sell, pa. simpl. rewrite Ha.
    apply at_level_cons. left. split; [done|left]. }
  set (q := N.min (remainingQuantity_ ob) (remainingQuantity_ oa)).
  set (ob' := with_remaining (remainingQuantity_ ob - q)%N ob).
  set (oa' := with_remaining (remainingQuantity_ oa - q)%N oa).
  set (b1 := store bid ob' b). set (b2 := store ask oa' b1).
  assert (Hwf1 : WF b1) by (eapply WF_store; [done..|by repeat split]).
  assert (HQ1 : Q b1).
  { eapply Q_store; [done..|by repeat split|simpl; lia]. }
  assert (Hoa1 : slot b1 ask = Some oa) by by (unfold b1; rewrite slot_store_ne).
  assert (Hwf2 : WF b2) by (eapply WF_store; [done..|by repeat split]).
  assert (HQ2 : Q b2).
  { eapply Q_store; [done..|by repeat split|simpl; lia]. }
  assert (Hob2 : slot b2 bid = Some ob').
  { unfold b2. rewrite slot_store_ne by done. unfold b1.
    by eapply slot_store_eq. }
  assert (Hoa2 : slot b2 ask = Some oa') by (by eapply slot_store_eq).
  unfold settle. fold q ob' oa' b1 b2.
  apply Q_trades.
  destruct (Order.IsFilled ob') eqn:Hfb.
  - assert (Hwf3 : WF (retire bid ob' b2)) by by apply WF_retire.
    assert (HQ3 : Q (retire bid ob' b2)) by by apply Q_retire.
    destruct (Order.IsFilled oa'); [|done].
    apply Q_retire; [done..|].
    pose proof (live_retire bid ob' b2 Hwf2 Hob2 Hlb) as Hperm.
    assert (Hin : ask ∈ live b2) by done.
    rewrite Hperm in Hin. apply elem_of_cons in Hin as [?|?]; [congruence|done].
  - destruct (Order.IsFilled oa'); [|done]. by apply Q_retire.
Qed.

Lemma kept_swept s b : WF b → Q b → Q (swept s b).
Proof.
  intros Hwf HQ. unfold swept.
  destruct (side_map s b) as [|[p [|h l]] m] eqn:Hm; try done.
  destruct (slot b h) as [o|] eqn:Ho; [|done].
  destruct (orderType_ o); [done|].
  apply Q_retire; [done..|]. apply elem_live. exists s, p. rewrite Hm.
  apply at_level_cons. left. split; [done|left].
Qed.

Lemma kept_MatchOrders b trades b' :
  WF b → Q b → MatchOrders b = Ok (trades, b') → Q b'.
Proof.
  intros Hwf HQ.
  destruct (MatchOrders_run Q kept_step b Hwf (Q_trades [] b HQ))
    as (b1 & Hwf1 & HQ1 & _ & ->).
  intros [= _ <-]. apply kept_swept; [by apply swept_WF|].
  by apply kept_swept.
Qed.

Lemma kept_CancelOrder id b b' : WF b → Q b → CancelOrder id b = Ok b' → Q b'.
Proof.
  intros Hwf HQ. destruct (orders_ b !! id) as [h|] eqn:Hid.
  - destruct (CancelOrder_retire id h b Hwf Hid) as (o & Ho & _ & Hl & ->).
    intros [= <-]. by apply Q_retire.
  - rewrite CancelOrder_absent by done. by intros [= <-].
Qed.

Lemma kept_AddOrder ty id s p q b trades b' :
  WF b → Q b → OrderId_ok id → Price_ok p → Quantity_ok q →
  AddOrder ty id s p q b = Ok (trades, b') → Q b'.
Proof.
  intros Hwf HQ Hid Hp Hq.
  destruct (orders_ b !! id) as [h0|] eqn:Hfresh.
  { rewrite AddOrder_duplicate by done. intros [= _ <-]. by apply Q_trades. }
  destruct (decide (ty = FillAndKill ∧ CanMatch s p b = false)) as [[-> Hc]|Hc].
  { rewrite AddOrder_dropped by done. by intros [= _ <-]. }
  assert (Hcan : ty = FillAndKill → CanMatch s p b = true).
  { intros ->. destruct (CanMatch s p b); [done|]. by destruct Hc. }
  destruct (free_indices_ (orderPool_ b)) as [|h rest] eqn:Hf.
  { by rewrite AddOrder_exhausted. }
  assert (Hh : head (free_indices_ (orderPool_ b)) = Some h) by by rewrite Hf.
  rewrite (AddOrder_enter ty id s p q b h) by done.
  apply kept_MatchOrders.
  - by apply WF_enter.
  - by apply Q_enter.
Qed.

Lemma kept_MatchOrder order b trades b' :
  WF b → Q b → OrderId_ok (om_orderId order) → Price_ok (om_price order) →
  Quantity_ok (om_quantity order) →
  MatchOrder order b = Ok (trades, b') → Q b'.
Proof.
  intros Hwf HQ Hid Hp Hq. unfold MatchOrder.
  destruct (orders_ b !! om_orderId order) as [h|] eqn:Hh.
  - intros (o & _ & (b1 & Hc & Hadd)%bind_Ok)%bind_Ok.
    eapply kept_AddOrder; [| |done..].
    + by eapply CancelOrder_WF.
    + by eapply kept_CancelOrder.
  - by intros [= _ <-].
Qed.

Lemma kept_run_event e b trades b' :
  WF b → Q b → event_ok e → run_event e b = Ok (trades, b') → Q b'.
Proof.
  intros Hwf HQ. destruct e as [ty id s p q|id|order]; simpl.
  - intros (? & ? & ?). by apply kept_AddOrder.
  - intros _ (b0 & Hc & [= _ <-])%bind_Ok. by eapply kept_CancelOrder.
  - intros (? & ? & ?). by apply kept_MatchOrder.
Qed.

Lemma kept_reachable b : Q OrderBook_new → reachable b → Q b.
Proof.
  intros Hnew. induction 1 as [|b e trades b' Hr IH Hok Hrun]; [done|].
  eapply kept_run_event; [|done..]. by apply reachable_Inv.
Qed.

End Kept.

Lemma accounted_with n : accounted (OrderBook_with n).
Proof.
  unfold accounted, OrderBook_with, ObjectPool.new, live. simpl.
  rewrite length_reverse, length_seq, length_replicate. lia.
Qed.

Lemma accounted_reachable b : reachable b → accounted b.
Proof.
  apply kept_reachable.
  - intros t b0 Hacc. exact Hacc.
  - intros h o o' b0 _ Hacc _ _ _ _. unfold accounted, store in *. simpl.
    by rewrite length_insert.
  - intros h o b0 Hwf Hacc Ho Hl. unfold accounted in *.
    rewrite (live_retire h o b0 Hwf Ho Hl) in Hacc. simpl in *. lia.
  - intros ty id s p q h b0 Hwf Hacc _ _ _ Hh _. unfold accounted in *.
    rewrite live_enter. simpl. rewrite length_insert.
    destruct (free_indices_ (orderPool_ b0)); simpl in *; [done|lia].
  - apply accounted_with.
Qed.

Lemma capacity_with n : length (pool_ (orderPool_ (OrderBook_with n))) = n.
Proof. unfold OrderBook_with, ObjectPool.new. simpl. apply length_replicate. Qed.

Lemma capacity_reachable b :
  reachable b → length (pool_ (orderPool_ b)) = POOL_SIZE.
Proof.
  apply (kept_reachable (λ b, length (pool_ (orderPool_ b)) = POOL_SIZE)).
  - intros t b0 H. exact H.
  - intros h o o' b0 _ H _ _ _ _. unfold store. simpl. by rewrite length_insert.
  - intros h o b0 _ H _ _. exact H.
  - intros ty id s p q h b0 _ H _ _ _ _ _. unfold enter. simpl.
    by rewrite length_insert.
  - apply capacity_with.
Qed.

Lemma Order_ok_same o o' :
  Order_ok o → same_order o o' →
  (remainingQuantity_ o' ≤ remainingQuantity_ o)%N → Order_ok o'.
Proof.
  intros (Hle & Hq & Hp & Hid) (_ & Eid & _ & Ep & Ei) Hr.
  unfold Order_ok. rewrite Eid, Ep, Ei. split_and!; [lia|done..].
Qed.

Lemma orders_ok_reachable b : reachable b → orders_ok b.
Proof.
  apply kept_reachable.
  - intros t b0 H. exact H.
  - intros h o o' b0 _ H Ho _ Hsame Hle x ox Hx Hox.
    rewrite live_store in Hx.
    destruct (decide (x = h)) as [->|Hne].
    + rewrite (slot_store_eq _ _ _ _ Ho) in Hox. injection Hox as <-.
      eapply Order_ok_same; [|done..]. by eapply H.
    + rewrite slot_store_ne in Hox by done. by eapply H.
  - intros h o b0 _ H _ _ x ox Hx Hox.
    rewrite slot_retire in Hox. eapply H; [|done].
    by eapply live_retire_sub.
  - intros ty id s p q h b0 Hwf H Hid Hp Hq Hh _ x ox Hx Hox.
    rewrite (slot_enter b0 h _ Hwf Hh) in Hox.
    apply elem_live_enter in Hx.
    destruct (decide (x = h)) as [->|Hne].
    + injection Hox as <-. unfold Order_ok. simpl. split_and!; [lia|done..].
    + destruct Hx as [?|Hx]; [done|]. by eapply H.
  - by intros h o ?%elem_of_nil.
Qed.

(** The index and the linked orders are in bijection. *)
Lemma WF_index_live b h :
  WF b → h ∈ live b ↔ ∃ id, orders_ b !! id = Some h.
Proof.
  intros Hwf. split.
  - intros (o & _ & _ & Hid)%(wf_live_slot b Hwf). eauto.
  - intros [id Hid]. by apply (wf_index b Hwf id).
Qed.

Lemma WF_size b : WF b → size (orders_ b) = length (live b).
Proof.
  intros Hwf. rewrite <- length_map_to_list.
  rewrite <- (length_fmap snd). apply Permutation_length.
  apply NoDup_Permutation.
  - apply NoDup_fmap_2_strong; [|apply NoDup_map_to_list].
    intros [id1 h1] [id2 h2] H1%elem_of_map_to_list H2%elem_of_map_to_list.
    simpl. intros <-.
    destruct (wf_index b Hwf id1 h1 H1) as (_ & o1 & Ho1 & E1).
    destruct (wf_index b Hwf id2 h1 H2) as (_ & o2 & Ho2 & E2).
    congruence.
  - apply (wf_live_NoDup b Hwf).
  - intros h. rewrite (WF_index_live b h Hwf). rewrite list_elem_of_fmap. split.
    + intros ([id h'] & -> & H%elem_of_map_to_list). eauto.
    + intros [id Hid]. exists (id, h). split; [done|].
      by apply elem_of_map_to_list.
Qed.

Lemma WF_id_unique b h h' o o' :
  WF b → h ∈ live b → h' ∈ live b → slot b h = Some o → slot b h' = Some o' →
  orderId_ o = orderId_ o' → h = h'.
Proof.
  intros Hwf Hl Hl' Ho Ho' Heq.
  destruct (wf_live_slot b Hwf h Hl) as (o1 & Ho1 & _ & Hid1).
  destruct (wf_live_slot b Hwf h' Hl') as (o2 & Ho2 & _ & Hid2).
  congruence.
Qed.

(** A reachable book is full exactly when its free stack is empty. *)
Lemma pool_size_free b :
  reachable b →
  (size (orders_ b) = POOL_SIZE → free_indices_ (orderPool_ b) = [])
  ∧ (free_indices_ (orderPool_ b) = [] → size (orders_ b) = POOL_SIZE).
Proof.
  intros Hr.
  pose proof (capacity_reachable b Hr) as Hcap.
  pose proof (accounted_reachable b Hr) as Hacc.
  pose proof (WF_size b (inv_wf b (reachable_Inv b Hr))) as Hsize.
  unfold accounted in Hacc. rewrite Hcap, <- Hsize in Hacc.
  generalize dependent POOL_SIZE. intros n _ Hacc.
  split.
  - intros Hn. destruct (free_indices_ (orderPool_ b)); [done|].
    simpl in Hacc. lia.
  - intros Hf. rewrite Hf in Hacc. simpl in Hacc. lia.
Qed.

Lemma GetFilledQuantity_exact o :
  (remainingQuantity_ o ≤ initialQuantity_ o)%N →
  Quantity_ok (initialQuantity_ o) →
  (Order.GetFilledQuantity o + remainingQuantity_ o = initialQuantity_ o)%N.
Proof.
  unfold Order.GetFilledQuantity, Quantity_ok. intros Hle Hq.
  replace (initialQuantity_ o + Quantity_modulus - remainingQuantity_ o)%N
    with ((initialQuantity_ o - remainingQuantity_ o)
          + 1 * Quantity_modulus)%N by lia.
  rewrite N.Div0.mod_add, N.mod_small by lia. lia.
Qed.

(** ** An order that does not cross *)

Lemma push_find_ne s k h m k' :
  k' ≠ k → PriceMap.find k' (push (side_comp s) k h m) = PriceMap.find k' m.
Proof.
  intros Hne. induction m as [|[k0 l] m IH].
  - rewrite push_nil. simpl. by rewrite decide_False.
  - rewrite (push_cons _ (side_comp_irrefl s) (side_comp_total s)).
    destruct (side_comp s k k0) eqn:H1.
    + simpl. by rewrite (decide_False (P := k = k')).
    + destruct (side_comp s k0 k) eqn:H2.
      * simpl. by rewrite IH.
      * assert (k0 = k) as -> by by apply side_comp_total with s.
        simpl. by rewrite !(decide_False (P := k = k')).
Qed.

Lemma unlink_snoc h l : h ∉ l → OrderList.unlink h (l ++ [h]) = Some l.
Proof.
  induction l as [|x l IH]; intros Hh; simpl.
  - by rewrite decide_True.
  - apply not_elem_of_cons in Hh as [Hne Hh].
    rewrite decide_False by done. by rewrite IH.
Qed.

(** Unlinking the order that was pushed last gives the map back. *)
Lemma drop_push s k h m :
  sorted (side_comp s) m → no_empty_level m → h ∉ handles m →
  drop k h (push (side_comp s) k h m) = m.
Proof.
  induction m as [|[k' l] m IH]; intros Hs Hne Hh.
  - rewrite push_nil, drop_cons. rewrite decide_True by done.
    rewrite unlink_front. done.
  - rewrite handles_cons in Hh. apply not_elem_of_app in Hh as [Hhl Hhm].
    apply Forall_cons in Hne as [Hl Hne]. simpl in Hl.
    rewrite (push_cons _ (side_comp_irrefl s) (side_comp_total s)).
    destruct (side_comp s k k') eqn:H1.
    + rewrite drop_cons. rewrite decide_True by done. by rewrite unlink_front.
    + destruct (side_comp s k' k) eqn:H2.
      * assert (k' ≠ k) by (intros ->; by rewrite side_comp_irrefl in H2).
        rewrite drop_cons. rewrite decide_False by done. f_equal. apply IH; [|done..].
        unfold sorted in *. simpl in Hs.
        by apply StronglySorted_inv in Hs as [? _].
      * assert (k' = k) as -> by by apply side_comp_total with s.
        rewrite drop_cons. rewrite decide_True by done.
        rewrite unlink_snoc by done. by destruct l.
Qed.

(** The loops leave a book whose best prices do not cross as it is. *)
Lemma match_loop_quiet fuel b : quiet b → match_loop (S fuel) b = Ok b.
Proof.
  intros Hq. rewrite match_loop_S. unfold quiet in Hq.
  destruct (bids_ b) as [|[pb lb] bm]; [done|].
  destruct (asks_ b) as [|[pa la] am]; [done|].
  destruct (Z.ltb_spec pb pa); [done|lia].
Qed.

Lemma uncrossed_quiet b : uncrossed b → quiet b.
Proof.
  intros Hu. unfold quiet.
  destruct (bids_ b) as [|[pb lb] bm] eqn:Hb; [done|].
  destruct (asks_ b) as [|[pa la] am] eqn:Ha; [done|].
  apply Hu; [rewrite Hb|rewrite Ha]; left.
Qed.

(** The sweep leaves a book without FillAndKill orders as it is. *)
Lemma swept_no_fak_id s b : no_fak b → swept s b = b.
Proof.
  intros Hn. unfold swept.
  destruct (side_map s b) as [|[p [|h l]] m] eqn:Hm; [done..|].
  destruct (slot b h) as [o|] eqn:Ho; [|done].
  rewrite (Hn h o); [done| |done].
  apply elem_live. exists s, p. rewrite Hm. apply at_level_cons. left.
  split; [done|left].
Qed.

(** The best price of the other side decides [CanMatch]. *)
Lemma CanMatch_false_keys s p b x :
  WF b → CanMatch s p b = false → x ∈ (side_map (opposite s) b).*1 →
  side_comp s x p = true.
Proof.
  intros Hwf Hc Hx. pose proof (wf_sorted b Hwf (opposite s)) as Hs.
  unfold CanMatch in Hc. destruct s; simpl in *.
  - destruct (asks_ b) as [|[pa la] am]; [by apply elem_of_nil in Hx|].
    simpl in Hx. unfold PriceMap.greater.
    apply elem_of_cons in Hx as [->|Hx]; [lia|].
    pose proof (sorted_head _ _ _ _ _ Hs Hx) as Hlt.
    unfold PriceMap.less in Hlt. lia.
  - destruct (bids_ b) as [|[pb lb] bm]; [by apply elem_of_nil in Hx|].
    simpl in Hx. unfold PriceMap.less.
    apply elem_of_cons in Hx as [->|Hx]; [lia|].
    pose proof (sorted_head _ _ _ _ _ Hs Hx) as Hgt.
    unfold PriceMap.greater in Hgt. lia.
Qed.

Lemma uncrossed_enter h o b :
  WF b → uncrossed b → CanMatch (side_ o) (price_ o) b = false →
  uncrossed (enter h o b).
Proof.
  intros Hwf Hu Hc pb pa Hpb Hpa.
  change (bids_ (enter h o b)) with (side_map Buy (enter h o b)) in Hpb.
  change (asks_ (enter h o b)) with (side_map Sell (enter h o b)) in Hpa.
  rewrite side_map_enter in Hpb, Hpa.
  destruct (side_ o) eqn:Hs.
  - rewrite decide_True in Hpb by done. rewrite decide_False in Hpa by done.
    apply side_push_keys in Hpb as [->|Hpb]; [|by apply Hu].
    pose proof (CanMatch_false_keys Buy (price_ o) b pa Hwf Hc Hpa) as H.
    simpl in H. unfold PriceMap.greater in H. lia.
  - rewrite decide_False in Hpb by done. rewrite decide_True in Hpa by done.
    apply side_push_keys in Hpa as [->|Hpa]; [|by apply Hu].
    pose proof (CanMatch_false_keys Sell (price_ o) b pb Hwf Hc Hpb) as H.
    simpl in H. unfold PriceMap.less in H. lia.
Qed.

Lemma no_fak_enter h o b :
  WF b → head (free_indices_ (orderPool_ b)) = Some h →
  no_fak b → orderType_ o = GoodTillCancel → no_fak (enter h o b).
Proof.
  intros Hwf Hh Hn Hty x ox Hx. rewrite (slot_enter b h o Hwf Hh).
  case_decide as Hxh; [by intros [= <-]|].
  apply elem_live_enter in Hx as [?|Hx]; [done|]. by apply Hn.
Qed.

(** A GoodTillCancel order that [CanMatch] refuses is entered, and
    nothing else happens. *)
Lemma AddOrder_rests id s p q b h :
  Inv b → orders_ b !! id = None → CanMatch s p b = false →
  head (free_indices_ (orderPool_ b)) = Some h →
  AddOrder GoodTillCancel id s p q b =
    Ok ([], set_trades [] (enter h (Order.new GoodTillCancel id s p q) b)).
Proof.
  intros [Hwf Hu Hn Hz] Hid Hc Hh.
  rewrite (AddOrder_enter _ id s p q b h) by done.
  set (o := Order.new GoodTillCancel id s p q).
  pose proof (WF_enter h o b Hwf Hh Hid) as Hwf0.
  pose proof (uncrossed_enter h o b Hwf Hu Hc) as Hu0.
  pose proof (no_fak_enter h o b Hwf Hh Hn eq_refl) as Hn0.
  rewrite (MatchOrders_swept _ (set_trades [] (enter h o b))).
  - rewrite (swept_no_fak_id Buy) by exact Hn0.
    by rewrite (swept_no_fak_id Sell) by exact Hn0.
  - done.
  - apply match_loop_quiet. by apply uncrossed_quiet.
  - by apply WF_set_trades.
Qed.

(** ** The new book *)

Lemma OrderBook_new_sides :
  bids_ OrderBook_new = [] ∧ asks_ OrderBook_new = []
  ∧ orders_ OrderBook_new = ∅ ∧ trades_ OrderBook_new = [].
Proof. by unfold OrderBook_new, OrderBook_with. Qed.

Lemma OrderBook_new_Size : Size OrderBook_new = 0.
Proof.
  unfold Size. destruct OrderBook_new_sides as (_ & _ & -> & _).
  apply map_size_empty.
Qed.

Lemma OrderBook_new_CanMatch s p : CanMatch s p OrderBook_new = false.
Proof.
  unfold CanMatch. destruct OrderBook_new_sides as (-> & -> & _).
  by destruct s.
Qed.

Lemma POOL_SIZE_pos : 0 < POOL_SIZE.
Proof. unfold POOL_SIZE. lia. Qed.

Lemma retire_enter h o t b :
  WF b → head (free_indices_ (orderPool_ b)) = Some h →
  orders_ b !! orderId_ o = None →
  retire h o (set_trades t (enter h o b)) =
    mkBook (bids_ b) (asks_ b) (orders_ b) t
      (mkPool (<[h := o]> (pool_ (orderPool_ b)))
              (free_indices_ (orderPool_ b))).
Proof.
  intros Hwf Hh Hid.
  destruct (enter_fresh b h Hwf Hh) as [_ Hnl].
  assert (Hside : ∀ s, drop (price_ o) h
            (push (side_comp s) (price_ o) h (side_map s b)) = side_map s b).
  { intros s. apply drop_push; [apply Hwf..|].
    intros Hin. apply Hnl. apply elem_live.
    apply elem_handles in Hin as [p Hp]. eauto. }
  pose proof (Hside Buy) as HB. pose proof (Hside Sell) as HS.
  unfold retire, enter. simpl in *.
  rewrite delete_insert_id by done.
  destruct (free_indices_ (orderPool_ b)) as [|h' rest]; [done|].
  injection Hh as ->. simpl.
  destruct (side_ o); simpl.
  - by rewrite HB.
  - by rewrite HS.
Qed.

(** ** What a cancel removes *)

Lemma filter_ne_id (h : OrderPointer) (l : list OrderPointer) :
  h ∉ l → filter (λ x, x ≠ h) l = l.
Proof.
  induction l as [|x l IH]; intros Hh; [done|].
  apply not_elem_of_cons in Hh as [Hne Hh].
  rewrite filter_cons_True by done. by rewrite IH.
Qed.

Lemma unlink_filter h l :
  NoDup l → h ∈ l → OrderList.unlink h l = Some (filter (λ x, x ≠ h) l).
Proof.
  induction l as [|x l IH]; intros Hnd Hh; [by apply elem_of_nil in Hh|].
  apply NoDup_cons in Hnd as [Hx Hnd]. simpl.
  destruct (decide (x = h)) as [->|Hne].
  - rewrite filter_cons_False by (intros ?; done).
    by rewrite filter_ne_id.
  - apply elem_of_cons in Hh as [?|Hh]; [done|].
    rewrite filter_cons_True by done. by rewrite IH.
Qed.

Lemma empty_nil l : OrderList.empty l = true → l = [].
Proof. by destruct l. Qed.

Lemma handles_level_elem p l m h :
  (p, l) ∈ m → h ∈ l → h ∈ handles m.
Proof. intros Hl Hh. apply elem_handles. exists p, l. done. Qed.

(** Unlinking [h] filters it out of its level and leaves the other
    levels as they are. *)
Lemma drop_find_filter k h m p :
  NoDup m.*1 → NoDup (handles m) → at_level m k h →
  default [] (PriceMap.find p (drop k h m))
  = filter (λ x, x ≠ h) (default [] (PriceMap.find p m)).
Proof.
  induction m as [|[k' l] m IH]; intros Hk Hnd Hat.
  { by apply at_level_nil in Hat. }
  simpl in Hk. apply NoDup_cons in Hk as [Hk' Hk].
  rewrite handles_cons in Hnd. apply NoDup_app in Hnd as (Hl & Hdisj & Hm).
  assert (Hother : h ∈ l → ∀ p',
    filter (λ x, x ≠ h) (default [] (PriceMap.find p' m))
    = default [] (PriceMap.find p' m)).
  { intros Hh p'. apply filter_ne_id.
    destruct (PriceMap.find p' m) as [l'|] eqn:Hf; simpl.
    - intros Hin. eapply Hdisj; [done|].
      eapply handles_level_elem; [|done]. by eapply find_elem.
    - by intros ?%elem_of_nil. }
  rewrite drop_cons. apply at_level_cons in Hat.
  destruct (decide (k' = k)) as [->|Hne].
  - destruct Hat as [[_ Hh]|Hat]; [|by apply at_level_key in Hat].
    rewrite (unlink_filter h l) by done.
    destruct (OrderList.empty _) eqn:He.
    + simpl. destruct (decide (k = p)) as [->|Hkp]; simpl.
      * assert (PriceMap.find p m = None) as -> by by apply find_None.
        simpl. symmetry. exact (empty_nil _ He).
      * by rewrite Hother.
    + simpl. destruct (decide (k = p)) as [->|Hkp]; simpl; [done|].
      by rewrite Hother.
  - destruct Hat as [[? _]|Hat]; [done|].
    simpl. destruct (decide (k' = p)) as [->|Hkp]; simpl.
    + rewrite filter_ne_id; [done|]. intros Hh. eapply Hdisj; [done|].
      by apply elem_handles; eauto.
    + by apply IH.
Qed.

Lemma map_size_delete_S (m : gmap OrderId OrderPointer) i x :
  m !! i = Some x → S (size (delete i m)) = size m.
Proof.
  intros Hi. rewrite <- (insert_delete_id m i x Hi) at 2.
  rewrite map_size_insert_None; [done|]. apply lookup_delete_eq.
Qed.

Lemma WF_handles_NoDup s b : WF b → NoDup (handles (side_map s b)).
Proof.
  intros Hwf. pose proof (wf_live_NoDup b Hwf) as Hnd. unfold live in Hnd.
  apply NoDup_app in Hnd as (Hb & _ & Ha). by destruct s.
Qed.

(** What [retire] leaves of the levels. *)
Lemma retire_find_filter h o b s p :
  WF b → slot b h = Some o → h ∈ live b →
  default [] (PriceMap.find p (side_map s (retire h o b)))
  = filter (λ x, x ≠ h) (default [] (PriceMap.find p (side_map s b))).
Proof.
  intros Hwf Ho Hl.
  destruct (wf_live_slot b Hwf h Hl) as (o' & Ho' & Hat & _).
  assert (o' = o) as -> by congruence.
  rewrite side_map_retire. case_decide as Hs.
  - subst s. apply drop_find_filter; [|by apply WF_handles_NoDup|done].
    apply side_sorted_NoDup with (side_ o). apply Hwf.
  - symmetry. apply filter_ne_id.
    destruct (PriceMap.find p (side_map s b)) as [l|] eqn:Hf; simpl.
    + intros Hin. apply find_elem in Hf.
      assert (Hat' : at_level (side_map s b) p h) by by exists l.
      by destruct (wf_at_level_unique b Hwf _ _ _ _ _ Hat Hat').
    + by intros ?%elem_of_nil.
Qed.

(** ** [CanMatch] *)

Lemma CanMatch_crosses s p b :
  WF b →
  CanMatch s p b = true
  ↔ ∃ h o, h ∈ live b ∧ slot b h = Some o ∧ side_ o = opposite s
           ∧ crosses s p (price_ o).
Proof.
  intros Hwf. split.
  - intros Hc.
    assert (∃ k l m, side_map (opposite s) b = (k, l) :: m ∧ crosses s p k)
      as (k & l & m & Hm & Hk).
    { unfold CanMatch in Hc. destruct s; simpl in *.
      - destruct (asks_ b) as [|[pa la] am]; [done|].
        exists pa, la, am. split; [done|]. lia.
      - destruct (bids_ b) as [|[pb lb] bm]; [done|].
        exists pb, lb, bm. split; [done|]. lia. }
    pose proof (wf_no_empty b Hwf (opposite s)) as Hne.
    rewrite Hm in Hne. apply Forall_cons in Hne as [Hl _]. simpl in Hl.
    destruct l as [|x l]; [done|].
    assert (Hat : at_level (side_map (opposite s) b) k x).
    { rewrite Hm. apply at_level_cons. left. split; [done|left]. }
    destruct (wf_linked b Hwf _ _ _ Hat) as (o & Ho & Hs & Hp & _).
    exists x, o. split_and!; [apply elem_live; eauto|done..|by rewrite Hp].
  - intros (h & o & Hl & Ho & Hs & Hcr).
    destruct (wf_live_slot b Hwf h Hl) as (o' & Ho' & Hat & _).
    assert (o' = o) as -> by congruence.
    rewrite Hs in Hat. apply at_level_key in Hat.
    pose proof (wf_sorted b Hwf (opposite s)) as Hsort.
    unfold CanMatch. destruct s; simpl in *.
    + destruct (asks_ b) as [|[pa la] am]; [by apply elem_of_nil in Hat|].
      simpl in Hat. apply elem_of_cons in Hat as [<-|Hat]; [lia|].
      pose proof (sorted_head _ _ _ _ _ Hsort Hat) as Hlt.
      unfold PriceMap.less in Hlt. lia.
    + destruct (bids_ b) as [|[pb lb] bm]; [by apply elem_of_nil in Hat|].
      simpl in Hat. apply elem_of_cons in Hat as [<-|Hat]; [lia|].
      pose proof (sorted_head _ _ _ _ _ Hsort Hat) as Hgt.
      unfold PriceMap.greater in Hgt. lia.
Qed.

(** ** The trades of a new order *)

Lemma traded_snoc ts t :
  traded (ts ++ [t]) = (traded ts + ti_quantity (bidTrade_ t))%N.
Proof.
  induction ts as [|t' ts IH]; simpl; [lia|].
  unfold traded in *. simpl. rewrite IH. lia.
Qed.

Lemma side_comp_lt s x y :
  side_comp s y x = true ↔ match s with Buy => (x < y)%Z | Sell => (y < x)%Z end.
Proof.
  destruct s; simpl; unfold PriceMap.greater, PriceMap.less; lia.
Qed.

Section Taker.

Context (e : OrderBook) (h : OrderPointer) (o : Order) (q : Quantity).
Hypothesis He : slot e h = Some o.

Let id := orderId_ o.
Let s := side_ o.
Let p := price_ o.

Lemma taker_step b b' :
  WF b → taker_inv e h id s p q b → match_step b b' →
  taker_inv e h id s p q b'.
Proof.
  intros Hwf (Hd & Ht & Hst & Hsh) Hstep.
  pose proof (descends_step e b b' Hwf Hd Hstep) as Hd'.
  destruct Hstep as [pb pa bid ask bt bm at_ am ob oa Hb Ha Hob Hoa Hcross].
  destruct (settle_facts b pb pa bid ask bt at_ bm am ob oa Hwf Hb Ha Hob Hoa)
    as (Hne & Hsb & Hpb & Hsa & Hpa).
  pose proof (settle_trades b pb pa bid ask bt at_ bm am ob oa Hwf Hb Ha Hob Hoa)
    as Htr.
  pose proof (settle_bids b pb pa bid ask bt at_ bm am ob oa Hwf Hb Ha Hob Hoa)
    as Hbids.
  pose proof (settle_asks b pb pa bid ask bt at_ bm am ob oa Hwf Hb Ha Hob Hoa)
    as Hasks.
  pose proof (settle_slot b bid ask ob oa Hob Hoa) as Hslot.
  pose proof (settle_live b pb pa bid ask bt at_ bm am ob oa Hwf Hb Ha Hob Hoa)
    as Hlive.
  set (b1 := settle bid ask ob oa b) in *.
  set (qt := N.min (remainingQuantity_ ob) (remainingQuantity_ oa)) in *.
  assert (Hlb : bid ∈ live b).
  { apply elem_live. exists Buy, pb. simpl. rewrite Hb.
    apply at_level_cons. left. split; [done|left]. }
  assert (Hla : ask ∈ live b).
  { apply elem_live. exists Sell, pa. simpl. rewrite Ha.
    apply at_level_cons. left. split; [done|left]. }
  (* the book is crossed, so [h] is at the front of its side *)
  destruct Hsh as [Hu|(m & Hm & Hrest)].
  { exfalso. assert (pb < pa)%Z; [|lia].
    apply Hu; [rewrite Hb|rewrite Ha]; left. }
  (* the maker: the front of the other side *)
  assert (Hmaker : ∀ hm om, hm ∈ live b → slot b hm = Some om → hm ≠ h →
    ∃ om0, orders_ e !! orderId_ om = Some hm ∧ slot e hm = Some om0
           ∧ side_ om0 = side_ om ∧ price_ om0 = price_ om
           ∧ (remainingQuantity_ om ≤ remainingQuantity_ om0)%N).
  { intros hm om Hl Hom _.
    destruct Hd as [Hsub Hsl].
    destruct (Hsl hm om Hl Hom) as (om0 & Hom0 & (_ & _ & Es & Ep & _) & Hle).
    destruct (wf_live_slot b Hwf hm Hl) as (om' & Hom' & _ & Hid).
    assert (om' = om) as -> by congruence.
    exists om0. split_and!; [|done..].
    by eapply lookup_weaken. }
  (* the taker: what the slot of [h] holds *)
  assert (Htaker : ∀ oh, slot b h = Some oh → h ∈ live b →
    orderId_ oh = id ∧ price_ oh = p ∧ side_ oh = s).
  { intros oh Hoh Hl. destruct Hd as [_ Hsl].
    destruct (Hsl h oh Hl Hoh) as (o0 & Ho0 & (_ & Eid & Es & Ep & _) & _).
    assert (o0 = o) as -> by congruence. done. }
  unfold taker_inv. split; [done|].
  destruct s eqn:Hs; simpl in Hm, Hrest.
  - (* the new order buys: it is the bid of this pass *)
    rewrite Hb in Hm. injection Hm as -> -> -> ->.
    destruct (Htaker ob Hob Hlb) as (Eid & Ep & _).
    destruct (Hmaker ask oa Hla Hoa) as (om0 & Hidm & Hom0 & Esm & Epm & Hlem);
      [done|].
    assert (Hq1 : (qt ≤ remainingQuantity_ ob)%N) by apply N.le_min_l.
    assert (Hq2 : (qt ≤ remainingQuantity_ oa)%N) by apply N.le_min_r.
    split_and!.
    + rewrite Htr. apply Forall_app. split; [done|]. constructor; [|done].
      unfold trade_with. simpl. split_and!; [done..|].
      exists ask, om0. split_and!; try done; [congruence|congruence|lia].
    + rewrite Htr, traded_snoc. simpl.
      destruct Hst as [(_ & o' & Ho' & Hsum)|[Hnl _]]; [|done].
      assert (o' = ob) as -> by congruence.
      destruct (remainingQuantity_ ob - qt =? 0)%N eqn:Hf.
      * right. apply N.eqb_eq in Hf. split; [|lia].
        intros Hin%Hlive. destruct Hin as (_ & Hc & _).
        specialize (Hc eq_refl). congruence.
      * left. split.
        { apply Hlive. split_and!; [done|done|]. intros ->. done. }
        eexists. split.
        { rewrite Hslot. rewrite decide_False by done.
          by rewrite decide_True. }
        simpl. lia.
    + cbn [side_map opposite].
      assert (Hsub : ∀ y, y ∈ (asks_ b1).*1 → y ∈ (asks_ b).*1).
      { intros y. rewrite Hasks, Ha.
        destruct (remainingQuantity_ oa - qt =? 0)%N;
          [destruct (OrderList.empty at_)|]; simpl;
          rewrite ?elem_of_cons; tauto. }
      destruct (remainingQuantity_ ob - qt =? 0)%N eqn:Hf.
      * left. intros x y Hx Hy. rewrite Hbids in Hx. simpl in Hx.
        apply (side_comp_lt Buy). apply Hrest; [done|]. by apply Hsub.
      * right. exists m. rewrite Hbids. split; [done|]. intros x y Hx Hy.
        apply Hrest; [done|]. by apply Hsub.
  - (* the new order sells: it is the ask of this pass *)
    rewrite Ha in Hm. injection Hm as -> -> -> ->.
    destruct (Htaker oa Hoa Hla) as (Eid & Ep & _).
    destruct (Hmaker bid ob Hlb Hob) as (om0 & Hidm & Hom0 & Esm & Epm & Hlem);
      [done|].
    assert (Hq1 : (qt ≤ remainingQuantity_ ob)%N) by apply N.le_min_l.
    assert (Hq2 : (qt ≤ remainingQuantity_ oa)%N) by apply N.le_min_r.
    split_and!.
    + rewrite Htr. apply Forall_app. split; [done|]. constructor; [|done].
      unfold trade_with. simpl. split_and!; [done..|].
      exists bid, om0. split_and!; try done; [congruence|congruence|lia].
    + rewrite Htr, traded_snoc. simpl.
      destruct Hst as [(_ & o' & Ho' & Hsum)|[Hnl _]]; [|done].
      assert (o' = oa) as -> by congruence.
      destruct (remainingQuantity_ oa - qt =? 0)%N eqn:Hf.
      * right. apply N.eqb_eq in Hf. split; [|lia].
        intros Hin%Hlive. destruct Hin as (_ & _ & Hc).
        specialize (Hc eq_refl). congruence.
      * left. split.
        { apply Hlive. split_and!; [done| |done]. intros ->. done. }
        eexists. split.
        { rewrite Hslot. by rewrite decide_True. }
        simpl. lia.
    + cbn [side_map opposite].
      assert (Hsub : ∀ y, y ∈ (bids_ b1).*1 → y ∈ (bids_ b).*1).
      { intros y. rewrite Hbids, Hb.
        destruct (remainingQuantity_ ob - qt =? 0)%N;
          [destruct (OrderList.empty bt)|]; simpl;
          rewrite ?elem_of_cons; tauto. }
      destruct (remainingQuantity_ oa - qt =? 0)%N eqn:Hf.
      * left. intros y x Hy Hx. rewrite Hasks in Hx. simpl in Hx.
        apply (side_comp_lt Sell). apply Hrest; [done|]. by apply Hsub.
      * right. exists m. rewrite Hasks. split; [done|]. intros x y Hx Hy.
        apply Hrest; [done|]. by apply Hsub.
Qed.

End Taker.

(** An order that [CanMatch] accepts goes to the front of its side. *)
Lemma enter_front h o b :
  uncrossed b → CanMatch (side_ o) (price_ o) b = true →
  side_map (side_ o) (enter h o b) = (price_ o, [h]) :: side_map (side_ o) b.
Proof.
  intros Hu Hcan. rewrite side_map_enter. decide_simpl.
  apply side_push_best. intros p Hp.
  unfold CanMatch in Hcan. destruct (side_ o); simpl in *.
  - destruct (asks_ b) as [|[pa la] am] eqn:Ha; [done|].
    assert (p < pa)%Z by (apply Hu; [done|rewrite Ha; left]).
    unfold PriceMap.greater. lia.
  - destruct (bids_ b) as [|[pb lb] bm] eqn:Hb; [done|].
    assert (pb < p)%Z by (apply Hu; [rewrite Hb; left|done]).
    unfold PriceMap.less. lia.
Qed.

Lemma enter_opposite h o b :
  side_map (opposite (side_ o)) (enter h o b)
  = side_map (opposite (side_ o)) b.
Proof.
  rewrite side_map_enter. rewrite decide_False; [done|]. by destruct (side_ o).
Qed.

Lemma taker_enter h o b :
  Inv b → head (free_indices_ (orderPool_ b)) = Some h →
  taker_inv (enter h o b) h (orderId_ o) (side_ o) (price_ o)
    (remainingQuantity_ o) (set_trades [] (enter h o b)).
Proof.
  intros [Hwf Hu Hn Hz] Hh. split_and!.
  - exact (descends_refl (enter h o b)).
  - constructor.
  - left. split.
    + change (h ∈ live (enter h o b)). apply elem_live_enter. by left.
    + exists o. split.
      * change (slot (enter h o b) h = Some o).
        rewrite (slot_enter b h o Hwf Hh). by rewrite decide_True.
      * simpl. unfold traded. simpl. lia.
  - destruct (CanMatch (side_ o) (price_ o) b) eqn:Hc.
    + right. exists (side_map (side_ o) b). split.
      * change (side_map (side_ o) (enter h o b)
                = (price_ o, [h]) :: side_map (side_ o) b).
        by apply enter_front.
      * intros x y Hx Hy.
        change (y ∈ (side_map (opposite (side_ o)) (enter h o b)).*1) in Hy.
        rewrite enter_opposite in Hy. apply side_comp_lt.
        destruct (side_ o); simpl in *; by apply Hu.
    + left. exact (uncrossed_enter h o b Hwf Hu Hc).
Qed.

(** The sweep leaves the slots as they are, and unlinks FillAndKill
    orders only. *)
Lemma slot_swept s b x : slot (swept s b) x = slot b x.
Proof.
  unfold swept. destruct (side_map s b) as [|[p [|h l]] m]; [done..|].
  destruct (slot b h) as [o|]; [|done].
  destruct (orderType_ o); [done|]. apply slot_retire.
Qed.

Lemma live_swept_sub s b x : x ∈ live (swept s b) → x ∈ live b.
Proof.
  unfold swept. destruct (side_map s b) as [|[p [|h l]] m]; [done..|].
  destruct (slot b h) as [o|]; [|done].
  destruct (orderType_ o); [done|]. apply live_retire_sub.
Qed.

Lemma live_swept_gtc s b x o :
  WF b → x ∈ live b → slot b x = Some o → orderType_ o = GoodTillCancel →
  x ∈ live (swept s b).
Proof.
  intros Hwf Hx Ho Hty. unfold swept.
  destruct (side_map s b) as [|[p [|h l]] m] eqn:Hm; [done..|].
  destruct (slot b h) as [oh|] eqn:Hoh; [|done].
  destruct (orderType_ oh) eqn:Htyh; [done|].
  assert (Hl : h ∈ live b).
  { apply elem_live. exists s, p. rewrite Hm. apply at_level_cons. left.
    split; [done|left]. }
  pose proof (live_retire h oh b Hwf Hoh Hl) as Hperm.
  rewrite Hperm in Hx. apply elem_of_cons in Hx as [->|Hx]; [|done].
  congruence.
Qed.

(** [MatchOrders] after the entry of an order: the loops stop with the
    state of [taker_inv], and the sweeps follow. *)
Lemma MatchOrders_taker h o b :
  Inv b → head (free_indices_ (orderPool_ b)) = Some h →
  orders_ b !! orderId_ o = None →
  ∃ b1, WF b1 ∧ quiet b1
    ∧ taker_inv (enter h o b) h (orderId_ o) (side_ o) (price_ o)
        (remainingQuantity_ o) b1
    ∧ MatchOrders (enter h o b) =
        Ok (trades_ b1, swept Sell (swept Buy b1)).
Proof.
  intros HI Hh Hid. pose proof (inv_wf b HI) as Hwf.
  pose proof (WF_enter h o b Hwf Hh Hid) as Hwf0.
  assert (He : slot (enter h o b) h = Some o).
  { rewrite (slot_enter b h o Hwf Hh). by rewrite decide_True. }
  destruct (MatchOrders_run _
              (taker_step (enter h o b) h o (remainingQuantity_ o) He)
              (enter h o b) Hwf0 (taker_enter h o b HI Hh))
    as (b1 & Hwf1 & HP1 & Hq1 & Hrun).
  exists b1. split_and!; [done..|].
  by rewrite Hrun, !swept_trades.
Qed.

(** The two ways in which [AddOrder] returns for a new id. *)
Lemma AddOrder_taker ty id s p q b trades b' :
  Inv b → orders_ b !! id = None →
  AddOrder ty id s p q b = Ok (trades, b') →
  (ty = FillAndKill ∧ CanMatch s p b = false ∧ trades = [] ∧ b' = b)
  ∨ ∃ h b1,
      head (free_indices_ (orderPool_ b)) = Some h
      ∧ (ty = FillAndKill → CanMatch s p b = true)
      ∧ WF b1 ∧ quiet b1
      ∧ taker_inv (enter h (Order.new ty id s p q) b) h id s p q b1
      ∧ trades = trades_ b1 ∧ b' = swept Sell (swept Buy b1).
Proof.
  intros HI Hid Hadd. pose proof (inv_wf b HI) as Hwf.
  destruct (decide (ty = FillAndKill ∧ CanMatch s p b = false)) as [[-> Hc]|Hc].
  { left. rewrite AddOrder_dropped in Hadd by done. by injection Hadd as <- <-. }
  assert (Hcan : ty = FillAndKill → CanMatch s p b = true).
  { intros ->. destruct (CanMatch s p b); [done|]. by destruct Hc. }
  destruct (free_indices_ (orderPool_ b)) as [|h rest] eqn:Hf.
  { by rewrite AddOrder_exhausted in Hadd. }
  assert (Hh : head (free_indices_ (orderPool_ b)) = Some h) by by rewrite Hf.
  right. rewrite <- Hf in *.
  rewrite (AddOrder_enter ty id s p q b h) in Hadd by done.
  destruct (MatchOrders_taker h (Order.new ty id s p q) b HI Hh Hid)
    as (b1 & Hwf1 & Hq1 & HP1 & Hrun).
  rewrite Hrun in Hadd. injection Hadd as <- <-.
  exists h, b1. done.
Qed.

(** ** Further runs on a new book *)

Section Runs.

Context (pool : list Order) (h1 h2 h3 : OrderPointer) (rest : list nat).
Hypothesis H12 : h1 ≠ h2.
Hypothesis H13 : h1 ≠ h3.
Hypothesis H23 : h2 ≠ h3.
Hypothesis Hlt1 : h1 < length pool.
Hypothesis Hlt2 : h2 < length pool.
Hypothesis Hlt3 : h3 < length pool.

Let b0 := mkBook [] [] ∅ [] (mkPool pool (h1 :: h2 :: h3 :: rest)).

(** [trace_priority], with the index before and after the sell. *)
Lemma run_priority_index :
  ∃ b1 b2 b3,
    AddOrder GoodTillCancel 1%N Buy 100%Z 5%N b0 = Ok ([], b1)
    ∧ AddOrder GoodTillCancel 2%N Buy 100%Z 5%N b1 = Ok ([], b2)
    ∧ orders_ b2 !! 3%N = None
    ∧ AddOrder GoodTillCancel 3%N Sell 100%Z 7%N b2 =
        Ok ([mkTrade (mkTradeInfo 1%N 100%Z 5%N) (mkTradeInfo 3%N 100%Z 5%N);
             mkTrade (mkTradeInfo 2%N 100%Z 2%N) (mkTradeInfo 3%N 100%Z 2%N)],
            b3)
    ∧ orders_ b3 !! 3%N = None
    ∧ bids_ b3 = [(100%Z, [h2])] ∧ asks_ b3 = [].
Proof.
  unfold b0. eexists _, _, _.
  split; [book_run; reflexivity|].
  split; [book_run; reflexivity|].
  split; [simpl; by pool_simpl|].
  split; [book_run; reflexivity|].
  split; [simpl; by pool_simpl|].
  split; reflexivity.
Qed.

(** A bid of 5 at 100, then a sell of nothing at 100: a trade of
    nothing. *)
Lemma run_zero_cross :
  ∃ b1 b2,
    AddOrder GoodTillCancel 1%N Buy 100%Z 5%N b0 = Ok ([], b1)
    ∧ orders_ b1 !! 2%N = None
    ∧ AddOrder GoodTillCancel 2%N Sell 100%Z 0%N b1 =
        Ok ([mkTrade (mkTradeInfo 1%N 100%Z 0%N) (mkTradeInfo 2%N 100%Z 0%N)],
            b2)
    ∧ bids_ b2 = [(100%Z, [h1])] ∧ asks_ b2 = []
    ∧ orders_ b2 !! 2%N = None.
Proof.
  unfold b0. eexists _, _.
  split; [book_run; reflexivity|].
  split; [simpl; by pool_simpl|].
  split; [book_run; reflexivity|].
  split; [reflexivity|]. split; [reflexivity|].
  simpl; by pool_simpl.
Qed.

(** An ask at 101, then an ask at 100, then a bid of 7 at 101: the
    later ask, at the better price, trades first. *)
Lemma run_levels :
  ∃ b1 b2 b3,
    AddOrder GoodTillCancel 1%N Sell 101%Z 5%N b0 = Ok ([], b1)
    ∧ AddOrder GoodTillCancel 2%N Sell 100%Z 5%N b1 = Ok ([], b2)
    ∧ asks_ b2 = [(100%Z, [h2]); (101%Z, [h1])]
    ∧ orders_ b2 !! 3%N = None
    ∧ AddOrder GoodTillCancel 3%N Buy 101%Z 7%N b2 =
        Ok ([mkTrade (mkTradeInfo 3%N 101%Z 5%N) (mkTradeInfo 2%N 100%Z 5%N);
             mkTrade (mkTradeInfo 3%N 101%Z 2%N) (mkTradeInfo 1%N 101%Z 2%N)],
            b3)
    ∧ bids_ b3 = [] ∧ asks_ b3 = [(101%Z, [h1])].
Proof.
  unfold b0. eexists _, _, _.
  split; [book_run; reflexivity|].
  split; [book_run; reflexivity|].
  split; [reflexivity|].
  split; [simpl; by pool_simpl|].
  split; [book_run; reflexivity|].
  split; reflexivity.
Qed.

End Runs.

(** ** Whether a new order trades *)

Lemma enter_not_quiet h o b :
  uncrossed b → CanMatch (side_ o) (price_ o) b = true →
  ¬ quiet (enter h o b).
Proof.
  intros Hu Hc Hq.
  pose proof (enter_front h o b Hu Hc) as Hf.
  pose proof (enter_opposite h o b) as Ho.
  unfold quiet in Hq. unfold CanMatch in Hc.
  destruct (side_ o); simpl in *.
  - rewrite Hf, Ho in Hq.
    destruct (asks_ b) as [|[pa la] am]; [done|]. lia.
  - rewrite Hf, Ho in Hq.
    destruct (bids_ b) as [|[pb lb] bm]; [done|]. lia.
Qed.

(** If the entered order crosses, the loops make a trade. *)
Lemma MatchOrders_trades h o b trades b' :
  Inv b → head (free_indices_ (orderPool_ b)) = Some h →
  orders_ b !! orderId_ o = None →
  CanMatch (side_ o) (price_ o) b = true →
  MatchOrders (enter h o b) = Ok (trades, b') → trades ≠ [].
Proof.
  intros [Hwf Hu Hn Hz] Hh Hid Hc.
  pose proof (WF_enter h o b Hwf Hh Hid) as Hwf0.
  set (e := enter h o b) in *.
  set (P := λ b0, trades_ b0 ≠ []
                  ∨ (bids_ b0 = bids_ e ∧ asks_ b0 = asks_ e)).
  destruct (MatchOrders_run P) with (b := e)
    as (b1 & Hwf1 & HP1 & Hq1 & ->); [|done|by right|].
  { intros b0 b0' Hwfb _ Hstep. left.
    destruct Hstep as [pb pa bid ask bt bm at_ am ob oa Hb Ha Hob Hoa Hcross].
    rewrite (settle_trades b0 pb pa bid ask bt at_ bm am ob oa) by done.
    intros Hnil. by apply app_eq_nil in Hnil as [_ ?]. }
  intros [= <- _]. rewrite !swept_trades.
  destruct HP1 as [?|[Eb Ea]]; [done|].
  exfalso. apply (enter_not_quiet h o b Hu Hc).
  unfold quiet in *. fold e. by rewrite <- Eb, <- Ea.
Qed.

(** ** The order of the trades *)

Lemma settle_keys_sub b pb pa bid ask bt at_ bm am ob oa :
  WF b → bids_ b = (pb, bid :: bt) :: bm → asks_ b = (pa, ask :: at_) :: am →
  slot b bid = Some ob → slot b ask = Some oa →
  (∀ x, x ∈ (bids_ (settle bid ask ob oa b)).*1 → x ∈ (bids_ b).*1)
  ∧ (∀ y, y ∈ (asks_ (settle bid ask ob oa b)).*1 → y ∈ (asks_ b).*1).
Proof.
  intros Hwf Hb Ha Hob Hoa.
  rewrite (settle_bids b pb pa bid ask bt at_ bm am ob oa) by done.
  rewrite (settle_asks b pb pa bid ask bt at_ bm am ob oa) by done.
  rewrite Hb, Ha. split.
  - intros x.
    destruct (remainingQuantity_ ob - _ =? 0)%N;
      [destruct (OrderList.empty bt)|]; simpl; rewrite ?elem_of_cons; tauto.
  - intros y.
    destruct (remainingQuantity_ oa - _ =? 0)%N;
      [destruct (OrderList.empty at_)|]; simpl; rewrite ?elem_of_cons; tauto.
Qed.

Lemma best_first_step b b' :
  WF b → best_first b → match_step b b' → best_first b'.
Proof.
  intros Hwf [Hs Hall] Hstep.
  destruct Hstep as [pb pa bid ask bt bm at_ am ob oa Hb Ha Hob Hoa Hcross].
  destruct (settle_keys_sub b pb pa bid ask bt at_ bm am ob oa Hwf Hb Ha Hob Hoa)
    as [Hsb Hsa].
  pose proof (settle_trades b pb pa bid ask bt at_ bm am ob oa Hwf Hb Ha Hob Hoa)
    as Htr.
  assert (Hbest_a : ∀ y, y ∈ (asks_ b).*1 → (pa ≤ y)%Z).
  { intros y Hy. pose proof (wf_sorted b Hwf Sell) as Hsort. simpl in Hsort.
    rewrite Ha in Hy, Hsort. simpl in Hy.
    apply elem_of_cons in Hy as [->|Hy]; [lia|].
    pose proof (sorted_head _ _ _ _ _ Hsort Hy) as Hlt.
    unfold PriceMap.less in Hlt. lia. }
  assert (Hbest_b : ∀ x, x ∈ (bids_ b).*1 → (x ≤ pb)%Z).
  { intros x Hx. pose proof (wf_sorted b Hwf Buy) as Hsort. simpl in Hsort.
    rewrite Hb in Hx, Hsort. simpl in Hx.
    apply elem_of_cons in Hx as [->|Hx]; [lia|].
    pose proof (sorted_head _ _ _ _ _ Hsort Hx) as Hgt.
    unfold PriceMap.greater in Hgt. lia. }
  assert (Hpa : pa ∈ (asks_ b).*1) by (rewrite Ha; left).
  assert (Hpb : pb ∈ (bids_ b).*1) by (rewrite Hb; left).
  split.
  - rewrite Htr. apply StronglySorted_app_2; [|done|repeat constructor].
    intros t t' Ht ->%list_elem_of_singleton.
    destruct (Hall t Ht) as [H1 H2]. split; simpl; [by apply H1|by apply H2].
  - intros t. rewrite Htr, elem_of_app, list_elem_of_singleton.
    intros [Ht| ->].
    + destruct (Hall t Ht) as [H1 H2]. split.
      * intros y Hy. by apply H1, Hsa.
      * intros x Hx. by apply H2, Hsb.
    + simpl. split.
      * intros y Hy. by apply Hbest_a, Hsa.
      * intros x Hx. by apply Hbest_b, Hsb.
Qed.

Lemma best_first_swept s b : best_first b → best_first (swept s b).
Proof.
  intros [Hs Hall]. unfold swept.
  destruct (side_map s b) as [|[p [|h l]] m]; [done..|].
  destruct (slot b h) as [o|]; [|done].
  destruct (orderType_ o); [done|].
  split; [done|]. intros t Ht. destruct (Hall t Ht) as [H1 H2]. split.
  - intros y Hy. apply H1. by apply (keys_retire_sub Sell h o b).
  - intros x Hx. apply H2. by apply (keys_retire_sub Buy h o b).
Qed.

Lemma MatchOrders_best_first b trades b' :
  WF b → MatchOrders b = Ok (trades, b') →
  trades = trades_ b' ∧ best_first b'.
Proof.
  intros Hwf.
  destruct (MatchOrders_run best_first best_first_step b Hwf)
    as (b1 & Hwf1 & HP1 & _ & ->).
  { split; [constructor|]. by intros t ?%elem_of_nil. }
  intros [= <- <-]. split; [done|]. by do 2 apply best_first_swept.
Qed.

(** ** The queues keep their order *)

Lemma pop_suffix k (x : OrderPointer) t m p :
  k ∉ m.*1 →
  default [] (PriceMap.find p (if OrderList.empty t then m else (k, t) :: m))
  `suffix_of` default [] (PriceMap.find p ((k, x :: t) :: m)).
Proof.
  intros Hk. simpl. destruct (decide (k = p)) as [->|Hne].
  - destruct t as [|y t]; simpl.
    + assert (PriceMap.find p m = None) as -> by by apply find_None.
      apply suffix_nil.
    + rewrite decide_True by done. simpl. by apply suffix_cons_r.
  - destruct t as [|y t]; simpl; [done|]. by rewrite decide_False.
Qed.

Lemma step_suffix b b' s p :
  WF b → match_step b b' →
  default [] (PriceMap.find p (side_map s b'))
  `suffix_of` default [] (PriceMap.find p (side_map s b)).
Proof.
  intros Hwf Hstep.
  destruct Hstep as [pb pa bid ask bt bm at_ am ob oa Hb Ha Hob Hoa Hcross].
  pose proof (side_sorted_NoDup Buy _ (wf_sorted b Hwf Buy)) as Hkb.
  pose proof (side_sorted_NoDup Sell _ (wf_sorted b Hwf Sell)) as Hka.
  simpl in Hkb, Hka. rewrite Hb in Hkb. rewrite Ha in Hka.
  apply NoDup_cons in Hkb as [Hkb _]. apply NoDup_cons in Hka as [Hka _].
  destruct s; cbn [side_map].
  - rewrite (settle_bids b pb pa bid ask bt at_ bm am ob oa) by done.
    rewrite Hb. destruct (remainingQuantity_ ob - _ =? 0)%N; [|done].
    by apply pop_suffix.
  - rewrite (settle_asks b pb pa bid ask bt at_ bm am ob oa) by done.
    rewrite Ha. destruct (remainingQuantity_ oa - _ =? 0)%N; [|done].
    by apply pop_suffix.
Qed.

Lemma swept_suffix s0 b s p :
  WF b →
  default [] (PriceMap.find p (side_map s (swept s0 b)))
  `suffix_of` default [] (PriceMap.find p (side_map s b)).
Proof.
  intros Hwf. unfold swept.
  destruct (side_map s0 b) as [|[p0 [|h l]] m] eqn:Hm; [done..|].
  assert (Hat : at_level (side_map s0 b) p0 h).
  { rewrite Hm. apply at_level_cons. left. split; [done|left]. }
  destruct (wf_linked b Hwf s0 p0 h Hat) as (o & Ho & Hs & Hp & _).
  rewrite Ho. destruct (orderType_ o); [done|].
  rewrite side_map_retire. rewrite Hs, Hp. case_decide as Hss; [|done].
  subst s. rewrite Hm, drop_front.
  apply pop_suffix.
  pose proof (side_sorted_NoDup s0 _ (wf_sorted b Hwf s0)) as Hk.
  rewrite Hm in Hk. simpl in Hk. by apply NoDup_cons in Hk as [? _].
Qed.

Lemma MatchOrders_suffix b trades b' s p :
  WF b → MatchOrders b = Ok (trades, b') →
  default [] (PriceMap.find p (side_map s b'))
  `suffix_of` default [] (PriceMap.find p (side_map s b)).
Proof.
  intros Hwf.
  set (P := λ b0, ∀ s p, default [] (PriceMap.find p (side_map s b0))
                `suffix_of` default [] (PriceMap.find p (side_map s b))).
  destruct (MatchOrders_run P) with (b := b)
    as (b1 & Hwf1 & HP1 & _ & ->); [|done|by intros ??|].
  { intros b0 b0' Hwf0 HP0 Hstep s' p'.
    etrans; [by apply step_suffix|apply HP0]. }
  intros [= _ <-].
  etrans; [apply swept_suffix; by apply swept_WF|].
  etrans; [by apply swept_suffix|apply HP1].
Qed.

(** * The intrusive list *)

Section IntrusiveLinks.

Import Intrusive.

Lemma assign_lookup a v (m : gmap OrderPointer OrderPointer) x :
  assign a v m !! x = if decide (x = a) then v else m !! x.
Proof.
  unfold assign. destruct v as [y|].
  - rewrite lookup_insert. repeat case_decide; congruence.
  - rewrite lookup_delete. repeat case_decide; congruence.
Qed.

Ltac links_simpl :=
  cbn [set_prev set_next prev_ next_ head_ tail_ size_ fst snd];
  rewrite ?assign_lookup.

Lemma prev_set_prev a v k x :
  prev_ (set_prev a v k) !! x = if decide (x = a) then v else prev_ k !! x.
Proof. apply assign_lookup. Qed.

Lemma next_set_next a v k x :
  next_ (set_next a v k) !! x = if decide (x = a) then v else next_ k !! x.
Proof. apply assign_lookup. Qed.

Lemma next_set_prev a v k : next_ (set_prev a v k) = next_ k.
Proof. done. Qed.

Lemma prev_set_next a v k : prev_ (set_next a v k) = prev_ k.
Proof. done. Qed.

Lemma seg_next_head k p x xs n :
  seg k p (x :: xs) n → next_ k !! x = from_option Some n (head xs).
Proof. intros (_ & Hn & _). by destruct xs. Qed.

Lemma seg_app k p xs ys n :
  seg k p (xs ++ ys) n
  ↔ seg k p xs (from_option Some n (head ys))
    ∧ seg k (from_option Some p (last xs)) ys n.
Proof.
  revert p. induction xs as [|x xs IH]; intros p; simpl; [tauto|].
  rewrite IH. destruct xs as [|y xs]; simpl.
  - destruct ys; simpl; tauto.
  - destruct (last (y :: xs)) eqn:E; simpl; [tauto|].
    by apply last_None in E.
Qed.

Lemma seg_frame k k' p xs n :
  (∀ x, x ∈ xs → prev_ k' !! x = prev_ k !! x ∧ next_ k' !! x = next_ k !! x) →
  seg k p xs n → seg k' p xs n.
Proof.
  revert p. induction xs as [|x xs IH]; intros p Hsame; simpl; [done|].
  intros (Hp & Hn & Hs). destruct (Hsame x) as [-> ->]; [left|].
  split_and!; [done..|]. apply IH; [|done].
  intros y Hy. apply Hsame. by right.
Qed.

(** The link behind the last order of a segment set anew. *)
Lemma seg_set_end k k' p xs n n' :
  NoDup xs → seg k p xs n →
  (∀ x, x ∈ xs → prev_ k' !! x = prev_ k !! x) →
  (∀ x, x ∈ xs → last xs ≠ Some x → next_ k' !! x = next_ k !! x) →
  (∀ t, last xs = Some t → next_ k' !! t = n') →
  seg k' p xs n'.
Proof.
  revert p. induction xs as [|x xs IH]; intros p Hnd; simpl; [done|].
  apply NoDup_cons in Hnd as [Hx Hnd].
  intros (Hp & Hn & Hs) Hprev Hnext Hlast.
  split_and!.
  - rewrite Hprev; [done|left].
  - destruct xs as [|y xs]; [by apply Hlast|].
    rewrite Hnext; [done|left|].
    rewrite last_cons_cons. intros Hl%last_Some_elem_of. done.
  - destruct xs as [|y xs]; [done|].
    apply IH; [done..| | |].
    + intros z Hz. apply Hprev. by right.
    + intros z Hz Hl. apply Hnext; [by right|]. by rewrite last_cons_cons.
    + intros t Ht. apply Hlast. by rewrite last_cons_cons.
Qed.

(** The link before the first order of a segment set anew. *)
Lemma seg_set_start k k' p p' xs n :
  NoDup xs → seg k p xs n →
  (∀ x, x ∈ xs → next_ k' !! x = next_ k !! x) →
  (∀ x, x ∈ xs → head xs ≠ Some x → prev_ k' !! x = prev_ k !! x) →
  (∀ h, head xs = Some h → prev_ k' !! h = p') →
  seg k' p' xs n.
Proof.
  destruct xs as [|x xs]; simpl; [done|].
  intros [Hx Hnd]%NoDup_cons (Hp & Hn & Hs) Hnext Hprev Hhead.
  split_and!.
  - by apply Hhead.
  - rewrite Hnext; [done|left].
  - eapply seg_frame; [|done]. intros y Hy. split.
    + apply Hprev; [by right|]. intros [= ->]. done.
    + apply Hnext. by right.
Qed.

Lemma size_succ n :
  ((N.of_nat n mod size_modulus + 1) mod size_modulus
   = N.of_nat (n + 1) mod size_modulus)%N.
Proof.
  rewrite N.Div0.add_mod_idemp_l. f_equal. lia.
Qed.

Lemma size_pred n :
  ((N.of_nat (S n) mod size_modulus + size_modulus - 1) mod size_modulus
   = N.of_nat n mod size_modulus)%N.
Proof.
  assert (0 < size_modulus)%N by (unfold size_modulus; lia).
  rewrite <- N.add_sub_assoc by lia.
  rewrite N.Div0.add_mod_idemp_l.
  replace (N.of_nat (S n) + (size_modulus - 1))%N
    with (N.of_nat n + 1 * size_modulus)%N by lia.
  by rewrite N.Div0.mod_add.
Qed.

Lemma represents_frame k k' l ys :
  represents k l ys →
  (∀ y, y ∈ ys →
     prev_ k' !! y = prev_ k !! y ∧ next_ k' !! y = next_ k !! y) →
  represents k' l ys.
Proof.
  intros (Hh & Ht & Hs & Hnd & Hseg) Hsame.
  split_and!; [done..|]. by eapply seg_frame.
Qed.

Lemma push_back_represents k l xs order :
  represents k l xs → order ∉ xs →
  ∃ k' l',
    push_back order k l = Ok (k', l')
    ∧ represents k' l' (xs ++ [order])
    ∧ ∀ x, x ∉ xs → x ≠ order →
        prev_ k' !! x = prev_ k !! x ∧ next_ k' !! x = next_ k !! x.
Proof.
  intros (Hh & Ht & Hs & Hnd & Hseg) Hnew. unfold push_back.
  destruct xs as [|x0 xs0] eqn:Hxs.
  - simpl in Hh, Ht. rewrite Hh. cbn [mbind result_bind].
    eexists _, _. split; [done|]. split.
    + split_and!; links_simpl; [done|done| |apply NoDup_singleton|].
      * rewrite Hs. apply (size_succ 0).
      * cbn [seg app]. links_simpl. by rewrite !decide_True.
    + intros x _ Hx. links_simpl. by rewrite !decide_False.
  - rewrite <- Hxs in *.
    assert (∃ t, last xs = Some t) as [t Hlast].
    { destruct (last xs) eqn:E; [eauto|]. apply last_None in E. congruence. }
    assert (Hhx : head xs = Some x0) by by rewrite Hxs.
    clear Hxs xs0.
    rewrite Hh, Hhx, Ht, Hlast. cbn [mbind result_bind].
    eexists _, _. split; [done|].
    assert (Htin : t ∈ xs) by by apply last_Some_elem_of.
    assert (Hto : t ≠ order) by (intros ->; done).
    split.
    + split_and!; links_simpl.
      * by rewrite head_app, Hhx.
      * by rewrite last_snoc.
      * rewrite Hs, length_app. apply size_succ.
      * apply NoDup_app. split_and!; [done| |apply NoDup_singleton].
        intros x Hx ->%list_elem_of_singleton. done.
      * apply seg_app. cbn [head from_option]. rewrite Hlast.
        cbn [from_option]. split.
        -- eapply (seg_set_end k); [done..| | |].
           ++ intros x Hx. links_simpl.
              rewrite decide_False by (intros ->; done). done.
           ++ intros x Hx Hl. links_simpl.
              rewrite decide_False by (intros ->; done).
              rewrite decide_False by congruence. done.
           ++ intros t' Ht'. assert (t' = t) as -> by congruence.
              links_simpl. rewrite decide_False by done.
              by rewrite decide_True.
        -- cbn [seg]. links_simpl. by rewrite !decide_True.
    + intros x Hx Hxo. links_simpl.
      rewrite !decide_False by done.
      rewrite decide_False; [done|]. intros ->. done.
Qed.

(** What [remove] does to the links and to the ends of the list, from
    the two links of the order. *)
Lemma remove_links k l order P Nx :
  prev_ k !! order = P → next_ k !! order = Nx →
  P ≠ Some order → Nx ≠ Some order →
  (∀ x, x ≠ order →
     prev_ (remove order k l).1 !! x
     = if decide (Nx = Some x) then P else prev_ k !! x)
  ∧ (∀ x, x ≠ order →
       next_ (remove order k l).1 !! x
       = if decide (P = Some x) then Nx else next_ k !! x)
  ∧ prev_ (remove order k l).1 !! order = None
  ∧ next_ (remove order k l).1 !! order = None
  ∧ head_ (remove order k l).2
    = match P with None => Nx | Some _ => head_ l end
  ∧ tail_ (remove order k l).2
    = match Nx with None => P | Some _ => tail_ l end
  ∧ size_ (remove order k l).2
    = ((size_ l + size_modulus - 1) mod size_modulus)%N.
Proof.
  intros HP HN HPo HNo. unfold remove. rewrite HP, HN.
  destruct P as [t|]; cbn beta iota zeta.
  - assert (Hto : t ≠ order) by congruence.
    assert (HN' : next_ (set_next t Nx k) !! order = Nx).
    { links_simpl. by rewrite decide_False. }
    rewrite HN'. cbn [prev_ set_next]. rewrite HP.
    destruct Nx as [s|]; cbn beta iota zeta.
    + assert (Hso : s ≠ order) by congruence.
      split_and!; try (intros x Hx); links_simpl;
        repeat case_decide; congruence.
    + split_and!; try (intros x Hx); links_simpl;
        repeat case_decide; congruence.
  - rewrite HN, HP. destruct Nx as [s|]; cbn beta iota zeta.
    + assert (Hso : s ≠ order) by congruence.
      split_and!; try (intros x Hx); links_simpl;
        repeat case_decide; congruence.
    + split_and!; try (intros x Hx); links_simpl;
        repeat case_decide; congruence.
Qed.

Lemma from_option_Some {A} (o : option A) : from_option Some None o = o.
Proof. by destruct o. Qed.

Lemma head_elem {A} (xs : list A) x : head xs = Some x → x ∈ xs.
Proof. destruct xs; [done|]. intros [= ->]. left. Qed.

Lemma last_elem {A} (xs : list A) x : last xs = Some x → x ∈ xs.
Proof.
  intros H. apply last_Some in H as [l' ->].
  apply elem_of_app. right. left.
Qed.

Lemma head_app_nil {A} (xs ys : list A) :
  head (xs ++ ys) = match head xs with Some x => Some x | None => head ys end.
Proof. by destruct xs. Qed.

Lemma last_app_nil {A} (xs ys : list A) :
  last (xs ++ ys) = match last ys with Some x => Some x | None => last xs end.
Proof.
  destruct (last ys) eqn:E.
  - apply last_Some in E as [l' ->]. by rewrite app_assoc, last_snoc.
  - apply last_None in E as ->. by rewrite app_nil_r.
Qed.

Lemma remove_represents k l xs1 order xs2 :
  represents k l (xs1 ++ order :: xs2) →
  represents (remove order k l).1 (remove order k l).2 (xs1 ++ xs2)
  ∧ (∀ x, x ∉ xs1 ++ order :: xs2 →
       prev_ (remove order k l).1 !! x = prev_ k !! x
       ∧ next_ (remove order k l).1 !! x = next_ k !! x)
  ∧ prev_ (remove order k l).1 !! order = None
  ∧ next_ (remove order k l).1 !! order = None.
Proof.
  intros (Hh & Ht & Hs & Hnd & Hseg).
  apply NoDup_app in Hnd as (Hnd1 & Hdis & Hnd2).
  apply NoDup_cons in Hnd2 as (Ho2 & Hnd2).
  assert (Ho1 : order ∉ xs1).
  { intros Hin. apply (Hdis _ Hin). left. }
  assert (Hdis' : ∀ x, x ∈ xs1 → x ∉ xs2).
  { intros x Hin Hin2. apply (Hdis _ Hin). by right. }
  apply seg_app in Hseg as [Hseg1 Hseg2].
  cbn [head from_option] in Hseg1. rewrite from_option_Some in Hseg2.
  destruct Hseg2 as (HP & HN & Hseg2).
  assert (HN' : next_ k !! order = head xs2) by (rewrite HN; by destruct xs2).
  clear HN.
  assert (HPo : last xs1 ≠ Some order).
  { intros E. by apply last_elem in E. }
  assert (HNo : head xs2 ≠ Some order).
  { intros E. by apply head_elem in E. }
  destruct (remove_links k l order _ _ HP HN' HPo HNo)
    as (Hprev & Hnext & Hpo & Hno & Hhead & Htail & Hsize).
  split_and!; [|intros x Hx|done|done].
  - split_and!.
    + rewrite Hhead, Hh, !head_app_nil.
      destruct (last xs1) eqn:E.
      * destruct xs1; [done|]. done.
      * apply last_None in E. by rewrite E.
    + rewrite Htail, Ht, !last_app_nil.
      destruct xs2 as [|x2 xs2]; [done|].
      cbn [head]. change (last (order :: x2 :: xs2)) with (last (x2 :: xs2)).
      done.
    + rewrite Hsize, Hs, !length_app. cbn [length].
      replace (length xs1 + S (length xs2)) with (S (length xs1 + length xs2))
        by lia.
      apply size_pred.
    + apply NoDup_app. split_and!; [done|exact Hdis'|done].
    + apply seg_app. rewrite !from_option_Some. split.
      * apply (seg_set_end k _ None xs1 (Some order)); [done|done|..].
        -- intros x Hin. rewrite Hprev by (intros ->; done).
           rewrite decide_False; [done|].
           intros E. apply head_elem in E. by apply (Hdis' x).
        -- intros x Hin Hl. rewrite Hnext by (intros ->; done).
           by rewrite decide_False.
        -- intros t Hl. rewrite Hnext.
           ++ by rewrite decide_True.
           ++ intros ->. by apply last_elem in Hl.
      * apply (seg_set_start k _ (Some order) _ xs2 None); [done|done|..].
        -- intros x Hin. rewrite Hnext by (intros ->; done).
           rewrite decide_False; [done|].
           intros E. apply last_elem in E. by apply (Hdis' x).
        -- intros x Hin Hl. rewrite Hprev by (intros ->; done).
           by rewrite decide_False.
        -- intros h Hl. rewrite Hprev.
           ++ by rewrite decide_True.
           ++ intros ->. by apply head_elem in Hl.
  - assert (Hxo : x ≠ order).
    { intros ->. apply Hx, elem_of_app. right. left. }
    rewrite Hprev, Hnext by done.
    rewrite !decide_False; [done|..].
    + intros E. apply last_elem in E. apply Hx, elem_of_app. by left.
    + intros E. apply head_elem in E. apply Hx, elem_of_app. right. by right.
Qed.

Lemma unlink_middle (xs1 : list OrderPointer) order xs2 :
  order ∉ xs1 →
  OrderList.unlink order (xs1 ++ order :: xs2) = Some (xs1 ++ xs2).
Proof.
  induction xs1 as [|x xs1 IH]; intros Hn; simpl.
  - by rewrite decide_True.
  - apply not_elem_of_cons in Hn as [Hne Hn].
    rewrite decide_False by done. by rewrite IH.
Qed.

Lemma walk_seg k p xs fuel :
  seg k p xs None → length xs ≤ fuel → walk fuel k (head xs) = Ok xs.
Proof.
  revert p fuel. induction xs as [|x xs IH]; intros p fuel Hseg Hfuel.
  - by destruct fuel.
  - destruct fuel as [|fuel]; [simpl in Hfuel; lia|].
    destruct Hseg as (_ & Hn & Hseg). cbn [head walk incr].
    replace (next_ k !! x) with (head xs) by (rewrite Hn; by destruct xs).
    rewrite (IH (Some x) fuel Hseg) by (simpl in Hfuel; lia). done.
Qed.

Lemma represents_head_tail k l xs :
  represents k l xs → (head_ l = None ↔ xs = []) ∧ (tail_ l = None ↔ xs = []).
Proof.
  intros (Hh & Ht & _). rewrite Hh, Ht. split.
  - by destruct xs.
  - apply last_None.
Qed.

Lemma pop_front_represents k l xs :
  represents k l xs →
  represents (pop_front k l).1 (pop_front k l).2 (OrderList.pop_front xs)
  ∧ (∀ x, x ∉ xs →
       prev_ (pop_front k l).1 !! x = prev_ k !! x
       ∧ next_ (pop_front k l).1 !! x = next_ k !! x).
Proof.
  intros Hrep. pose proof Hrep as (Hh & _). unfold pop_front. rewrite Hh.
  destruct xs as [|x xs]; [done|]. cbn [head OrderList.pop_front tail].
  destruct (remove_represents k l [] x xs Hrep) as (Hrep' & Hframe & _).
  split; [exact Hrep'|exact Hframe].
Qed.

End IntrusiveLinks.

(** * The references that the operations return *)

Lemma ByRef_AddOrder_state ty id s p q b :
  ByRef.AddOrder ty id s p q b =
    ('(t, b') ← AddOrder ty id s p q b;
     Ok (match orders_ b !! id with
         | Some _ => ByRef.member
         | None => ByRef.temporary t
         end, b')).
Proof.
  unfold ByRef.AddOrder, AddOrder.
  destruct (orders_ b !! id) as [h|]; [done|].
  destruct (bool_decide (ty = FillAndKill) && negb (CanMatch s p b)); [done|].
  destruct (ObjectPool.acquire _ _) as [[order pl]|err]; [|done]. simpl.
  destruct (deref order _) as [o|err]; [|done]. simpl.
  by destruct (MatchOrders _) as [[t b']|err].
Qed.

Lemma ByRef_AddOrder_Ok ty id s p q b r b' :
  ByRef.AddOrder ty id s p q b = Ok (r, b') →
  ∃ t, AddOrder ty id s p q b = Ok (t, b')
       ∧ r = match orders_ b !! id with
             | Some _ => ByRef.member
             | None => ByRef.temporary t
             end.
Proof.
  rewrite ByRef_AddOrder_state.
  destruct (AddOrder ty id s p q b) as [[t b0]|err]; [|done]. simpl.
  intros [= <- <-]. by exists t.
Qed.

Lemma ByRef_AddOrder_of_state ty id s p q b t b' :
  AddOrder ty id s p q b = Ok (t, b') →
  ByRef.AddOrder ty id s p q b =
    Ok (match orders_ b !! id with
        | Some _ => ByRef.member
        | None => ByRef.temporary t
        end, b').
Proof. intros H. by rewrite ByRef_AddOrder_state, H. Qed.

Lemma ByRef_AddOrder_new ty id s p q b t b' :
  orders_ b !! id = None → AddOrder ty id s p q b = Ok (t, b') →
  ByRef.AddOrder ty id s p q b = Ok (ByRef.temporary t, b').
Proof.
  intros Hid H. rewrite (ByRef_AddOrder_of_state _ _ _ _ _ _ _ _ H).
  by rewrite Hid.
Qed.

(** After a call that reached [MatchOrders], the member [trades_]
    holds the trades of the call. *)
Lemma AddOrder_trades_member ty id s p q b trades b' :
  Inv b → orders_ b !! id = None →
  (ty = FillAndKill → CanMatch s p b = true) →
  AddOrder ty id s p q b = Ok (trades, b') → trades_ b' = trades.
Proof.
  intros HI Hid Hcan Hadd.
  destruct (AddOrder_taker ty id s p q b trades b' HI Hid Hadd)
    as [(-> & Hc & _)|(h & b1 & _ & _ & _ & _ & _ & -> & ->)].
  - rewrite Hcan in Hc; done.
  - by rewrite !swept_trades.
Qed.

(** A modify of an order of the book reads the destroyed temporary. *)
Lemma ByRef_MatchOrder_indexed order b h :
  Inv b → orders_ b !! om_orderId order = Some h →
  ByRef.MatchOrder order b = Err Undefined.
Proof.
  intros HI Hid.
  destruct (MatchOrder_result order b HI) as (trades & b' & Hrun & _).
  unfold MatchOrder in Hrun. unfold ByRef.MatchOrder. rewrite Hid in *.
  destruct (deref h b) as [o|err]; [|done]. simpl in *.
  destruct (CancelOrder (om_orderId order) b) as [b1|err] eqn:Hc; [|done].
  simpl in *. rewrite (ByRef_AddOrder_of_state _ _ _ _ _ _ _ _ Hrun).
  by rewrite (CancelOrder_erases _ _ _ Hc).
Qed.

Lemma ByRef_MatchOrder_absent order b :
  orders_ b !! om_orderId order = None → ByRef.MatchOrder order b = Ok ([], b).
Proof. intros Hid. unfold ByRef.MatchOrder. by rewrite Hid. Qed.


Lemma ByRef_run_event_of_state e b t b' :
  run_event e b = Ok (t, b') →
  (∀ order, e = EvModify order → orders_ b !! om_orderId order = None) →
  ByRef.run_event e b = Ok b'.
Proof.
  destruct e as [ty id s p q|id|order]; simpl; intros Hrun Hmod.
  - by rewrite (ByRef_AddOrder_of_state _ _ _ _ _ _ _ _ Hrun).
  - by apply bind_Ok in Hrun as (b0 & -> & [= _ <-]).
  - specialize (Hmod order eq_refl).
    rewrite (ByRef_MatchOrder_absent order b Hmod). simpl.
    unfold MatchOrder in Hrun. rewrite Hmod in Hrun. by injection Hrun as _ <-.
Qed.

(** * Price-time priority *)

Lemma omap_ext_elem {A B} (f g : A → option B) (l : list A) :
  (∀ x, x ∈ l → f x = g x) → omap f l = omap g l.
Proof.
  induction l as [|a l IH]; intros H; [done|]. simpl.
  assert (IH' : omap f l = omap g l).
  { apply IH. intros x Hx. apply H. by right. }
  rewrite (H a) by left. destruct (g a); [f_equal|]; exact IH'.
Qed.

Lemma omap_cons_Some {A B} (f : A → option B) x (l : list A) y :
  f x = Some y → omap f (x :: l) = y :: omap f l.
Proof. intros H. simpl. by rewrite H. Qed.

Lemma book_orders_cons s b p x l m ox :
  side_map s b = (p, x :: l) :: m → slot b x = Some ox →
  book_orders s b = ox :: omap (slot b) (l ++ handles m).
Proof.
  intros Hm Hx. unfold book_orders. rewrite Hm, handles_cons.
  by apply omap_cons_Some.
Qed.

Lemma priority_fills_cons s p q m makers :
  crossesb s p (price_ m) = true →
  priority_fills s p q (m :: makers)
  = (m, N.min (remainingQuantity_ m) q)
    :: (if (q - N.min (remainingQuantity_ m) q =? 0)%N then []
        else priority_fills s p (q - N.min (remainingQuantity_ m) q)%N makers).
Proof. intros H. simpl. by rewrite H. Qed.

Section Fills.

Context (e : OrderBook) (h : OrderPointer) (o : Order) (q : Quantity).
Hypothesis He : slot e h = Some o.

Let id := orderId_ o.
Let s := side_ o.
Let p := price_ o.

Lemma fills_step b b' :
  WF b → taker_inv e h id s p q b ∧ fills_inv e h id s p q b →
  match_step b b' →
  taker_inv e h id s p q b' ∧ fills_inv e h id s p q b'.
Proof.
  intros Hwf [Ht Hf] Hstep. split; [by eapply taker_step|].
  destruct Ht as (Hd & _ & _ & Hsh).
  destruct Hstep as [pb pa bid ask bt bm at_ am ob oa Hb Ha Hob Hoa Hcross].
  destruct (settle_facts b pb pa bid ask bt at_ bm am ob oa Hwf Hb Ha Hob Hoa)
    as (Hne & Hsb & Hpb & Hsa & Hpa).
  pose proof (settle_trades b pb pa bid ask bt at_ bm am ob oa Hwf Hb Ha Hob Hoa)
    as Htr.
  pose proof (settle_bids b pb pa bid ask bt at_ bm am ob oa Hwf Hb Ha Hob Hoa)
    as Hbids.
  pose proof (settle_asks b pb pa bid ask bt at_ bm am ob oa Hwf Hb Ha Hob Hoa)
    as Hasks.
  pose proof (settle_slot b bid ask ob oa Hob Hoa) as Hslot.
  pose proof (settle_live b pb pa bid ask bt at_ bm am ob oa Hwf Hb Ha Hob Hoa)
    as Hlive.
  pose proof (wf_live_NoDup b Hwf) as Hnd.
  unfold live in Hnd. rewrite Hb, Ha, !handles_cons in Hnd.
  set (b1 := settle bid ask ob oa b) in *.
  set (qt := N.min (remainingQuantity_ ob) (remainingQuantity_ oa)) in *.
  assert (Hlb : bid ∈ live b).
  { apply elem_live. exists Buy, pb. simpl. rewrite Hb.
    apply at_level_cons. left. split; [done|left]. }
  assert (Hla : ask ∈ live b).
  { apply elem_live. exists Sell, pa. simpl. rewrite Ha.
    apply at_level_cons. left. split; [done|left]. }
  destruct Hsh as [Hu|(m & Hm & _)].
  { exfalso. assert (pb < pa)%Z; [|lia].
    apply Hu; [rewrite Hb|rewrite Ha]; left. }
  assert (Htaker : ∀ oh, slot b h = Some oh → h ∈ live b → orderId_ oh = id).
  { intros oh Hoh Hl. destruct Hd as [_ Hsl].
    destruct (Hsl h oh Hl Hoh) as (o0 & Ho0 & (_ & Eid & _) & _).
    assert (o0 = o) as -> by congruence. done. }
  unfold fills_inv in Hf |- *.
  destruct s eqn:Hs; simpl in Hm; cbn [opposite] in *.
  - (* the new order buys: it is the bid of this pass *)
    rewrite Hb in Hm. injection Hm as -> -> -> ->.
    pose proof (Htaker ob Hob Hlb) as Eid.
    destruct Hf as [(_ & o' & Ho' & Heq)|[Hnl _]]; [|done].
    assert (o' = ob) as -> by congruence.
    rewrite (book_orders_cons Sell b pa ask at_ am oa Ha Hoa) in Heq.
    rewrite priority_fills_cons in Heq
      by (simpl; rewrite Hpa; by apply Z.leb_le).
    rewrite (N.min_comm (remainingQuantity_ oa)) in Heq. fold qt in Heq.
    assert (Htrade : trade_of Buy id p (oa, qt)
                     = mkTrade (mkTradeInfo (orderId_ ob) p qt)
                               (mkTradeInfo (orderId_ oa) pa qt)).
    { unfold trade_of. simpl. by rewrite Eid, Hpa. }
    destruct (remainingQuantity_ ob - qt =? 0)%N eqn:Hfill;
      rewrite ?Hfill in Heq; cbn [fmap list_fmap] in Heq;
      rewrite Htrade in Heq.
    + right. split.
      * intros Hin%Hlive. destruct Hin as (_ & Hc & _).
        specialize (Hc eq_refl). congruence.
      * by rewrite Heq, Htr.
    + left. split.
      { apply Hlive. split_and!; [done|done|]. intros ->. done. }
      eexists. split.
      { rewrite Hslot. rewrite decide_False by done. by rewrite decide_True. }
      rewrite Heq, Htr. cbn [remainingQuantity_ with_remaining].
      rewrite <- app_assoc. cbn [app]. do 3 f_equal.
      assert (Hqa : (remainingQuantity_ oa - qt =? 0)%N = true).
      { apply N.eqb_neq in Hfill. apply N.eqb_eq. unfold qt in *. lia. }
      unfold book_orders. cbn [side_map]. rewrite Hasks, Hqa.
      assert (Hsame : ∀ x, x ∈ at_ ++ handles am → slot b x = slot b1 x).
      { intros x Hx. rewrite Hslot.
        apply NoDup_app in Hnd as (_ & Hdis & Hnda).
        cbn [app] in Hnda. apply NoDup_cons in Hnda as [Hask _].
        rewrite decide_False by (intros ->; done).
        rewrite decide_False; [done|].
        intros ->. apply (Hdis h); [left|]. right. done. }
      f_equal. destruct (OrderList.empty at_) eqn:Hem.
      * rewrite (empty_nil _ Hem) in *. cbn [app] in *.
        by apply omap_ext_elem.
      * rewrite handles_cons. by apply omap_ext_elem.
  - (* the new order sells: it is the ask of this pass *)
    rewrite Ha in Hm. injection Hm as -> -> -> ->.
    pose proof (Htaker oa Hoa Hla) as Eid.
    destruct Hf as [(_ & o' & Ho' & Heq)|[Hnl _]]; [|done].
    assert (o' = oa) as -> by congruence.
    rewrite (book_orders_cons Buy b pb bid bt bm ob Hb Hob) in Heq.
    rewrite priority_fills_cons in Heq
      by (simpl; rewrite Hpb; by apply Z.leb_le).
    fold qt in Heq.
    assert (Htrade : trade_of Sell id p (ob, qt)
                     = mkTrade (mkTradeInfo (orderId_ ob) pb qt)
                               (mkTradeInfo (orderId_ oa) p qt)).
    { unfold trade_of. simpl. by rewrite Eid, Hpb. }
    destruct (remainingQuantity_ oa - qt =? 0)%N eqn:Hfill;
      rewrite ?Hfill in Heq; cbn [fmap list_fmap] in Heq;
      rewrite Htrade in Heq.
    + right. split.
      * intros Hin%Hlive. destruct Hin as (_ & _ & Hc).
        specialize (Hc eq_refl). congruence.
      * by rewrite Heq, Htr.
    + left. split.
      { apply Hlive. split_and!; [done| |done]. intros ->. done. }
      eexists. split.
      { rewrite Hslot. by rewrite decide_True. }
      rewrite Heq, Htr. cbn [remainingQuantity_ with_remaining].
      rewrite <- app_assoc. cbn [app]. do 3 f_equal.
      assert (Hqb : (remainingQuantity_ ob - qt =? 0)%N = true).
      { apply N.eqb_neq in Hfill. apply N.eqb_eq. unfold qt in *. lia. }
      unfold book_orders. cbn [side_map]. rewrite Hbids, Hqb.
      assert (Hsame : ∀ x, x ∈ bt ++ handles bm → slot b x = slot b1 x).
      { intros x Hx. rewrite Hslot.
        apply NoDup_app in Hnd as (Hndb & Hdis & _).
        cbn [app] in Hndb. apply NoDup_cons in Hndb as [Hbid _].
        rewrite decide_False.
        - rewrite decide_False; [done|]. intros ->. done.
        - intros ->. apply (Hdis h); [by right|left]. }
      f_equal. destruct (OrderList.empty bt) eqn:Hem.
      * rewrite (empty_nil _ Hem) in *. cbn [app] in *.
        by apply omap_ext_elem.
      * rewrite handles_cons. by apply omap_ext_elem.
Qed.

End Fills.

Lemma book_orders_enter h o b :
  WF b → head (free_indices_ (orderPool_ b)) = Some h →
  book_orders (opposite (side_ o)) (enter h o b)
  = book_orders (opposite (side_ o)) b.
Proof.
  intros Hwf Hh. unfold book_orders. rewrite enter_opposite.
  apply omap_ext_elem. intros x Hx.
  rewrite (slot_enter b h o Hwf Hh). rewrite decide_False; [done|].
  intros ->.
  assert (Hfree : h ∈ free_indices_ (orderPool_ b)).
  { destruct (free_indices_ (orderPool_ b)); [done|].
    injection Hh as ->. left. }
  destruct (wf_free b Hwf h Hfree) as [_ Hnl]. apply Hnl.
  unfold live. apply elem_of_app. destruct (side_ o); simpl in Hx; auto.
Qed.

(** When the loops stop, the order has taken what it could. *)
Lemma fills_quiet e h o q b :
  slot e h = Some o → WF b → quiet b →
  taker_inv e h (orderId_ o) (side_ o) (price_ o) q b →
  fills_inv e h (orderId_ o) (side_ o) (price_ o) q b →
  trades_ b
  = trade_of (side_ o) (orderId_ o) (price_ o) <$>
      priority_fills (side_ o) (price_ o) q
        (book_orders (opposite (side_ o)) e).
Proof.
  intros He Hwf Hq (Hd & _ & _ & Hsh) [(Hl & o' & Ho' & Heq)|[_ Heq]]; [|done].
  rewrite Heq. clear Heq.
  assert (Hnone : priority_fills (side_ o) (price_ o) (remainingQuantity_ o')
                    (book_orders (opposite (side_ o)) b) = []);
    [|by rewrite Hnone, app_nil_r].
  destruct (side_map (opposite (side_ o)) b) as [|[pa l] am] eqn:Hopp.
  { unfold book_orders. by rewrite Hopp. }
  pose proof (wf_no_empty b Hwf (opposite (side_ o))) as Hne.
  rewrite Hopp in Hne. apply Forall_cons in Hne as [Hne _]. simpl in Hne.
  destruct l as [|hm l]; [done|].
  assert (Hat : at_level (side_map (opposite (side_ o)) b) pa hm).
  { rewrite Hopp. apply at_level_cons. left. split; [done|left]. }
  destruct (wf_linked b Hwf _ _ _ Hat) as (om & Hom & _ & Hpm & _).
  rewrite (book_orders_cons _ b pa hm l am om Hopp Hom). simpl.
  assert (Hpa : pa ∈ (side_map (opposite (side_ o)) b).*1)
    by (rewrite Hopp; left).
  assert (Hp : price_ o ∈ (side_map (side_ o) b).*1).
  { destruct (wf_live_slot b Hwf h Hl) as (o'' & Ho'' & Hat' & _).
    assert (o'' = o') as -> by congruence.
    destruct Hd as [_ Hsl].
    destruct (Hsl h o' Hl Ho') as (o0 & Ho0 & (_ & _ & Es & Ep & _) & _).
    assert (o0 = o) as -> by congruence.
    rewrite Es, Ep in Hat'. by eapply at_level_key. }
  assert (Hcross : crossesb (side_ o) (price_ o) (price_ om) = false);
    [|by rewrite Hcross].
  rewrite Hpm. destruct Hsh as [Hu|(m & Hm & _)].
  - destruct (side_ o); simpl in *.
    + apply Z.leb_gt. by apply Hu.
    + apply Z.leb_gt. by apply Hu.
  - unfold quiet in Hq. destruct (side_ o); simpl in *.
    + rewrite Hm, Hopp in Hq. by apply Z.leb_gt.
    + rewrite Hm, Hopp in Hq. by apply Z.leb_gt.
Qed.

(** The trades of a call of [AddOrder] that reaches [MatchOrders] are
    what the order takes from the other side of the book, in the
    order of priority. *)
Lemma AddOrder_fills ty id s p q b trades b' :
  Inv b → orders_ b !! id = None →
  (ty = FillAndKill → CanMatch s p b = true) →
  AddOrder ty id s p q b = Ok (trades, b') →
  trades = trade_of s id p <$> priority_fills s p q (book_orders (opposite s) b).
Proof.
  intros HI Hid Hcan Hadd. pose proof (inv_wf b HI) as Hwf.
  destruct (free_indices_ (orderPool_ b)) as [|h rest] eqn:Hf.
  { by rewrite AddOrder_exhausted in Hadd. }
  assert (Hh : head (free_indices_ (orderPool_ b)) = Some h) by by rewrite Hf.
  clear Hf.
  rewrite (AddOrder_enter ty id s p q b h) in Hadd by done.
  set (o := Order.new ty id s p q) in *.
  pose proof (WF_enter h o b Hwf Hh Hid) as Hwf0.
  assert (He : slot (enter h o b) h = Some o).
  { rewrite (slot_enter b h o Hwf Hh). by rewrite decide_True. }
  destruct (MatchOrders_run _
              (fills_step (enter h o b) h o (remainingQuantity_ o) He)
              (enter h o b) Hwf0)
    as (b1 & Hwf1 & [HT HF] & Hq1 & Hrun).
  { split; [exact (taker_enter h o b HI Hh)|].
    left. split.
    - change (h ∈ live (enter h o b)). apply elem_live_enter. by left.
    - exists o. split; [exact He|done]. }
  rewrite Hrun in Hadd. injection Hadd as <- <-.
  rewrite !swept_trades.
  rewrite (fills_quiet (enter h o b) h o _ b1 He Hwf1 Hq1 HT HF).
  by rewrite (book_orders_enter h o b Hwf Hh).
Qed.

(** * The trades of a call, as [AddOrder] builds them *)

Lemma ByRef_AddOrder_matched ty id s p q b r b' :
  Inv b → orders_ b !! id = None →
  (ty = FillAndKill → CanMatch s p b = true) →
  ByRef.AddOrder ty id s p q b = Ok (r, b') →
  AddOrder ty id s p q b = Ok (trades_ b', b')
  ∧ r = ByRef.temporary (trades_ b').
Proof.
  intros HI Hid Hcan Href.
  apply ByRef_AddOrder_Ok in Href as (t & Hadd & ->). rewrite Hid.
  by rewrite (AddOrder_trades_member _ _ _ _ _ _ _ _ HI Hid Hcan Hadd).
Qed.

Lemma ByRef_MatchOrder_steps order b h :
  Inv b → orders_ b !! om_orderId order = Some h →
  ∃ o b1 t b2,
    slot b h = Some o
    ∧ CancelOrder (om_orderId order) b = Ok b1
    ∧ ByRef.AddOrder (orderType_ o) (om_orderId order) (om_side order)
        (om_price order) (om_quantity order) b1
      = Ok (ByRef.temporary t, b2).
Proof.
  intros HI Hid.
  destruct (MatchOrder_result order b HI) as (trades & b' & Hrun & _).
  unfold MatchOrder in Hrun. rewrite Hid in Hrun.
  destruct (wf_index b (inv_wf b HI) _ _ Hid) as (_ & o & Ho & _).
  rewrite (deref_slot _ _ _ Ho) in Hrun. simpl in Hrun.
  destruct (CancelOrder (om_orderId order) b) as [b1|err] eqn:Hc; [|done].
  simpl in Hrun. exists o, b1, trades, b'. split_and!; [done..|].
  rewrite (ByRef_AddOrder_of_state _ _ _ _ _ _ _ _ Hrun).
  by rewrite (CancelOrder_erases _ _ _ Hc).
Qed.

Lemma AddOrder_trades_with
    b orderType orderId side price quantity trades b' :
  reachable b → orders_ b !! orderId = None →
  AddOrder orderType orderId side price quantity b = Ok (trades, b') →
  ∀ t, t ∈ trades →
    ti_orderId (taker_leg side t) = orderId
    ∧ ti_price (taker_leg side t) = price
    ∧ ti_quantity (bidTrade_ t) = ti_quantity (askTrade_ t)
    ∧ ∃ h o, orders_ b !! ti_orderId (maker_leg side t) = Some h
        ∧ slot b h = Some o
        ∧ side_ o = opposite side
        ∧ price_ o = ti_price (maker_leg side t)
        ∧ crosses side price (price_ o)
        ∧ (ti_quantity (maker_leg side t) ≤ remainingQuantity_ o)%N.
Proof.
  intros Hr Hid Hadd t Ht. pose proof (reachable_Inv b Hr) as HI.
  pose proof (inv_wf b HI) as Hwf.
  destruct (Inv_AddOrder _ _ _ _ _ _ _ _ HI Hadd) as [_ Hok].
  rewrite Forall_forall in Hok. pose proof (Hok t Ht) as Hcross.
  unfold trade_ok in Hcross.
  destruct (AddOrder_taker _ _ _ _ _ _ _ _ HI Hid Hadd)
    as [(_ & _ & -> & _)|(h & b1 & Hh & _ & _ & _ & HP & -> & _)].
  { by apply elem_of_nil in Ht. }
  destruct HP as (_ & Hall & _). rewrite Forall_forall in Hall.
  destruct (Hall t Ht) as (Eid & Ep & Eq & hm & om & Hne & Hm & Hom & Es & Epm & Hle).
  split_and!; [done..|]. exists hm, om.
  simpl in Hm. rewrite (slot_enter b h _ Hwf Hh), decide_False in Hom by done.
  assert (Hidm : ti_orderId (maker_leg side t) ≠ orderId).
  { intros E. rewrite E, lookup_insert_eq in Hm. congruence. }
  rewrite lookup_insert_ne in Hm by done.
  split_and!; [done..| |done].
  rewrite Epm. unfold crosses, maker_leg.
  destruct side; simpl in *; lia.
Qed.

Lemma AddOrder_traded
    b orderType orderId side price quantity trades b' :
  reachable b → orders_ b !! orderId = None →
  AddOrder orderType orderId side price quantity b = Ok (trades, b') →
  (traded trades ≤ quantity)%N
  ∧ (∀ h o, orders_ b' !! orderId = Some h → slot b' h = Some o →
       (remainingQuantity_ o + traded trades)%N = quantity)
  ∧ (orderType = GoodTillCancel → orders_ b' !! orderId = None →
       traded trades = quantity).
Proof.
  intros Hr Hid Hadd. pose proof (reachable_Inv b Hr) as HI.
  pose proof (inv_wf b HI) as Hwf.
  destruct (AddOrder_taker _ _ _ _ _ _ _ _ HI Hid Hadd)
    as [(-> & _ & -> & ->)|(h & b1 & Hh & _ & Hwf1 & _ & HP & -> & ->)].
  { split_and!; [unfold traded; simpl; lia| |done].
    intros h o Hh. congruence. }
  set (e := enter h (Order.new orderType orderId side price quantity) b) in *.
  destruct HP as (Hd & _ & Hst & _).
  assert (He : slot e h
               = Some (Order.new orderType orderId side price quantity)).
  { unfold e. rewrite (slot_enter b h _ Hwf Hh). by rewrite decide_True. }
  pose proof (swept_WF Buy b1 Hwf1) as Hwf2.
  pose proof (swept_WF Sell _ Hwf2) as Hwf3.
  split_and!.
  - destruct Hst as [(_ & o1 & _ & <-)|[_ <-]]; lia.
  - intros h' o' Hh' Ho'.
    pose proof (descends_swept e Sell _ (descends_swept e Buy b1 Hd)) as [Hsub _].
    pose proof (lookup_weaken _ _ _ _ Hh' Hsub) as Hhe.
    simpl in Hhe. rewrite lookup_insert_eq in Hhe. injection Hhe as <-.
    destruct (wf_index _ Hwf3 _ _ Hh') as (Hl & _).
    apply live_swept_sub, live_swept_sub in Hl.
    rewrite !slot_swept in Ho'.
    destruct Hst as [(_ & o1 & Ho1 & Hsum)|[Hnl _]]; [|done].
    congruence.
  - intros -> Hnone.
    destruct Hst as [(Hl & o1 & Ho1 & Hsum)|[_ Hsum]]; [exfalso|done].
    destruct Hd as [_ Hsl].
    destruct (Hsl h o1 Hl Ho1) as (o0 & Ho0 & (Ety & Eid & _) & _).
    rewrite He in Ho0. injection Ho0 as <-. simpl in Ety, Eid.
    assert (Hl2 : h ∈ live (swept Buy b1)) by by eapply live_swept_gtc.
    assert (Hl3 : h ∈ live (swept Sell (swept Buy b1))).
    { eapply live_swept_gtc; [done..| |done]. by rewrite slot_swept. }
    destruct (wf_live_slot _ Hwf3 h Hl3) as (o3 & Ho3 & _ & Hid3).
    rewrite !slot_swept in Ho3. congruence.
Qed.

Lemma AddOrder_trades_nil_iff b orderType orderId side price quantity trades b' :
  reachable b → orders_ b !! orderId = None →
  AddOrder orderType orderId side price quantity b = Ok (trades, b') →
  trades = [] ↔ CanMatch side price b = false.
Proof.
  intros Hr Hid Hadd. pose proof (reachable_Inv b Hr) as HI.
  pose proof (inv_wf b HI) as Hwf.
  destruct (free_indices_ (orderPool_ b)) as [|h rest] eqn:Hf.
  { (* no free slot: only a refused FillAndKill order returns *)
    destruct (decide (orderType = FillAndKill ∧ CanMatch side price b = false))
      as [[-> Hc]|Hc].
    - rewrite AddOrder_dropped in Hadd by done. by injection Hadd as <- _.
    - rewrite AddOrder_exhausted in Hadd; [done..| |done].
      intros ->. destruct (CanMatch side price b); [done|]. by destruct Hc. }
  assert (Hh : head (free_indices_ (orderPool_ b)) = Some h) by by rewrite Hf.
  destruct (CanMatch side price b) eqn:Hc.
  - split; [|done]. intros ->. exfalso.
    rewrite (AddOrder_enter _ orderId side price quantity b h) in Hadd by done.
    apply (MatchOrders_trades h
             (Order.new orderType orderId side price quantity) b [] b'
             HI Hh Hid Hc Hadd). done.
  - split; [done|]. intros _. destruct orderType.
    + rewrite (AddOrder_rests orderId side price quantity b h) in Hadd by done.
      by injection Hadd as <- _.
    + rewrite AddOrder_dropped in Hadd by done. by injection Hadd as <- _.
Qed.

Lemma AddOrder_best_first
    b orderType orderId side price quantity trades b' :
  reachable b →
  AddOrder orderType orderId side price quantity b = Ok (trades, b') →
  StronglySorted price_order trades
  ∧ ∀ t, t ∈ trades →
      (∀ pa, pa ∈ (asks_ b').*1 → (ti_price (askTrade_ t) ≤ pa)%Z)
      ∧ (∀ pb, pb ∈ (bids_ b').*1 → (pb ≤ ti_price (bidTrade_ t))%Z).
Proof.
  intros Hr Hadd. pose proof (reachable_Inv b Hr) as HI.
  pose proof (inv_wf b HI) as Hwf.
  assert (Hnil : StronglySorted price_order []
    ∧ ∀ t, t ∈ [] →
        (∀ pa, pa ∈ (asks_ b').*1 → (ti_price (askTrade_ t) ≤ pa)%Z)
        ∧ (∀ pb, pb ∈ (bids_ b').*1 → (pb ≤ ti_price (bidTrade_ t))%Z)).
  { split; [constructor|]. by intros t ?%elem_of_nil. }
  destruct (AddOrder_cases orderType orderId side price quantity b HI)
    as [(_ & Heq)|[(_ & _ & _ & Heq)
       |[(_ & _ & Heq)|(h & trades0 & b0 & Hid & Hh & _)]]].
  - rewrite Heq in Hadd. by injection Hadd as <- _.
  - rewrite Heq in Hadd. by injection Hadd as <- _.
  - congruence.
  - destruct (decide (orderType = FillAndKill
                      ∧ CanMatch side price b = false)) as [[-> Hc]|Hc].
    { rewrite AddOrder_dropped in Hadd by done. by injection Hadd as <- _. }
    rewrite (AddOrder_enter _ orderId side price quantity b h) in Hadd;
      [|done..| |done].
    + destruct (MatchOrders_best_first _ trades b'
                  (WF_enter h (Order.new orderType orderId side price quantity)
                     b Hwf Hh Hid) Hadd) as [-> Hbf].
      exact Hbf.
    + intros ->. destruct (CanMatch side price b); [done|]. by destruct Hc.
Qed.

(** ** Runs on a new book, with the references *)

Ltac ref_run :=
  unfold ByRef.run_event, ByRef.MatchOrder, ByRef.AddOrder, ByRef.read;
  book_run.

Section RunsByRef.

Context (pool : list Order) (h1 h2 h3 : OrderPointer) (rest : list nat).
Hypothesis H12 : h1 ≠ h2.
Hypothesis H13 : h1 ≠ h3.
Hypothesis H23 : h2 ≠ h3.
Hypothesis Hlt1 : h1 < length pool.
Hypothesis Hlt2 : h2 < length pool.
Hypothesis Hlt3 : h3 < length pool.

Let b0 := mkBook [] [] ∅ [] (mkPool pool (h1 :: h2 :: h3 :: rest)).

(** A bid 1 at 100; then a FillAndKill sell at 101, which cannot
    trade, and a second order 1. *)
Lemma run_refused :
  ∃ b1,
    ByRef.run_event (EvAdd GoodTillCancel 1%N Buy 100%Z 5%N) b0 = Ok b1
    ∧ ByRef.AddOrder FillAndKill 2%N Sell 101%Z 5%N b1
      = Ok (ByRef.temporary [], b1)
    ∧ ByRef.AddOrder GoodTillCancel 1%N Buy 100%Z 5%N b1
      = Ok (ByRef.member, set_trades [] b1).
Proof.
  unfold b0. eexists.
  split; [ref_run; reflexivity|].
  split; [ref_run; reflexivity|].
  ref_run; reflexivity.
Qed.

(** A bid 1 at 100; then its modify to 101, and the same by a cancel
    and an add. *)
Lemma run_modify :
  ∃ b1 b2 b3,
    ByRef.run_event (EvAdd GoodTillCancel 1%N Buy 100%Z 5%N) b0 = Ok b1
    ∧ orders_ b1 !! 1%N = Some h1
    ∧ ByRef.MatchOrder (mkOrderModify 1%N Buy 101%Z 5%N) b1 = Err Undefined
    ∧ ByRef.run_event (EvCancel 1%N) b1 = Ok b2
    ∧ ByRef.AddOrder GoodTillCancel 1%N Buy 101%Z 5%N b2
      = Ok (ByRef.temporary [], b3)
    ∧ bids_ b3 = [(101%Z, [h1])] ∧ asks_ b3 = []
    ∧ orders_ b3 !! 1%N = Some h1
    ∧ slot b3 h1 = Some (Order.new GoodTillCancel 1%N Buy 101%Z 5%N).
Proof.
  unfold b0. eexists _, _, _.
  split; [ref_run; reflexivity|].
  split; [simpl; by pool_simpl|].
  split; [ref_run; reflexivity|].
  split; [ref_run; reflexivity|].
  split; [ref_run; reflexivity|].
  split; [reflexivity|]. split; [reflexivity|].
  split; [simpl; by pool_simpl|].
  unfold slot; simpl; by pool_simpl.
Qed.

(** [trace_fak], with the reference that the second call returns. *)
Lemma run_fak_ref :
  ∃ b1 b2,
    ByRef.run_event (EvAdd GoodTillCancel 1%N Buy 100%Z 4%N) b0 = Ok b1
    ∧ ByRef.AddOrder FillAndKill 2%N Sell 100%Z 10%N b1
      = Ok (ByRef.temporary
              [mkTrade (mkTradeInfo 1%N 100%Z 4%N) (mkTradeInfo 2%N 100%Z 4%N)],
            b2)
    ∧ trades_ b2
      = [mkTrade (mkTradeInfo 1%N 100%Z 4%N) (mkTradeInfo 2%N 100%Z 4%N)]
    ∧ bids_ b2 = [] ∧ asks_ b2 = [] ∧ orders_ b2 = ∅
    ∧ slot b2 h1
      = Some (with_remaining 0%N (Order.new GoodTillCancel 1%N Buy 100%Z 4%N))
    ∧ slot b2 h2
      = Some (with_remaining 6%N (Order.new FillAndKill 2%N Sell 100%Z 10%N))
    ∧ free_indices_ (orderPool_ b2) = h2 :: h1 :: h3 :: rest.
Proof.
  unfold b0. eexists _, _.
  split; [ref_run; reflexivity|].
  split; [ref_run; reflexivity|].
  split; [reflexivity|]. split; [reflexivity|]. split; [reflexivity|].
  split; [simpl; map_cases|].
  split; [unfold slot; simpl; by pool_simpl|].
  split; [unfold slot; simpl; by pool_simpl|].
  reflexivity.
Qed.

(** [trace_priority], with the reference that the third call returns. *)
Lemma run_priority_ref :
  ∃ b1 b2 b3,
    run_event (EvAdd GoodTillCancel 1%N Buy 100%Z 5%N) b0 = Ok ([], b1)
    ∧ run_event (EvAdd GoodTillCancel 2%N Buy 100%Z 5%N) b1 = Ok ([], b2)
    ∧ ByRef.run_event (EvAdd GoodTillCancel 1%N Buy 100%Z 5%N) b0 = Ok b1
    ∧ ByRef.run_event (EvAdd GoodTillCancel 2%N Buy 100%Z 5%N) b1 = Ok b2
    ∧ bids_ b2 = [(100%Z, [h1; h2])] ∧ asks_ b2 = []
    ∧ orders_ b2 !! 3%N = None ∧ orders_ b2 !! 2%N = Some h2
    ∧ slot b2 h1 = Some (Order.new GoodTillCancel 1%N Buy 100%Z 5%N)
    ∧ slot b2 h2 = Some (Order.new GoodTillCancel 2%N Buy 100%Z 5%N)
    ∧ ByRef.AddOrder GoodTillCancel 3%N Sell 100%Z 7%N b2
      = Ok (ByRef.temporary
              [mkTrade (mkTradeInfo 1%N 100%Z 5%N) (mkTradeInfo 3%N 100%Z 5%N);
               mkTrade (mkTradeInfo 2%N 100%Z 2%N) (mkTradeInfo 3%N 100%Z 2%N)],
            b3)
    ∧ trades_ b3
      = [mkTrade (mkTradeInfo 1%N 100%Z 5%N) (mkTradeInfo 3%N 100%Z 5%N);
         mkTrade (mkTradeInfo 2%N 100%Z 2%N) (mkTradeInfo 3%N 100%Z 2%N)]
    ∧ bids_ b3 = [(100%Z, [h2])] ∧ asks_ b3 = []
    ∧ orders_ b3 = {[2%N := h2]}
    ∧ slot b3 h2 =
        Some (with_remaining 3%N (Order.new GoodTillCancel 2%N Buy 100%Z 5%N)).
Proof.
  unfold b0. eexists _, _, _.
  split; [book_run; reflexivity|].
  split; [book_run; reflexivity|].
  split; [ref_run; reflexivity|].
  split; [ref_run; reflexivity|].
  split; [reflexivity|]. split; [reflexivity|].
  split; [simpl; by pool_simpl|]. split; [simpl; by pool_simpl|].
  split; [unfold slot; simpl; by pool_simpl|].
  split; [unfold slot; simpl; by pool_simpl|].
  split; [ref_run; reflexivity|].
  split; [reflexivity|]. split; [reflexivity|]. split; [reflexivity|].
  split; [simpl; map_cases|].
  unfold slot; simpl; by pool_simpl.
Qed.

End RunsByRef.

(** A new order that rests is the last of its level. *)
Lemma AddOrder_at_tail ty id s p q b trades b' h :
  Inv b → orders_ b !! id = None →
  AddOrder ty id s p q b = Ok (trades, b') → orders_ b' !! id = Some h →
  ∃ l, PriceMap.find p (side_map s b') = Some (l ++ [h]).
Proof.
  intros HI Hid Hadd Hid'.
  destruct (AddOrder_cases ty id s p q b HI)
    as [([x Hx] & _)|[(_ & _ & _ & Hdrop)|[(_ & _ & Hex)|Hent]]].
  - congruence.
  - rewrite Hadd in Hdrop. injection Hdrop as _ ->. congruence.
  - congruence.
  - destruct Hent as (h0 & trades0 & b0 & _ & Hh0 & Hadd0 & HI0 & _ & Hd & Ht).
    rewrite Hadd in Hadd0. injection Hadd0 as <- <-.
    destruct Hd as [Hsub _].
    pose proof (lookup_weaken _ _ _ _ Hid' Hsub) as Hide.
    simpl in Hide. rewrite lookup_insert_eq in Hide. injection Hide as ->.
    apply Ht. by apply (wf_index b' (inv_wf b' HI0) id).
Qed.

(** * The claims *)

(** C1. After [AddOrder] returns on a reachable book, no FillAndKill
    order rests: every order linked into a level of either side, and
    every order of the index, is GoodTillCancel; and the id of a
    FillAndKill order that was submitted is not in the index (unless
    the id was already taken, and the submission ignored). *)
Theorem FAK_never_rests b orderType orderId side price quantity trades b' :
  reachable b →
  AddOrder orderType orderId side price quantity b = Ok (trades, b') →
  (∀ s p l h, (p, l) ∈ side_map s b' → h ∈ l →
     ∃ o, slot b' h = Some o ∧ orderType_ o = GoodTillCancel)
  ∧ (∀ id h, orders_ b' !! id = Some h →
       ∃ o, slot b' h = Some o ∧ orderId_ o = id
            ∧ orderType_ o = GoodTillCancel)
  ∧ (orderType = FillAndKill → orders_ b !! orderId = None →
       orders_ b' !! orderId = None).
Proof.
  intros HI%reachable_Inv Hadd.
  destruct (Inv_AddOrder _ _ _ _ _ _ _ _ HI Hadd) as [HI' _].
  pose proof (inv_wf b' HI') as Hwf'.
  split_and!.
  - intros s p l h Hl Hh.
    assert (Hat : at_level (side_map s b') p h) by by exists l.
    destruct (wf_linked b' Hwf' s p h Hat) as (o & Ho & _).
    exists o. split; [done|]. eapply (inv_no_fak b' HI'); [|done].
    apply elem_live. eauto.
  - intros id h Hid.
    destruct (wf_index b' Hwf' id h Hid) as (Hl & o & Ho & Hoid).
    exists o. split_and!; [done..|]. by eapply (inv_no_fak b' HI').
  - intros -> Hnone.
    destruct (AddOrder_cases FillAndKill orderId side price quantity b HI)
      as [([x Hx] & _)|[(_ & _ & _ & Heq)|[(_ & _ & Heq)|Hent]]].
    + congruence.
    + rewrite Hadd in Heq. by injection Heq as _ ->.
    + congruence.
    + destruct Hent as (h & trades0 & b0 & _ & Hh & Heq & _ & _ & Hd & _).
      rewrite Hadd in Heq. injection Heq as <- <-.
      destruct (orders_ b' !! orderId) as [h'|] eqn:Hid'; [exfalso|done].
      destruct (wf_index b' Hwf' _ _ Hid') as (Hl & o' & Ho' & _).
      destruct Hd as [Hsub Hslot].
      pose proof (lookup_weaken _ _ _ _ Hid' Hsub) as Hide.
      simpl in Hide. rewrite lookup_insert_eq in Hide. injection Hide as ->.
      destruct (Hslot h' o' Hl Ho') as (o & Ho & (Hty & _) & _).
      rewrite (slot_enter b h' _ (inv_wf b HI) Hh) in Ho.
      rewrite decide_True in Ho by done. injection Ho as <-.
      pose proof (inv_no_fak b' HI' h' o' Hl Ho') as Hgtc.
      simpl in Hty. congruence.
Qed.

(** The FillAndKill sell of [trace_fak] trades 4 and leaves the book. *)
Lemma FAK_never_rests_witness :
  reachable (book_after [EvAdd GoodTillCancel 1%N Buy 100%Z 4%N])
  ∧ AddOrder FillAndKill 2%N Sell 100%Z 10%N
      (book_after [EvAdd GoodTillCancel 1%N Buy 100%Z 4%N]) =
    Ok ([mkTrade (mkTradeInfo 1%N 100%Z 4%N) (mkTradeInfo 2%N 100%Z 4%N)],
        book_after trace_fak)
  ∧ orders_ (book_after trace_fak) !! 2%N = None.
Proof.
  assert (Hr : reachable (book_after [EvAdd GoodTillCancel 1%N Buy 100%Z 4%N])).
  { apply book_after_reachable. events_ok. }
  destruct OrderBook_new_fields
    as (pool & h1 & h2 & h3 & rest & Hnew & H12 & H13 & H23 & Hl1 & Hl2 & Hl3).
  destruct (run_fak pool h1 h2 h3 rest H12 H13 H23 Hl1 Hl2 Hl3)
    as (b1 & e & m & b2 & Hadd1 & Hnone & _ & _ & _ & _ & _ & _ & _ & _ & _
        & _ & _ & _ & Hadd2 & _).
  assert (Hrun1 : run_event (EvAdd GoodTillCancel 1%N Buy 100%Z 4%N)
                    OrderBook_new = Ok ([], b1))
    by (rewrite Hnew; exact Hadd1).
  rewrite (book_after_one _ _ _ Hrun1) in *.
  unfold trace_fak.
  rewrite (book_after_two _ (EvAdd FillAndKill 2%N Sell 100%Z 10%N)
             _ _ _ _ Hrun1 Hadd2).
  split; [done|]. split; [done|].
  by apply (FAK_never_rests b1 FillAndKill 2%N Sell 100%Z 10%N _ b2 Hr Hadd2).
Defined.

(** C2. In a reachable book with both sides non-empty, the best bid
    price is strictly less than the best ask price. *)
Theorem book_never_crossed b bestBid bestAsk :
  reachable b →
  best (bids_ b) = Some bestBid → best (asks_ b) = Some bestAsk →
  (bestBid < bestAsk)%Z.
Proof.
  intros HI%reachable_Inv Hb Ha. apply (inv_uncrossed b HI).
  - unfold best in Hb. destruct (bids_ b) as [|[p l] m]; [done|].
    injection Hb as <-. left.
  - unfold best in Ha. destruct (asks_ b) as [|[p l] m]; [done|].
    injection Ha as <-. left.
Qed.

(** After [trace_spread] the best bid is 99 and the best ask 100. *)
Lemma book_never_crossed_witness :
  reachable (book_after trace_spread)
  ∧ best (bids_ (book_after trace_spread)) = Some 99%Z
  ∧ best (asks_ (book_after trace_spread)) = Some 100%Z
  ∧ (99 < 100)%Z.
Proof.
  assert (Hr : reachable (book_after trace_spread)).
  { apply book_after_reachable, trace_spread_ok. }
  destruct OrderBook_new_fields
    as (pool & h1 & h2 & h3 & rest & Hnew & H12 & H13 & H23 & Hl1 & Hl2 & Hl3).
  destruct (run_spread pool h1 h2 h3 rest H12 Hl1 Hl2)
    as (b1 & b2 & Hadd1 & Hadd2 & Hb & Ha & _).
  assert (Hrun1 : run_event (EvAdd GoodTillCancel 1%N Buy 99%Z 10%N)
                    OrderBook_new = Ok ([], b1))
    by (rewrite Hnew; exact Hadd1).
  unfold trace_spread in *.
  rewrite (book_after_two _ (EvAdd GoodTillCancel 2%N Sell 100%Z 5%N)
             _ _ _ _ Hrun1 Hadd2) in *.
  assert (Hbb : best (bids_ b2) = Some 99%Z) by by rewrite Hb.
  assert (Hba : best (asks_ b2) = Some 100%Z) by by rewrite Ha.
  split; [done|]. split; [done|]. split; [done|].
  exact (book_never_crossed b2 99%Z 100%Z Hr Hbb Hba).
Defined.




(** C4. A FillAndKill order that [CanMatch] refuses is not answered
    with an empty list of trades: with a bid 1 resting at 100, the
    call for a FillAndKill sell 2 at 101 leaves the book as it is, but
    the reference it returns is bound to the temporary of [return {}],
    which is gone when the caller reads it; the call for a second
    order 1, on the path beside it, returns a reference to the member
    [trades_], cleared, and the caller reads the empty list there. *)
Theorem refused_FillAndKill_returns_dangling :
  ∃ b1,
    ByRef.run_event (EvAdd GoodTillCancel 1%N Buy 100%Z 5%N) OrderBook_new
      = Ok b1
    ∧ ByRef.AddOrder FillAndKill 2%N Sell 101%Z 5%N b1
      = Ok (ByRef.temporary [], b1)
    ∧ ByRef.read (ByRef.temporary []) b1 = Err Undefined
    ∧ ByRef.AddOrder GoodTillCancel 1%N Buy 100%Z 5%N b1
      = Ok (ByRef.member, set_trades [] b1)
    ∧ ByRef.read ByRef.member (set_trades [] b1) = Ok [].
Proof.
  destruct OrderBook_new_fields
    as (pool & h1 & h2 & h3 & rest & Hnew & H12 & H13 & H23 & Hl1 & Hl2 & Hl3).
  destruct (run_refused pool h1 h2 h3 rest Hl1)
    as (b1 & Hrun0 & Hfak & Hdup).
  assert (Hrun1 : ByRef.run_event (EvAdd GoodTillCancel 1%N Buy 100%Z 5%N)
                    OrderBook_new = Ok b1)
    by (rewrite Hnew; exact Hrun0).
  clear Hnew Hrun0.
  exists b1. split_and!; [exact Hrun1|exact Hfak|reflexivity|exact Hdup|].
  reflexivity.
Qed.

(** C5. A modify is not a cancel followed by an add: with a bid 1
    resting at 100, [MatchOrder] for order 1 at 101 cancels the order
    and adds it again, and then copies the trades it returns from the
    reference that [AddOrder] bound to a temporary, which is gone: the
    call is undefined. The cancel and the add, called one after the
    other by a caller that does not read the reference, return and
    leave order 1 alone at 101. *)
Theorem modify_reads_dangling_reference :
  ∃ b1 b2 b3 h,
    ByRef.run_event (EvAdd GoodTillCancel 1%N Buy 100%Z 5%N) OrderBook_new
      = Ok b1
    ∧ orders_ b1 !! 1%N = Some h
    ∧ ByRef.MatchOrder (mkOrderModify 1%N Buy 101%Z 5%N) b1 = Err Undefined
    ∧ ByRef.run_event (EvCancel 1%N) b1 = Ok b2
    ∧ ByRef.run_event (EvAdd GoodTillCancel 1%N Buy 101%Z 5%N) b2 = Ok b3
    ∧ bids_ b3 = [(101%Z, [h])] ∧ asks_ b3 = []
    ∧ orders_ b3 !! 1%N = Some h
    ∧ slot b3 h = Some (Order.new GoodTillCancel 1%N Buy 101%Z 5%N).
Proof.
  destruct OrderBook_new_fields
    as (pool & h1 & h2 & h3 & rest & Hnew & H12 & H13 & H23 & Hl1 & Hl2 & Hl3).
  destruct (run_modify pool h1 h2 h3 rest H12 H13 H23 Hl1 Hl2 Hl3)
    as (b1 & b2 & b3 & Hrun0 & Hid1 & Hmod & Hc & Hadd & Hb3 & Ha3 & Hid3
        & Ho3).
  assert (Hrun1 : ByRef.run_event (EvAdd GoodTillCancel 1%N Buy 100%Z 5%N)
                    OrderBook_new = Ok b1)
    by (rewrite Hnew; exact Hrun0).
  clear Hnew Hrun0.
  assert (Hrun3 : ByRef.run_event (EvAdd GoodTillCancel 1%N Buy 101%Z 5%N) b2
                  = Ok b3) by (simpl; by rewrite Hadd).
  exists b1, b2, b3, h1. split_and!; assumption.
Qed.

(** C6. On a new book, after a bid 1 of 4 at 100, the call for a
    FillAndKill sell 2 of 10 at 100 makes the one trade (1, 100, 4)
    against (2, 100, 4), which [trades_] then holds, fills and
    releases order 1, sweeps order 2 with its 6 remaining, and leaves
    the book empty; but it does not return that trade: the reference
    it returns is bound to the temporary of [return MatchOrders()],
    which is gone when the caller reads it. *)
Theorem scenario_fak_returns_dangling :
  ∃ b1 b2 h1 h2,
    ByRef.run_event (EvAdd GoodTillCancel 1%N Buy 100%Z 4%N) OrderBook_new
      = Ok b1
    ∧ ByRef.AddOrder FillAndKill 2%N Sell 100%Z 10%N b1
      = Ok (ByRef.temporary
              [mkTrade (mkTradeInfo 1%N 100%Z 4%N) (mkTradeInfo 2%N 100%Z 4%N)],
            b2)
    ∧ ByRef.read
        (ByRef.temporary
           [mkTrade (mkTradeInfo 1%N 100%Z 4%N) (mkTradeInfo 2%N 100%Z 4%N)])
        b2 = Err Undefined
    ∧ trades_ b2
      = [mkTrade (mkTradeInfo 1%N 100%Z 4%N) (mkTradeInfo 2%N 100%Z 4%N)]
    ∧ bids_ b2 = [] ∧ asks_ b2 = [] ∧ orders_ b2 = ∅ ∧ Size b2 = 0
    ∧ slot b2 h1
      = Some (with_remaining 0%N (Order.new GoodTillCancel 1%N Buy 100%Z 4%N))
    ∧ slot b2 h2
      = Some (with_remaining 6%N (Order.new FillAndKill 2%N Sell 100%Z 10%N))
    ∧ h1 ∈ free_indices_ (orderPool_ b2)
    ∧ h2 ∈ free_indices_ (orderPool_ b2).
Proof.
  destruct OrderBook_new_fields
    as (pool & h1 & h2 & h3 & rest & Hnew & H12 & H13 & H23 & Hl1 & Hl2 & Hl3).
  destruct (run_fak_ref pool h1 h2 h3 rest H12 H13 H23 Hl1 Hl2 Hl3)
    as (b1 & b2 & Hrun0 & Hadd & Ht & Hb & Ha & Ho & Hs1 & Hs2 & Hf).
  assert (Hrun1 : ByRef.run_event (EvAdd GoodTillCancel 1%N Buy 100%Z 4%N)
                    OrderBook_new = Ok b1)
    by (rewrite Hnew; exact Hrun0).
  clear Hnew Hrun0.
  exists b1, b2, h1, h2.
  split_and!; [exact Hrun1|exact Hadd|reflexivity|exact Ht|exact Hb|exact Ha
              |exact Ho| |exact Hs1|exact Hs2| |].
  - unfold Size. rewrite Ho. apply map_size_empty.
  - rewrite Hf. right. left.
  - rewrite Hf. left.
Qed.

(** C7. The trades that a call of [AddOrder] makes for a new order are
    the trades of price-time priority: the order takes the resting
    orders of the other side best price first and, at one price,
    oldest first, from each the least of what the two have left,
    until it has nothing left or the next order is out of its reach;
    and if it rests afterwards it is the last of its level, so the
    queue of a level is the order of arrival. So, on a new book,
    after bids 1 and 2 of 5 at 100, a sell 3 of 7 at 100 trades 5
    against bid 1, then 2 against bid 2, and leaves bid 2 resting
    with 3 remaining and one order in the book. *)
Theorem price_time_priority b orderType orderId side price quantity r b' :
  reachable b → orders_ b !! orderId = None →
  (orderType = FillAndKill → CanMatch side price b = true) →
  ByRef.AddOrder orderType orderId side price quantity b = Ok (r, b') →
  trades_ b'
  = trade_of side orderId price <$>
      priority_fills side price quantity (book_orders (opposite side) b)
  ∧ (∀ h, orders_ b' !! orderId = Some h →
       ∃ l, PriceMap.find price (side_map side b') = Some (l ++ [h]))
  ∧ (∃ b1 b2 b3 h1 h2 r3,
       ByRef.run_event (EvAdd GoodTillCancel 1%N Buy 100%Z 5%N) OrderBook_new
         = Ok b1
       ∧ ByRef.run_event (EvAdd GoodTillCancel 2%N Buy 100%Z 5%N) b1 = Ok b2
       ∧ bids_ b2 = [(100%Z, [h1; h2])]
       ∧ ByRef.AddOrder GoodTillCancel 3%N Sell 100%Z 7%N b2 = Ok (r3, b3)
       ∧ trades_ b3
         = [mkTrade (mkTradeInfo 1%N 100%Z 5%N) (mkTradeInfo 3%N 100%Z 5%N);
            mkTrade (mkTradeInfo 2%N 100%Z 2%N) (mkTradeInfo 3%N 100%Z 2%N)]
       ∧ bids_ b3 = [(100%Z, [h2])] ∧ asks_ b3 = []
       ∧ orders_ b3 !! 2%N = Some h2
       ∧ slot b3 h2 =
           Some (with_remaining 3%N
                   (Order.new GoodTillCancel 2%N Buy 100%Z 5%N))
       ∧ Size b3 = 1).
Proof.
  intros HI%reachable_Inv Hid Hcan Href.
  destruct (ByRef_AddOrder_matched _ _ _ _ _ _ _ _ HI Hid Hcan Href)
    as [Hadd _].
  split_and!.
  - exact (AddOrder_fills _ _ _ _ _ _ _ _ HI Hid Hcan Hadd).
  - intros h Hh. exact (AddOrder_at_tail _ _ _ _ _ _ _ _ _ HI Hid Hadd Hh).
  - destruct OrderBook_new_fields
      as (pool & h1 & h2 & h3 & rest & Hnew & H12 & H13 & H23 & Hl1 & Hl2 & Hl3).
    destruct (run_priority_ref pool h1 h2 h3 rest H12 H13 H23 Hl1 Hl2 Hl3)
      as (b1 & b2 & b3 & _ & _ & Hrun0 & Hrun2 & Hb2 & _ & _ & _ & _ & _
          & Hadd3 & Ht3 & Hb3 & Ha3 & Hid3 & Ho3).
    assert (Hrun1 : ByRef.run_event (EvAdd GoodTillCancel 1%N Buy 100%Z 5%N)
                      OrderBook_new = Ok b1)
      by (rewrite Hnew; exact Hrun0).
    clear Hnew Hrun0.
    exists b1, b2, b3, h1, h2. eexists.
    split_and!; [exact Hrun1|exact Hrun2|exact Hb2|exact Hadd3|exact Ht3
                |exact Hb3|exact Ha3| |exact Ho3|].
    + rewrite Hid3. apply lookup_singleton_eq.
    + unfold Size. rewrite Hid3. apply map_size_singleton.
Qed.

(** With asks 1 at 101 and, later, 2 at 100, a bid 3 of 7 at 101 takes
    ask 2 at its better price first, and then ask 1. *)
Lemma price_time_priority_witness :
  ∃ b2 b3 h1 h2,
    reachable b2 ∧ orders_ b2 !! 3%N = None
    ∧ asks_ b2 = [(100%Z, [h2]); (101%Z, [h1])]
    ∧ ByRef.AddOrder GoodTillCancel 3%N Buy 101%Z 7%N b2
      = Ok (ByRef.temporary
              [mkTrade (mkTradeInfo 3%N 101%Z 5%N) (mkTradeInfo 2%N 100%Z 5%N);
               mkTrade (mkTradeInfo 3%N 101%Z 2%N) (mkTradeInfo 1%N 101%Z 2%N)],
            b3)
    ∧ trades_ b3
      = trade_of Buy 3%N 101%Z <$>
          priority_fills Buy 101%Z 7%N (book_orders Sell b2).
Proof.
  destruct OrderBook_new_fields
    as (pool & h1 & h2 & h3 & rest & Hnew & H12 & H13 & H23 & Hl1 & Hl2 & Hl3).
  destruct (run_levels pool h1 h2 h3 rest H12 H13 H23 Hl1 Hl2 Hl3)
    as (b1 & b2 & b3 & Hadd1 & Hadd2 & Ha2 & Hid3 & Hadd3 & _).
  assert (Hrun1 : run_event (EvAdd GoodTillCancel 1%N Sell 101%Z 5%N)
                    OrderBook_new = Ok ([], b1))
    by (rewrite Hnew; exact Hadd1).
  clear Hnew Hadd1.
  assert (Hr : reachable b2).
  { rewrite <- (book_after_two _ (EvAdd GoodTillCancel 2%N Sell 100%Z 5%N)
                 _ _ _ _ Hrun1 Hadd2).
    apply book_after_reachable. events_ok. }
  clear Hrun1 Hadd2.
  pose proof (ByRef_AddOrder_new _ _ _ _ _ _ _ _ Hid3 Hadd3) as Href.
  assert (Hcan : GoodTillCancel = FillAndKill → CanMatch Buy 101%Z b2 = true)
    by done.
  exists b2, b3, h1, h2.
  split_and!; [exact Hr|exact Hid3|exact Ha2|exact Href|].
  exact (proj1 (price_time_priority b2 GoodTillCancel 3%N Buy 101%Z 7%N _ b3
                  Hr Hid3 Hcan Href)).
Defined.

(** C8. [Order::Fill] fails with its logic error exactly when the
    quantity exceeds the remaining quantity, and otherwise takes the
    quantity off it. The two [Fill] calls of the matching loop, made
    with the least of the two remaining quantities, both succeed; so
    [MatchOrders], which [AddOrder] runs on a reachable book with the
    new order entered, returns; and no operation on a reachable book
    ends in that error: it returns, unless it is an [AddOrder] with the
    pool exhausted. *)
Theorem Fill_error_unreachable b e :
  reachable b →
  (∀ q o, (remainingQuantity_ o < q)%N → Order.Fill q o = Err FillOverflow)
  ∧ (∀ q o, (q ≤ remainingQuantity_ o)%N →
       Order.Fill q o = Ok (with_remaining (remainingQuantity_ o - q)%N o))
  ∧ (∀ bid ask ob oa,
       slot b bid = Some ob → slot b ask = Some oa → bid ≠ ask →
       let q := N.min (remainingQuantity_ ob) (remainingQuantity_ oa) in
       ∃ b1 b2, Fill_at bid q b = Ok b1 ∧ Fill_at ask q b1 = Ok b2)
  ∧ (∀ h o, head (free_indices_ (orderPool_ b)) = Some h →
       orders_ b !! orderId_ o = None →
       ∃ trades b', MatchOrders (enter h o b) = Ok (trades, b'))
  ∧ run_event e b ≠ Err FillOverflow
  ∧ (run_event e b = Err PoolExhausted
     ∨ ∃ trades b', run_event e b = Ok (trades, b')).
Proof.
  intros HI%reachable_Inv. split_and!.
  - intros q o Hq. unfold Order.Fill.
    by destruct (N.ltb_spec (remainingQuantity_ o) q); [|lia].
  - intros q o Hq. unfold Order.Fill.
    by destruct (N.ltb_spec (remainingQuantity_ o) q); [lia|].
  - intros bid ask ob oa Hob Hoa Hne q. eexists _, _. split.
    + apply (Fill_at_store _ _ _ _ Hob). apply N.le_min_l.
    + apply (Fill_at_store _ _ oa).
      * by rewrite slot_store_ne.
      * apply N.le_min_r.
  - intros h o Hh Hid. apply MatchOrders_total, WF_enter; [apply HI|done..].
  - by destruct (run_event_result e b HI) as [->|(trades & b' & ->)].
  - by apply run_event_result.
Qed.

(** After [trace_priority], where bid 2 rests with 3 remaining, a sell
    of 1 at its price is matched without error. *)
Lemma Fill_error_unreachable_witness :
  reachable (book_after trace_priority)
  ∧ run_event (EvAdd GoodTillCancel 4%N Sell 100%Z 1%N)
      (book_after trace_priority) ≠ Err FillOverflow.
Proof.
  assert (Hr : reachable (book_after trace_priority)).
  { apply book_after_reachable, trace_priority_ok. }
  split; [exact Hr|].
  apply (Fill_error_unreachable (book_after trace_priority)
           (EvAdd GoodTillCancel 4%N Sell 100%Z 1%N) Hr).
Defined.

(** C9, as stated, fails: after two bids of 2^31 at the price 100, the
    remaining quantities of the level sum to 2^32, and the snapshot
    gives the level the quantity 0. *)
Lemma snapshot_sum_wraps :
  ∃ l infos,
    reachable (book_after trace_large)
    ∧ bids_ (book_after trace_large) = [(100%Z, l)]
    ∧ level_sum (book_after trace_large) l = 4294967296%N
    ∧ GetOrderInfos (book_after trace_large) = Ok infos
    ∧ GetBids infos = [mkLevelInfo 100%Z 0%N].
Proof.
  destruct OrderBook_new_fields
    as (pool & h1 & h2 & h3 & rest & Hnew & H12 & H13 & H23 & Hl1 & Hl2 & Hl3).
  destruct (run_large pool h1 h2 h3 rest H12 Hl1 Hl2)
    as (b1 & b2 & Hadd1 & Hadd2 & Hb & _ & Ho1 & Ho2 & Hinfos).
  assert (Hrun1 : run_event (EvAdd GoodTillCancel 1%N Buy 100%Z 2147483648%N)
                    OrderBook_new = Ok ([], b1))
    by (rewrite Hnew; exact Hadd1).
  clear Hnew Hadd1.
  exists [h1; h2], (mkOrderBookLevelInfos [mkLevelInfo 100%Z 0%N] []).
  split; [apply book_after_reachable, trace_large_ok|].
  unfold trace_large.
  rewrite (book_after_two _ (EvAdd GoodTillCancel 2%N Buy 100%Z 2147483648%N)
             _ _ _ _ Hrun1 Hadd2).
  clear Hrun1.
  split_and!; [exact Hb| |exact Hinfos|reflexivity].
  unfold level_sum, remaining_at. simpl. by rewrite Ho1, Ho2.
Qed.

(** C9, amended. On a reachable book [GetOrderInfos] returns, for each
    side, the levels of the side in their order, each with its price
    and the sum of the remaining quantities of its orders modulo 2^32
    (the sum itself when that is below 2^32); the bid prices strictly
    descend and the ask prices strictly ascend; and every level of the
    book holds an order, each with its slot. *)
Theorem snapshot_levels b :
  reachable b →
  ∃ infos,
    GetOrderInfos b = Ok infos
    ∧ GetBids infos = level_info b <$> bids_ b
    ∧ GetAsks infos = level_info b <$> asks_ b
    ∧ StronglySorted (λ x y, (li_price y < li_price x)%Z) (GetBids infos)
    ∧ StronglySorted (λ x y, (li_price x < li_price y)%Z) (GetAsks infos)
    ∧ (∀ s p l, (p, l) ∈ side_map s b →
         l ≠ [] ∧ ∀ h, h ∈ l → is_Some (slot b h))
    ∧ (∀ p l, (level_sum b l < Quantity_modulus)%N →
         level_info b (p, l) = mkLevelInfo p (level_sum b l)).
Proof.
  intros HI%reachable_Inv. pose proof (inv_wf b HI) as Hwf.
  exists (mkOrderBookLevelInfos (level_info b <$> bids_ b)
            (level_info b <$> asks_ b)).
  split_and!; try done.
  - unfold GetOrderInfos.
    rewrite !level_infos_fmap; [done|..].
    + intros p l h. apply (wf_level_slots b Buy p l h Hwf).
    + intros p l h. apply (wf_level_slots b Sell p l h Hwf).
  - simpl. apply (level_info_sorted (λ x y, (y < x)%Z)).
    eapply StronglySorted_weaken; [|apply (wf_sorted b Hwf Buy)].
    intros x y. simpl. unfold PriceMap.greater. lia.
  - simpl. apply (level_info_sorted (λ x y, (x < y)%Z)).
    eapply StronglySorted_weaken; [|apply (wf_sorted b Hwf Sell)].
    intros x y. simpl. unfold PriceMap.less. lia.
  - intros s p l Hl. split.
    + pose proof (wf_no_empty b Hwf s) as Hne.
      unfold no_empty_level in Hne. rewrite Forall_forall in Hne.
      apply (Hne (p, l) Hl).
    + intros h. by apply (wf_level_slots b s p l h).
  - intros p l Hlt. unfold level_info. simpl. by rewrite N.mod_small.
Qed.

(** After [trace_spread] the snapshot has the bid level (99, 10) and
    the ask level (100, 5). *)
Lemma snapshot_levels_witness :
  reachable (book_after trace_spread)
  ∧ ∃ infos,
      GetOrderInfos (book_after trace_spread) = Ok infos
      ∧ GetBids infos = [mkLevelInfo 99%Z 10%N]
      ∧ GetAsks infos = [mkLevelInfo 100%Z 5%N].
Proof.
  assert (Hr : reachable (book_after trace_spread)).
  { apply book_after_reachable, trace_spread_ok. }
  split; [exact Hr|].
  destruct (snapshot_levels (book_after trace_spread) Hr)
    as (infos & Hinfos & _).
  exists infos. split; [exact Hinfos|].
  destruct OrderBook_new_fields
    as (pool & h1 & h2 & h3 & rest & Hnew & H12 & H13 & H23 & Hl1 & Hl2 & Hl3).
  destruct (run_spread pool h1 h2 h3 rest H12 Hl1 Hl2)
    as (b1 & b2 & Hadd1 & Hadd2 & _ & _ & _ & _ & Hsnap).
  assert (Hrun1 : run_event (EvAdd GoodTillCancel 1%N Buy 99%Z 10%N)
                    OrderBook_new = Ok ([], b1))
    by (rewrite Hnew; exact Hadd1).
  clear Hnew Hadd1. revert Hinfos. unfold trace_spread.
  rewrite (book_after_two _ (EvAdd GoodTillCancel 2%N Sell 100%Z 5%N)
             _ _ _ _ Hrun1 Hadd2).
  clear Hrun1. rewrite Hsnap. by intros [= <-].
Defined.

(** C10. Every trade that [AddOrder] returns on a reachable book has
    the price of its bid leg at or above the price of its ask leg. *)
Theorem trade_bid_price_ge_ask_price
    b orderType orderId side price quantity trades b' :
  reachable b →
  AddOrder orderType orderId side price quantity b = Ok (trades, b') →
  ∀ t, t ∈ trades → (ti_price (askTrade_ t) ≤ ti_price (bidTrade_ t))%Z.
Proof.
  intros HI%reachable_Inv Hadd.
  destruct (Inv_AddOrder _ _ _ _ _ _ _ _ HI Hadd) as [_ Ht].
  rewrite Forall_forall in Ht. exact Ht.
Qed.

(** The trade of [trace_fak] has both legs at 100. *)
Lemma trade_bid_price_ge_ask_price_witness :
  reachable (book_after [EvAdd GoodTillCancel 1%N Buy 100%Z 4%N])
  ∧ AddOrder FillAndKill 2%N Sell 100%Z 10%N
      (book_after [EvAdd GoodTillCancel 1%N Buy 100%Z 4%N]) =
    Ok ([mkTrade (mkTradeInfo 1%N 100%Z 4%N) (mkTradeInfo 2%N 100%Z 4%N)],
        book_after trace_fak)
  ∧ (100 ≤ 100)%Z.
Proof.
  assert (Hr : reachable (book_after [EvAdd GoodTillCancel 1%N Buy 100%Z 4%N])).
  { apply book_after_reachable. events_ok. }
  destruct OrderBook_new_fields
    as (pool & h1 & h2 & h3 & rest & Hnew & H12 & H13 & H23 & Hl1 & Hl2 & Hl3).
  destruct (run_fak pool h1 h2 h3 rest H12 H13 H23 Hl1 Hl2 Hl3)
    as (b1 & e & m & b2 & Hadd1 & _ & _ & _ & _ & _ & _ & _ & _ & _ & _
        & _ & _ & _ & Hadd2 & _).
  assert (Hrun1 : run_event (EvAdd GoodTillCancel 1%N Buy 100%Z 4%N)
                    OrderBook_new = Ok ([], b1))
    by (rewrite Hnew; exact Hadd1).
  clear Hnew Hadd1. revert Hr.
  rewrite (book_after_one _ _ _ Hrun1).
  unfold trace_fak.
  rewrite (book_after_two _ (EvAdd FillAndKill 2%N Sell 100%Z 10%N)
             _ _ _ _ Hrun1 Hadd2).
  clear Hrun1. intros Hr.
  split; [exact Hr|]. split; [exact Hadd2|].
  apply (trade_bid_price_ge_ask_price b1 FillAndKill 2%N Sell 100%Z 10%N _ b2
           Hr Hadd2
           (mkTrade (mkTradeInfo 1%N 100%Z 4%N) (mkTradeInfo 2%N 100%Z 4%N))).
  left.
Defined.
(** * Further properties *)

(** X1. On a reachable book the slab has its 1000000 slots, and every
    slot is either on the free stack or linked into a level, once:
    [Size], the number of ids in the index, is the number of linked
    orders, and with the number of free slots it makes the capacity. *)
Theorem pool_accounting b :
  reachable b →
  length (pool_ (orderPool_ b)) = POOL_SIZE
  ∧ Size b = length (live b)
  ∧ Size b + length (free_indices_ (orderPool_ b)) = POOL_SIZE
  ∧ free_indices_ (orderPool_ b) ++ live b ≡ₚ seq 0 POOL_SIZE.
Proof.
  intros Hr.
  pose proof (capacity_reachable b Hr) as Hcap.
  pose proof (accounted_reachable b Hr) as Hacc.
  pose proof (inv_wf b (reachable_Inv b Hr)) as Hwf.
  pose proof (WF_size b Hwf) as Hsize.
  unfold accounted in Hacc. unfold Size.
  generalize dependent POOL_SIZE. intros n Hcap.
  split_and!; [done|done|lia|].
  apply submseteq_length_Permutation.
  - apply NoDup_submseteq.
    + apply NoDup_app. split_and!.
      * apply (wf_free_NoDup b Hwf).
      * intros h Hh. by apply (wf_free b Hwf).
      * apply (wf_live_NoDup b Hwf).
    + intros h Hh. apply elem_of_seq. split; [lia|]. simpl. rewrite <- Hcap.
      apply elem_of_app in Hh as [Hh|Hh].
      * by apply (wf_free b Hwf).
      * destruct (wf_live_slot b Hwf h Hh) as (o & Ho & _).
        by eapply slot_lt.
  - rewrite length_seq, length_app, <- Hcap, <- Hacc. done.
Qed.

(** After [trace_spread], the two resting orders and the free slots
    make the capacity. *)
Lemma pool_accounting_witness :
  reachable (book_after trace_spread)
  ∧ Size (book_after trace_spread)
    + length (free_indices_ (orderPool_ (book_after trace_spread)))
    = POOL_SIZE.
Proof.
  assert (Hr : reachable (book_after trace_spread)).
  { apply book_after_reachable, trace_spread_ok. }
  split; [exact Hr|].
  exact (proj1 (proj2 (proj2 (pool_accounting (book_after trace_spread) Hr)))).
Defined.

(** X2. On a reachable book [AddOrder] throws only the pool's
    exception, and throws it exactly when the id is new, the order is
    not a FillAndKill order that [CanMatch] refuses, and the book holds
    1000000 orders. *)
Theorem AddOrder_throws_iff_full b orderType orderId side price quantity :
  reachable b →
  (AddOrder orderType orderId side price quantity b = Err PoolExhausted
   ↔ orders_ b !! orderId = None
     ∧ (orderType = FillAndKill → CanMatch side price b = true)
     ∧ Size b = POOL_SIZE)
  ∧ (∀ e, AddOrder orderType orderId side price quantity b = Err e →
       e = PoolExhausted).
Proof.
  intros Hr. pose proof (reachable_Inv b Hr) as HI.
  destruct (pool_size_free b Hr) as [Hfull Hfree].
  destruct (AddOrder_cases orderType orderId side price quantity b HI)
    as [(Hdup & Heq)|[(Hid & -> & Hcan & Heq)
       |[(Hid & Hf & Heq)|(h & trades & b' & Hid & Hh & Heq & _)]]];
    rewrite Heq.
  - split; [|done]. split; [done|]. intros (Hid & _). rewrite Hid in Hdup.
    by destruct Hdup.
  - split; [|done]. split; [done|]. intros (_ & Hc & _).
    rewrite Hc in Hcan; done.
  - split; [|by intros e [= <-]]. split; [|done]. intros _.
    split_and!; [done| |by apply Hfree].
    intros ->. destruct (CanMatch side price b) eqn:Hc; [done|].
    by rewrite AddOrder_dropped in Heq.
  - split; [|done]. split; [done|]. intros (_ & _ & Hs).
    apply Hfull in Hs. by rewrite Hs in Hh.
Qed.

(** After [trace_spread] an [AddOrder] cannot throw anything but the
    pool's exception. *)
Lemma AddOrder_throws_iff_full_witness :
  reachable (book_after trace_spread)
  ∧ ∀ e, AddOrder GoodTillCancel 3%N Buy 98%Z 1%N (book_after trace_spread)
         = Err e → e = PoolExhausted.
Proof.
  assert (Hr : reachable (book_after trace_spread)).
  { apply book_after_reachable, trace_spread_ok. }
  split; [exact Hr|].
  exact (proj2 (AddOrder_throws_iff_full (book_after trace_spread)
                  GoodTillCancel 3%N Buy 98%Z 1%N Hr)).
Defined.

(** X3. On a reachable book [CancelOrder] returns: [std::map::at] and
    the pool do not throw. [MatchOrder] of an id that the index does
    not hold returns no trade and leaves the book as it is. [MatchOrder]
    of an order of the book is undefined: the cancel and the add that
    it makes succeed, the add in the slot that the cancel released,
    even in a full book, but the trades that it returns are copied from
    the reference that [AddOrder] bound to a temporary. *)
Theorem cancel_returns_modify_undefined b :
  reachable b →
  (∀ orderId, ∃ b', CancelOrder orderId b = Ok b')
  ∧ (∀ order, orders_ b !! om_orderId order = None →
       ByRef.MatchOrder order b = Ok ([], b))
  ∧ (∀ order h, orders_ b !! om_orderId order = Some h →
       ByRef.MatchOrder order b = Err Undefined
       ∧ ∃ o b1 t b2,
           slot b h = Some o
           ∧ CancelOrder (om_orderId order) b = Ok b1
           ∧ ByRef.AddOrder (orderType_ o) (om_orderId order) (om_side order)
               (om_price order) (om_quantity order) b1
             = Ok (ByRef.temporary t, b2)
           ∧ ByRef.read (ByRef.temporary t) b2 = Err Undefined).
Proof.
  intros HI%reachable_Inv. split_and!.
  - intros id. apply CancelOrder_total, HI.
  - intros order Hid. by apply ByRef_MatchOrder_absent.
  - intros order h Hid. split.
    + by apply (ByRef_MatchOrder_indexed order b h).
    + destruct (ByRef_MatchOrder_steps order b h HI Hid)
        as (o & b1 & t & b2 & Ho & Hc & Hadd).
      exists o, b1, t, b2. done.
Qed.

(** With bids 1 and 2 resting at 100, the modify of bid 2 is
    undefined. *)
Lemma cancel_returns_modify_undefined_witness :
  ∃ b2 h,
    reachable b2
    ∧ orders_ b2 !! 2%N = Some h
    ∧ ByRef.MatchOrder (mkOrderModify 2%N Buy 98%Z 4%N) b2 = Err Undefined.
Proof.
  destruct OrderBook_new_fields
    as (pool & h1 & h2 & h3 & rest & Hnew & H12 & H13 & H23 & Hl1 & Hl2 & Hl3).
  destruct (run_priority_ref pool h1 h2 h3 rest H12 H13 H23 Hl1 Hl2 Hl3)
    as (b1 & b2 & b3 & Hrun0 & Hrun2 & _ & _ & _ & _ & _ & Hid2 & _).
  assert (Hrun1 : run_event (EvAdd GoodTillCancel 1%N Buy 100%Z 5%N)
                    OrderBook_new = Ok ([], b1))
    by (rewrite Hnew; exact Hrun0).
  clear Hnew Hrun0.
  assert (Hr : reachable b2).
  { rewrite <- (book_after_two _ _ _ _ _ _ Hrun1 Hrun2).
    apply book_after_reachable. events_ok. }
  clear Hrun1 Hrun2.
  exists b2, h2. split; [exact Hr|]. split; [exact Hid2|].
  exact (proj1 (proj2 (proj2 (cancel_returns_modify_undefined b2 Hr))
                  (mkOrderModify 2%N Buy 98%Z 4%N) h2 Hid2)).
Defined.

(** X4. Every order queued in a level of a reachable book has the side
    and the price of that level, is the order that the index gives for
    its id, has fields that fit their types, and has no more remaining
    than was submitted, so that [GetFilledQuantity] does not wrap:
    filled and remaining make the initial quantity. *)
Theorem resting_order_consistent b s p l h :
  reachable b → (p, l) ∈ side_map s b → h ∈ l →
  ∃ o, slot b h = Some o
       ∧ side_ o = s ∧ price_ o = p
       ∧ orders_ b !! orderId_ o = Some h
       ∧ (remainingQuantity_ o ≤ initialQuantity_ o)%N
       ∧ (Order.GetFilledQuantity o + remainingQuantity_ o
          = initialQuantity_ o)%N
       ∧ Quantity_ok (initialQuantity_ o) ∧ Price_ok (price_ o)
       ∧ OrderId_ok (orderId_ o).
Proof.
  intros Hr Hl Hh. pose proof (inv_wf b (reachable_Inv b Hr)) as Hwf.
  assert (Hat : at_level (side_map s b) p h) by by exists l.
  destruct (wf_linked b Hwf s p h Hat) as (o & Ho & Hs & Hp & Hid).
  assert (Hlive : h ∈ live b) by (apply elem_live; eauto).
  destruct (orders_ok_reachable b Hr h o Hlive Ho) as (Hle & Hq & Hpo & Hio).
  exists o. split_and!; try done.
  by apply GetFilledQuantity_exact.
Qed.

(** The bid of [trace_spread] rests at 99 with nothing filled. *)
Lemma resting_order_consistent_witness :
  ∃ h o,
    reachable (book_after trace_spread)
    ∧ (99%Z, [h]) ∈ side_map Buy (book_after trace_spread)
    ∧ h ∈ [h]
    ∧ slot (book_after trace_spread) h = Some o
    ∧ price_ o = 99%Z
    ∧ (Order.GetFilledQuantity o + remainingQuantity_ o
       = initialQuantity_ o)%N.
Proof.
  assert (Hr : reachable (book_after trace_spread)).
  { apply book_after_reachable, trace_spread_ok. }
  destruct OrderBook_new_fields
    as (pool & h1 & h2 & h3 & rest & Hnew & H12 & H13 & H23 & Hl1 & Hl2 & Hl3).
  destruct (run_spread pool h1 h2 h3 rest H12 Hl1 Hl2)
    as (b1 & b2 & Hadd1 & Hadd2 & Hb & _).
  assert (Hrun1 : run_event (EvAdd GoodTillCancel 1%N Buy 99%Z 10%N)
                    OrderBook_new = Ok ([], b1))
    by (rewrite Hnew; exact Hadd1).
  clear Hnew Hadd1. revert Hr. unfold trace_spread.
  rewrite (book_after_two _ (EvAdd GoodTillCancel 2%N Sell 100%Z 5%N)
             _ _ _ _ Hrun1 Hadd2).
  clear Hrun1 Hadd2. intros Hr.
  assert (Hin : (99%Z, [h1]) ∈ side_map Buy b2).
  { simpl. rewrite Hb. left. }
  assert (Hh : h1 ∈ [h1]) by left.
  destruct (resting_order_consistent b2 Buy 99%Z [h1] h1 Hr Hin Hh)
    as (o & Ho & _ & Hp & _ & _ & Hsum & _).
  exists h1, o. split_and!; [exact Hr|exact Hin|exact Hh|exact Ho|exact Hp|exact Hsum].
Defined.

(** X5. In a reachable book the index and the levels hold the same
    orders: an id of the index leads to a linked order with that id, a
    linked order is the one the index gives for its id, no order is
    linked twice, and no two linked orders have the same id. *)
Theorem resting_ids_unique b :
  reachable b →
  (∀ id h, orders_ b !! id = Some h
      ↔ h ∈ live b ∧ ∃ o, slot b h = Some o ∧ orderId_ o = id)
  ∧ NoDup (live b)
  ∧ (∀ h h' o o', h ∈ live b → h' ∈ live b →
       slot b h = Some o → slot b h' = Some o' →
       orderId_ o = orderId_ o' → h = h').
Proof.
  intros Hr. pose proof (inv_wf b (reachable_Inv b Hr)) as Hwf.
  split_and!.
  - intros id h. split; [apply (wf_index b Hwf)|].
    intros (Hl & o & Ho & <-).
    destruct (wf_live_slot b Hwf h Hl) as (o' & Ho' & _ & Hid). congruence.
  - apply (wf_live_NoDup b Hwf).
  - intros h h' o o'. by apply WF_id_unique.
Qed.

(** After [trace_spread] no order is linked twice. *)
Lemma resting_ids_unique_witness :
  reachable (book_after trace_spread) ∧ NoDup (live (book_after trace_spread)).
Proof.
  assert (Hr : reachable (book_after trace_spread)).
  { apply book_after_reachable, trace_spread_ok. }
  split; [exact Hr|].
  exact (proj1 (proj2 (resting_ids_unique (book_after trace_spread) Hr))).
Defined.
(** X6. On a reachable book that is not full, the call of [AddOrder]
    for a GoodTillCancel order with a new id that [CanMatch] refuses
    makes no trade, so that [trades_] is empty afterwards, and the
    order rests whole: it takes the slot on top of the free stack, is
    indexed under its id, and is queued behind the orders of the level
    at its price on its side; nothing else of the book changes. The
    reference that the call returns is bound to a temporary. *)
Theorem non_crossing_order_rests b orderId side price quantity :
  reachable b → orders_ b !! orderId = None →
  CanMatch side price b = false → Size b < POOL_SIZE →
  ∃ h b',
    ByRef.AddOrder GoodTillCancel orderId side price quantity b
      = Ok (ByRef.temporary [], b')
    ∧ trades_ b' = []
    ∧ head (free_indices_ (orderPool_ b)) = Some h
    ∧ free_indices_ (orderPool_ b') = tail (free_indices_ (orderPool_ b))
    ∧ orders_ b' = <[orderId := h]> (orders_ b)
    ∧ Size b' = S (Size b)
    ∧ slot b' h = Some (Order.new GoodTillCancel orderId side price quantity)
    ∧ (∀ x, x ≠ h → slot b' x = slot b x)
    ∧ PriceMap.find price (side_map side b')
      = Some (default [] (PriceMap.find price (side_map side b)) ++ [h])
    ∧ (∀ p, p ≠ price →
         PriceMap.find p (side_map side b') = PriceMap.find p (side_map side b))
    ∧ side_map (opposite side) b' = side_map (opposite side) b.
Proof.
  intros Hr Hid Hc Hsize. pose proof (reachable_Inv b Hr) as HI.
  pose proof (inv_wf b HI) as Hwf.
  destruct (pool_size_free b Hr) as [_ Hfree].
  destruct (free_indices_ (orderPool_ b)) as [|h rest] eqn:Hf.
  { unfold Size in Hsize. rewrite Hfree in Hsize by done. lia. }
  assert (Hh : head (free_indices_ (orderPool_ b)) = Some h) by by rewrite Hf.
  rewrite <- Hf. clear Hfree.
  set (o := Order.new GoodTillCancel orderId side price quantity).
  exists h, (set_trades [] (enter h o b)).
  split_and!.
  - apply ByRef_AddOrder_new; [done|]. by apply AddOrder_rests.
  - done.
  - done.
  - done.
  - done.
  - unfold Size. simpl. by apply map_size_insert_None.
  - change (slot (enter h o b) h = Some o).
    rewrite (slot_enter b h o Hwf Hh). by rewrite decide_True.
  - intros x Hx. change (slot (enter h o b) x = slot b x).
    rewrite (slot_enter b h o Hwf Hh). by rewrite decide_False.
  - change (side_map side (set_trades [] (enter h o b)))
      with (side_map side (enter h o b)).
    rewrite side_map_enter. simpl. rewrite decide_True by done.
    apply push_find, Hwf.
  - intros p Hp.
    change (side_map side (set_trades [] (enter h o b)))
      with (side_map side (enter h o b)).
    rewrite side_map_enter. simpl. rewrite decide_True by done.
    by apply push_find_ne.
  - change (side_map (opposite side) (set_trades [] (enter h o b)))
      with (side_map (opposite side) (enter h o b)).
    rewrite side_map_enter. simpl. rewrite decide_False; [done|].
    by destruct side.
Qed.

(** The first order of the warm-up loop of [main] rests in the new
    book. *)
Lemma non_crossing_order_rests_witness :
  reachable OrderBook_new
  ∧ orders_ OrderBook_new !! 999999%N = None
  ∧ CanMatch Buy 99%Z OrderBook_new = false
  ∧ Size OrderBook_new < POOL_SIZE
  ∧ ∃ b', ByRef.AddOrder GoodTillCancel 999999%N Buy 99%Z 1%N OrderBook_new
          = Ok (ByRef.temporary [], b')
          ∧ Size b' = 1.
Proof.
  assert (Hid : orders_ OrderBook_new !! 999999%N = None).
  { destruct OrderBook_new_sides as (_ & _ & -> & _). apply lookup_empty. }
  assert (Hc : CanMatch Buy 99%Z OrderBook_new = false)
    by apply OrderBook_new_CanMatch.
  assert (Hs : Size OrderBook_new < POOL_SIZE).
  { rewrite OrderBook_new_Size. apply POOL_SIZE_pos. }
  split; [apply reachable_new|]. split; [exact Hid|]. split; [exact Hc|].
  split; [exact Hs|].
  destruct (non_crossing_order_rests OrderBook_new 999999%N Buy 99%Z 1%N
              reachable_new Hid Hc Hs)
    as (h & b' & Hadd & _ & _ & _ & _ & Hsize & _).
  exists b'. split; [exact Hadd|].
  rewrite Hsize. by rewrite OrderBook_new_Size.
Defined.

(** X7. On a reachable book that is not full, [AddOrder] of a
    GoodTillCancel order with a new id that [CanMatch] refuses,
    followed by [CancelOrder] of that id, gives back the two sides,
    the index and the free stack as they were; of the slab, only the
    slot that was on top of the free stack has changed: it holds the
    cancelled order. *)
Theorem add_then_cancel_restores b orderId side price quantity :
  reachable b → orders_ b !! orderId = None →
  CanMatch side price b = false → Size b < POOL_SIZE →
  ∃ h b1 b2,
    AddOrder GoodTillCancel orderId side price quantity b = Ok ([], b1)
    ∧ CancelOrder orderId b1 = Ok b2
    ∧ bids_ b2 = bids_ b ∧ asks_ b2 = asks_ b ∧ orders_ b2 = orders_ b
    ∧ Size b2 = Size b
    ∧ free_indices_ (orderPool_ b2) = free_indices_ (orderPool_ b)
    ∧ head (free_indices_ (orderPool_ b)) = Some h
    ∧ pool_ (orderPool_ b2) =
        <[h := Order.new GoodTillCancel orderId side price quantity]>
          (pool_ (orderPool_ b)).
Proof.
  intros Hr Hid Hc Hsize. pose proof (reachable_Inv b Hr) as HI.
  pose proof (inv_wf b HI) as Hwf.
  destruct (pool_size_free b Hr) as [_ Hfree].
  destruct (head (free_indices_ (orderPool_ b))) as [h|] eqn:Hh; last first.
  { destruct (free_indices_ (orderPool_ b)); [|done].
    unfold Size in Hsize. rewrite Hfree in Hsize by done. lia. }
  clear Hfree.
  set (o := Order.new GoodTillCancel orderId side price quantity).
  set (b1 := set_trades [] (enter h o b)).
  assert (Hwf1 : WF b1) by by apply WF_set_trades, WF_enter.
  assert (Hid1 : orders_ b1 !! orderId = Some h) by apply lookup_insert_eq.
  destruct (CancelOrder_retire orderId h b1 Hwf1 Hid1)
    as (o' & Ho' & _ & _ & Hcancel).
  assert (o' = o) as ->.
  { change (slot (enter h o b) h = Some o') in Ho'.
    rewrite (slot_enter b h o Hwf Hh), decide_True in Ho' by done.
    by injection Ho'. }
  unfold b1 in Hcancel. rewrite retire_enter in Hcancel by done.
  eexists h, b1, _. split; [by apply AddOrder_rests|].
  split; [exact Hcancel|]. done.
Qed.

(** One round of the warm-up loop of [main] on the new book. *)
Lemma add_then_cancel_restores_witness :
  reachable OrderBook_new
  ∧ orders_ OrderBook_new !! 999999%N = None
  ∧ CanMatch Buy 99%Z OrderBook_new = false
  ∧ Size OrderBook_new < POOL_SIZE
  ∧ ∃ b1 b2,
      AddOrder GoodTillCancel 999999%N Buy 99%Z 1%N OrderBook_new
      = Ok ([], b1)
      ∧ CancelOrder 999999%N b1 = Ok b2
      ∧ bids_ b2 = [] ∧ asks_ b2 = [] ∧ orders_ b2 = ∅.
Proof.
  assert (Hid : orders_ OrderBook_new !! 999999%N = None).
  { destruct OrderBook_new_sides as (_ & _ & -> & _). apply lookup_empty. }
  assert (Hc : CanMatch Buy 99%Z OrderBook_new = false)
    by apply OrderBook_new_CanMatch.
  assert (Hs : Size OrderBook_new < POOL_SIZE).
  { rewrite OrderBook_new_Size. apply POOL_SIZE_pos. }
  split; [apply reachable_new|]. split; [exact Hid|]. split; [exact Hc|].
  split; [exact Hs|].
  destruct (add_then_cancel_restores OrderBook_new 999999%N Buy 99%Z 1%N
              reachable_new Hid Hc Hs)
    as (h & b1 & b2 & Hadd & Hcancel & Hb & Ha & Ho & _).
  destruct OrderBook_new_sides as (Eb & Ea & Eo & _).
  exists b1, b2. split; [exact Hadd|]. split; [exact Hcancel|].
  split; [by rewrite Hb|]. split; [by rewrite Ha|]. by rewrite Ho.
Defined.

(** X8. [CancelOrder] of an order of a reachable book removes that
    order and nothing else: its id leaves the index, its slot goes on
    top of the free stack, every level keeps its other orders in their
    order, and the slab and the trades are untouched. *)
Theorem cancel_removes_one_order b orderId h :
  reachable b → orders_ b !! orderId = Some h →
  ∃ o b',
    CancelOrder orderId b = Ok b'
    ∧ slot b h = Some o ∧ orderId_ o = orderId
    ∧ orders_ b' = delete orderId (orders_ b)
    ∧ S (Size b') = Size b
    ∧ free_indices_ (orderPool_ b') = h :: free_indices_ (orderPool_ b)
    ∧ pool_ (orderPool_ b') = pool_ (orderPool_ b)
    ∧ trades_ b' = trades_ b
    ∧ (∀ s p, default [] (PriceMap.find p (side_map s b'))
              = filter (λ x, x ≠ h)
                  (default [] (PriceMap.find p (side_map s b))))
    ∧ (∀ s, no_empty_level (side_map s b')).
Proof.
  intros Hr Hid. pose proof (inv_wf b (reachable_Inv b Hr)) as Hwf.
  destruct (CancelOrder_retire orderId h b Hwf Hid)
    as (o & Ho & Hoid & Hl & Hcancel).
  exists o, (retire h o b). split_and!; try done.
  - simpl. by rewrite Hoid.
  - unfold Size. simpl. rewrite Hoid. by eapply map_size_delete_S.
  - intros s p. by apply retire_find_filter.
  - apply (wf_no_empty (retire h o b)). by apply WF_retire.
Qed.

(** After [trace_queue], the cancel of bid 1 leaves bid 2 alone at
    100. *)
Lemma cancel_removes_one_order_witness :
  ∃ h1 h2 b',
    reachable (book_after trace_queue)
    ∧ orders_ (book_after trace_queue) !! 1%N = Some h1
    ∧ bids_ (book_after trace_queue) = [(100%Z, [h1; h2])]
    ∧ h1 ≠ h2
    ∧ CancelOrder 1%N (book_after trace_queue) = Ok b'
    ∧ default [] (PriceMap.find 100%Z (side_map Buy b')) = [h2].
Proof.
  assert (Hr : reachable (book_after trace_queue)).
  { apply book_after_reachable, trace_queue_ok. }
  destruct OrderBook_new_fields
    as (pool & h1 & h2 & h3 & rest & Hnew & H12 & H13 & H23 & Hl1 & Hl2 & Hl3).
  destruct (run_queue pool h1 h2 h3 rest H12 H13 H23 Hl1 Hl2 Hl3)
    as (b1 & b2 & b3 & Hadd1 & Hadd2 & Hb & _ & Hid & _).
  assert (Hrun1 : run_event (EvAdd GoodTillCancel 1%N Buy 100%Z 5%N)
                    OrderBook_new = Ok ([], b1))
    by (rewrite Hnew; exact Hadd1).
  clear Hnew Hadd1. revert Hr. unfold trace_queue.
  rewrite (book_after_two _ (EvAdd GoodTillCancel 2%N Buy 100%Z 5%N)
             _ _ _ _ Hrun1 Hadd2).
  clear Hrun1 Hadd2. intros Hr.
  destruct (cancel_removes_one_order b2 1%N h1 Hr Hid)
    as (o & b' & Hcancel & _ & _ & _ & _ & _ & _ & _ & Hlev & _).
  exists h1, h2, b'.
  split_and!; [exact Hr|exact Hid|exact Hb|exact H12|exact Hcancel|].
  rewrite (Hlev Buy 100%Z). simpl. rewrite Hb. simpl.
  rewrite filter_cons_False by (intros ?; done).
  rewrite filter_cons_True by (intros ?; done). done.
Defined.

(** X9. On a reachable book [CanMatch], which looks at the best price
    of the other side only, holds exactly when some resting order of
    the other side has a price that the limit reaches. *)
Theorem CanMatch_iff_crossing_order b side price :
  reachable b →
  CanMatch side price b = true
  ↔ ∃ h o, h ∈ live b ∧ slot b h = Some o ∧ side_ o = opposite side
           ∧ crosses side price (price_ o).
Proof.
  intros Hr. pose proof (reachable_Inv b Hr) as HI.
  apply CanMatch_crosses. apply (inv_wf b HI).
Qed.

(** After [trace_spread], with an ask at 100, a buy at 100 can match. *)
Lemma CanMatch_iff_crossing_order_witness :
  reachable (book_after trace_spread)
  ∧ CanMatch Buy 100%Z (book_after trace_spread) = true.
Proof.
  assert (Hr : reachable (book_after trace_spread)).
  { apply book_after_reachable, trace_spread_ok. }
  split; [exact Hr|].
  apply (CanMatch_iff_crossing_order (book_after trace_spread) Buy 100%Z Hr).
  destruct OrderBook_new_fields
    as (pool & h1 & h2 & h3 & rest & Hnew & H12 & H13 & H23 & Hl1 & Hl2 & Hl3).
  destruct (run_spread pool h1 h2 h3 rest H12 Hl1 Hl2)
    as (b1 & b2 & Hadd1 & Hadd2 & _ & Ha & _ & Ho2 & _).
  assert (Hrun1 : run_event (EvAdd GoodTillCancel 1%N Buy 99%Z 10%N)
                    OrderBook_new = Ok ([], b1))
    by (rewrite Hnew; exact Hadd1).
  clear Hnew Hadd1 Hr. unfold trace_spread.
  rewrite (book_after_two _ (EvAdd GoodTillCancel 2%N Sell 100%Z 5%N)
             _ _ _ _ Hrun1 Hadd2).
  clear Hrun1 Hadd2.
  exists h2, (Order.new GoodTillCancel 2%N Sell 100%Z 5%N).
  split_and!; [|exact Ho2|reflexivity|simpl; lia].
  unfold live. rewrite Ha. apply elem_of_app. right. left.
Defined.

(** X10. Every trade that [trades_] holds after a call of
    [AddOrder] that reached [MatchOrders] for a new id on a reachable
    book is a trade of the new order: the leg of its side carries its
    id and its limit price, the other leg carries the id and the limit
    price of an order that rested on the other side before the call,
    at a price that the limit reaches, for no more than that order had
    remaining; and the two legs carry the same quantity. *)
Theorem trades_are_with_the_new_order
    b orderType orderId side price quantity r b' :
  reachable b → orders_ b !! orderId = None →
  (orderType = FillAndKill → CanMatch side price b = true) →
  ByRef.AddOrder orderType orderId side price quantity b = Ok (r, b') →
  ∀ t, t ∈ trades_ b' →
    ti_orderId (taker_leg side t) = orderId
    ∧ ti_price (taker_leg side t) = price
    ∧ ti_quantity (bidTrade_ t) = ti_quantity (askTrade_ t)
    ∧ ∃ h o, orders_ b !! ti_orderId (maker_leg side t) = Some h
        ∧ slot b h = Some o
        ∧ side_ o = opposite side
        ∧ price_ o = ti_price (maker_leg side t)
        ∧ crosses side price (price_ o)
        ∧ (ti_quantity (maker_leg side t) ≤ remainingQuantity_ o)%N.
Proof.
  intros Hr Hid Hcan Href.
  destruct (ByRef_AddOrder_matched _ _ _ _ _ _ _ _ (reachable_Inv b Hr)
              Hid Hcan Href) as [Hadd _].
  exact (AddOrder_trades_with b orderType orderId side price quantity
           (trades_ b') b' Hr Hid Hadd).
Qed.

(** The trades of the sell of [trace_priority], against the bids 1 and
    2. *)
Lemma trades_are_with_the_new_order_witness :
  ∃ b2 b3,
    reachable b2 ∧ orders_ b2 !! 3%N = None
    ∧ ByRef.AddOrder GoodTillCancel 3%N Sell 100%Z 7%N b2 =
        Ok (ByRef.temporary
              [mkTrade (mkTradeInfo 1%N 100%Z 5%N) (mkTradeInfo 3%N 100%Z 5%N);
               mkTrade (mkTradeInfo 2%N 100%Z 2%N) (mkTradeInfo 3%N 100%Z 2%N)],
            b3)
    ∧ mkTrade (mkTradeInfo 2%N 100%Z 2%N) (mkTradeInfo 3%N 100%Z 2%N)
      ∈ trades_ b3
    ∧ ∃ h o, orders_ b2 !! 2%N = Some h ∧ slot b2 h = Some o
             ∧ side_ o = Buy ∧ (2 ≤ remainingQuantity_ o)%N.
Proof.
  destruct OrderBook_new_fields
    as (pool & h1 & h2 & h3 & rest & Hnew & H12 & H13 & H23 & Hl1 & Hl2 & Hl3).
  destruct (run_priority_ref pool h1 h2 h3 rest H12 H13 H23 Hl1 Hl2 Hl3)
    as (b1 & b2 & b3 & Hrun0 & Hrun2 & _ & _ & _ & _ & Hid3 & _ & _ & _
        & Href & Ht3 & _).
  assert (Hrun1 : run_event (EvAdd GoodTillCancel 1%N Buy 100%Z 5%N)
                    OrderBook_new = Ok ([], b1))
    by (rewrite Hnew; exact Hrun0).
  clear Hnew Hrun0.
  assert (Hr : reachable b2).
  { rewrite <- (book_after_two _ _ _ _ _ _ Hrun1 Hrun2).
    apply book_after_reachable. events_ok. }
  clear Hrun1 Hrun2.
  assert (Hcan : GoodTillCancel = FillAndKill → CanMatch Sell 100%Z b2 = true)
    by done.
  assert (Hin : mkTrade (mkTradeInfo 2%N 100%Z 2%N) (mkTradeInfo 3%N 100%Z 2%N)
                ∈ trades_ b3).
  { rewrite Ht3. right. left. }
  exists b2, b3. split_and!; [exact Hr|exact Hid3|exact Href|exact Hin|].
  destruct (trades_are_with_the_new_order b2 GoodTillCancel 3%N Sell 100%Z 7%N
              _ b3 Hr Hid3 Hcan Href _ Hin)
    as (_ & _ & _ & h & o & Hh & Ho & Hs & _ & _ & Hle).
  exists h, o. split_and!; [exact Hh|exact Ho|exact Hs|exact Hle].
Defined.

(** X11. The trades that [trades_] holds after a call of [AddOrder]
    that reached [MatchOrders] for a new id on a reachable book move no
    more than the quantity of the order; if the order rests afterwards,
    what it has remaining and what was traded make its quantity; and
    a GoodTillCancel order that does not rest afterwards was traded in
    full. *)
Theorem traded_quantity_conserved
    b orderType orderId side price quantity r b' :
  reachable b → orders_ b !! orderId = None →
  (orderType = FillAndKill → CanMatch side price b = true) →
  ByRef.AddOrder orderType orderId side price quantity b = Ok (r, b') →
  (traded (trades_ b') ≤ quantity)%N
  ∧ (∀ h o, orders_ b' !! orderId = Some h → slot b' h = Some o →
       (remainingQuantity_ o + traded (trades_ b'))%N = quantity)
  ∧ (orderType = GoodTillCancel → orders_ b' !! orderId = None →
       traded (trades_ b') = quantity).
Proof.
  intros Hr Hid Hcan Href.
  destruct (ByRef_AddOrder_matched _ _ _ _ _ _ _ _ (reachable_Inv b Hr)
              Hid Hcan Href) as [Hadd _].
  exact (AddOrder_traded b orderType orderId side price quantity
           (trades_ b') b' Hr Hid Hadd).
Qed.

(** The sell of 7 of [trace_priority] trades 5 and 2 and does not
    rest. *)
Lemma traded_quantity_conserved_witness :
  ∃ b2 b3,
    reachable b2 ∧ orders_ b2 !! 3%N = None
    ∧ ByRef.AddOrder GoodTillCancel 3%N Sell 100%Z 7%N b2 =
        Ok (ByRef.temporary
              [mkTrade (mkTradeInfo 1%N 100%Z 5%N) (mkTradeInfo 3%N 100%Z 5%N);
               mkTrade (mkTradeInfo 2%N 100%Z 2%N) (mkTradeInfo 3%N 100%Z 2%N)],
            b3)
    ∧ orders_ b3 !! 3%N = None
    ∧ traded (trades_ b3) = 7%N.
Proof.
  destruct OrderBook_new_fields
    as (pool & h1 & h2 & h3 & rest & Hnew & H12 & H13 & H23 & Hl1 & Hl2 & Hl3).
  destruct (run_priority_ref pool h1 h2 h3 rest H12 H13 H23 Hl1 Hl2 Hl3)
    as (b1 & b2 & b3 & Hrun0 & Hrun2 & _ & _ & _ & _ & Hid3 & _ & _ & _
        & Href & _ & _ & _ & Hidx & _).
  assert (Hrun1 : run_event (EvAdd GoodTillCancel 1%N Buy 100%Z 5%N)
                    OrderBook_new = Ok ([], b1))
    by (rewrite Hnew; exact Hrun0).
  clear Hnew Hrun0.
  assert (Hr : reachable b2).
  { rewrite <- (book_after_two _ _ _ _ _ _ Hrun1 Hrun2).
    apply book_after_reachable. events_ok. }
  clear Hrun1 Hrun2.
  assert (Hcan : GoodTillCancel = FillAndKill → CanMatch Sell 100%Z b2 = true)
    by done.
  assert (Hnone : orders_ b3 !! 3%N = None).
  { rewrite Hidx. by apply lookup_singleton_ne. }
  exists b2, b3. split_and!; [exact Hr|exact Hid3|exact Href|exact Hnone|].
  exact (proj2 (proj2 (traded_quantity_conserved b2 GoodTillCancel 3%N Sell
                         100%Z 7%N _ b3 Hr Hid3 Hcan Href)) eq_refl Hnone).
Defined.

(** X12. After a call of [AddOrder] for a new id on a reachable book,
    [trades_] holds a trade if [CanMatch] held for the order, were it
    a trade of the quantity 0, and holds none if the order is a
    GoodTillCancel order for which [CanMatch] did not hold; for a
    FillAndKill order that [CanMatch] refuses the call leaves the
    book as it is, [trades_] with the trades of an earlier call
    included. *)
Theorem trades_recorded_iff_CanMatch
    b orderType orderId side price quantity r b' :
  reachable b → orders_ b !! orderId = None →
  ByRef.AddOrder orderType orderId side price quantity b = Ok (r, b') →
  (CanMatch side price b = true → trades_ b' ≠ [])
  ∧ (CanMatch side price b = false → orderType = GoodTillCancel →
       trades_ b' = [])
  ∧ (CanMatch side price b = false → orderType = FillAndKill →
       b' = b ∧ r = ByRef.temporary []).
Proof.
  intros Hr Hid Href. pose proof (reachable_Inv b Hr) as HI.
  split_and!.
  - intros Hc.
    destruct (ByRef_AddOrder_matched _ _ _ _ _ _ _ _ HI Hid (λ _, Hc) Href)
      as [Hadd _].
    intros Hnil.
    by apply (AddOrder_trades_nil_iff b orderType orderId side price quantity
                (trades_ b') b' Hr Hid Hadd) in Hnil; congruence.
  - intros Hc ->.
    destruct (ByRef_AddOrder_matched _ _ _ _ _ _ _ _ HI Hid
                (λ H : GoodTillCancel = FillAndKill,
                   match H with end) Href) as [Hadd _].
    by apply (AddOrder_trades_nil_iff b GoodTillCancel orderId side price
                quantity (trades_ b') b' Hr Hid Hadd).
  - intros Hc ->.
    apply ByRef_AddOrder_Ok in Href as (t & Hadd & ->).
    rewrite AddOrder_dropped in Hadd by done.
    injection Hadd as <- <-. by rewrite Hid.
Qed.

(** After a bid at 100, a sell of nothing at 100 makes a trade of
    nothing. *)
Lemma trades_recorded_iff_CanMatch_witness :
  ∃ b1 b2,
    reachable b1 ∧ orders_ b1 !! 2%N = None
    ∧ ByRef.AddOrder GoodTillCancel 2%N Sell 100%Z 0%N b1 =
        Ok (ByRef.temporary
              [mkTrade (mkTradeInfo 1%N 100%Z 0%N) (mkTradeInfo 2%N 100%Z 0%N)],
            b2)
    ∧ CanMatch Sell 100%Z b1 = true
    ∧ trades_ b2 ≠ [].
Proof.
  destruct OrderBook_new_fields
    as (pool & h1 & h2 & h3 & rest & Hnew & H12 & H13 & H23 & Hl1 & Hl2 & Hl3).
  destruct (run_zero_cross pool h1 h2 h3 rest H12 H13 H23 Hl1 Hl2 Hl3)
    as (b1 & b2 & Hadd1 & Hid2 & Hadd2 & _).
  assert (Hrun1 : run_event (EvAdd GoodTillCancel 1%N Buy 100%Z 5%N)
                    OrderBook_new = Ok ([], b1))
    by (rewrite Hnew; exact Hadd1).
  clear Hnew Hadd1.
  assert (Hr : reachable b1).
  { rewrite <- (book_after_one _ _ _ Hrun1).
    apply book_after_reachable. events_ok. }
  clear Hrun1.
  pose proof (ByRef_AddOrder_new _ _ _ _ _ _ _ _ Hid2 Hadd2) as Href.
  assert (Hc : CanMatch Sell 100%Z b1 = true).
  { destruct (CanMatch Sell 100%Z b1) eqn:Hc; [done|].
    apply (AddOrder_trades_nil_iff b1 GoodTillCancel 2%N Sell 100%Z 0%N _ b2
             Hr Hid2 Hadd2) in Hc. discriminate Hc. }
  exists b1, b2. split_and!; [exact Hr|exact Hid2|exact Href|exact Hc|].
  exact (proj1 (trades_recorded_iff_CanMatch b1 GoodTillCancel 2%N Sell 100%Z
                  0%N _ b2 Hr Hid2 Href) Hc).
Defined.

(** X13. The trades that [trades_] holds after a call of [AddOrder]
    that reached [MatchOrders] for a new id on a reachable book come
    best price first: along the list the ask prices do not fall and
    the bid prices do not rise; and no price level that is left in the
    book is better than a price that was traded, on either side. *)
Theorem trades_best_price_first
    b orderType orderId side price quantity r b' :
  reachable b → orders_ b !! orderId = None →
  (orderType = FillAndKill → CanMatch side price b = true) →
  ByRef.AddOrder orderType orderId side price quantity b = Ok (r, b') →
  StronglySorted price_order (trades_ b')
  ∧ ∀ t, t ∈ trades_ b' →
      (∀ pa, pa ∈ (asks_ b').*1 → (ti_price (askTrade_ t) ≤ pa)%Z)
      ∧ (∀ pb, pb ∈ (bids_ b').*1 → (pb ≤ ti_price (bidTrade_ t))%Z).
Proof.
  intros Hr Hid Hcan Href.
  destruct (ByRef_AddOrder_matched _ _ _ _ _ _ _ _ (reachable_Inv b Hr)
              Hid Hcan Href) as [Hadd _].
  exact (AddOrder_best_first b orderType orderId side price quantity
           (trades_ b') b' Hr Hadd).
Qed.

(** With asks at 101 and, later, at 100, a bid of 7 at 101 trades at
    100 first. *)
Lemma trades_best_price_first_witness :
  ∃ b2 b3,
    reachable b2 ∧ orders_ b2 !! 3%N = None
    ∧ ByRef.AddOrder GoodTillCancel 3%N Buy 101%Z 7%N b2 =
        Ok (ByRef.temporary
              [mkTrade (mkTradeInfo 3%N 101%Z 5%N) (mkTradeInfo 2%N 100%Z 5%N);
               mkTrade (mkTradeInfo 3%N 101%Z 2%N) (mkTradeInfo 1%N 101%Z 2%N)],
            b3)
    ∧ StronglySorted price_order (trades_ b3).
Proof.
  destruct OrderBook_new_fields
    as (pool & h1 & h2 & h3 & rest & Hnew & H12 & H13 & H23 & Hl1 & Hl2 & Hl3).
  destruct (run_levels pool h1 h2 h3 rest H12 H13 H23 Hl1 Hl2 Hl3)
    as (b1 & b2 & b3 & Hadd1 & Hadd2 & _ & Hid3 & Hadd3 & _).
  assert (Hrun1 : run_event (EvAdd GoodTillCancel 1%N Sell 101%Z 5%N)
                    OrderBook_new = Ok ([], b1))
    by (rewrite Hnew; exact Hadd1).
  clear Hnew Hadd1.
  assert (Hr : reachable b2).
  { rewrite <- (book_after_two _ (EvAdd GoodTillCancel 2%N Sell 100%Z 5%N)
                 _ _ _ _ Hrun1 Hadd2).
    apply book_after_reachable. events_ok. }
  clear Hrun1 Hadd2.
  pose proof (ByRef_AddOrder_new _ _ _ _ _ _ _ _ Hid3 Hadd3) as Href.
  assert (Hcan : GoodTillCancel = FillAndKill → CanMatch Buy 101%Z b2 = true)
    by done.
  exists b2, b3. split_and!; [exact Hr|exact Hid3|exact Href|].
  exact (proj1 (trades_best_price_first b2 GoodTillCancel 3%N Buy 101%Z 7%N
                  _ b3 Hr Hid3 Hcan Href)).
Defined.

(** X14. [AddOrder] on a reachable book takes orders from the front of
    the queues only: afterwards every level of the other side holds a
    tail of the queue it held before, every level of the side of the
    order at another price as well, and the level at the price of the
    order a tail of its queue with at most the new order behind it. *)
Theorem queues_keep_their_order
    b orderType orderId side price quantity trades b' :
  reachable b →
  AddOrder orderType orderId side price quantity b = Ok (trades, b') →
  (∀ p, default [] (PriceMap.find p (side_map (opposite side) b'))
        `suffix_of` default [] (PriceMap.find p (side_map (opposite side) b)))
  ∧ (∀ p, p ≠ price →
        default [] (PriceMap.find p (side_map side b'))
        `suffix_of` default [] (PriceMap.find p (side_map side b)))
  ∧ ∃ l, length l ≤ 1
      ∧ default [] (PriceMap.find price (side_map side b'))
        `suffix_of` default [] (PriceMap.find price (side_map side b)) ++ l.
Proof.
  intros Hr Hadd. pose proof (reachable_Inv b Hr) as HI.
  pose proof (inv_wf b HI) as Hwf.
  assert (Hsame : ∀ b0, (∀ s, side_map s b0 = side_map s b) →
    (∀ p, default [] (PriceMap.find p (side_map (opposite side) b0))
          `suffix_of` default [] (PriceMap.find p (side_map (opposite side) b)))
    ∧ (∀ p, p ≠ price →
          default [] (PriceMap.find p (side_map side b0))
          `suffix_of` default [] (PriceMap.find p (side_map side b)))
    ∧ ∃ l, length l ≤ 1
        ∧ default [] (PriceMap.find price (side_map side b0))
          `suffix_of` default [] (PriceMap.find price (side_map side b)) ++ l).
  { intros b0 E. split_and!.
    - intros p. by rewrite E.
    - intros p _. by rewrite E.
    - exists []. split; [simpl; lia|]. by rewrite E, app_nil_r. }
  destruct (AddOrder_cases orderType orderId side price quantity b HI)
    as [(_ & Heq)|[(_ & _ & _ & Heq)
       |[(_ & _ & Heq)|(h & trades0 & b0 & Hid & Hh & _)]]].
  - rewrite Heq in Hadd. injection Hadd as _ <-. apply Hsame. by intros [].
  - rewrite Heq in Hadd. injection Hadd as _ <-. by apply Hsame.
  - congruence.
  - destruct (decide (orderType = FillAndKill
                      ∧ CanMatch side price b = false)) as [[-> Hc]|Hc].
    { rewrite AddOrder_dropped in Hadd by done. injection Hadd as _ <-.
      by apply Hsame. }
    set (o := Order.new orderType orderId side price quantity).
    rewrite (AddOrder_enter _ orderId side price quantity b h) in Hadd;
      [|done..| |done]; last first.
    { intros ->. destruct (CanMatch side price b); [done|]. by destruct Hc. }
    pose proof (WF_enter h o b Hwf Hh Hid) as Hwf0.
    split_and!.
    + intros p.
      etrans; [by eapply (MatchOrders_suffix _ trades b')|].
      rewrite side_map_enter. simpl. rewrite decide_False; [done|].
      by destruct side.
    + intros p Hp.
      etrans; [by eapply (MatchOrders_suffix _ trades b')|].
      rewrite side_map_enter. simpl. rewrite decide_True by done.
      by rewrite push_find_ne.
    + exists [h]. split; [done|].
      etrans; [by eapply (MatchOrders_suffix _ trades b')|].
      rewrite side_map_enter. simpl. rewrite decide_True by done.
      rewrite push_find by apply Hwf. done.
Qed.

(** The sell of [trace_priority] leaves, of the two bids queued at
    100, the second. *)
Lemma queues_keep_their_order_witness :
  ∃ b2 b3 h1 h2,
    reachable b2
    ∧ AddOrder GoodTillCancel 3%N Sell 100%Z 7%N b2 =
        Ok ([mkTrade (mkTradeInfo 1%N 100%Z 5%N) (mkTradeInfo 3%N 100%Z 5%N);
             mkTrade (mkTradeInfo 2%N 100%Z 2%N) (mkTradeInfo 3%N 100%Z 2%N)],
            b3)
    ∧ bids_ b2 = [(100%Z, [h1; h2])] ∧ bids_ b3 = [(100%Z, [h2])]
    ∧ default [] (PriceMap.find 100%Z (side_map (opposite Sell) b3))
      `suffix_of` default [] (PriceMap.find 100%Z (side_map (opposite Sell) b2)).
Proof.
  destruct OrderBook_new_fields
    as (pool & h1 & h2 & h3 & rest & Hnew & H12 & H13 & H23 & Hl1 & Hl2 & Hl3).
  destruct (run_priority pool h1 h2 h3 rest H12 H13 H23 Hl1 Hl2 Hl3)
    as (b1 & b2 & b3 & Hadd1 & Hadd2 & Hb2 & _ & _ & _ & Hadd3 & Hb3 & _).
  assert (Hrun1 : run_event (EvAdd GoodTillCancel 1%N Buy 100%Z 5%N)
                    OrderBook_new = Ok ([], b1))
    by (rewrite Hnew; exact Hadd1).
  clear Hnew Hadd1.
  assert (Hr : reachable b2).
  { rewrite <- (book_after_two _ (EvAdd GoodTillCancel 2%N Buy 100%Z 5%N)
                 _ _ _ _ Hrun1 Hadd2).
    apply book_after_reachable. events_ok. }
  clear Hrun1 Hadd2.
  exists b2, b3, h1, h2.
  split_and!; [exact Hr|exact Hadd3|exact Hb2|exact Hb3|].
  exact (proj1 (queues_keep_their_order b2 GoodTillCancel 3%N Sell 100%Z 7%N
                  _ b3 Hr Hadd3) 100%Z).
Defined.

(** X15. A new pool of [n] slots holds default orders, none of them
    in use, with the indices 0 to [n - 1] on the free stack, the last
    on top: the first [acquire] takes the last slot of the slab,
    and a pool of no slots is exhausted from the start. *)
Theorem ObjectPool_new_spec n :
  pool_inv (ObjectPool.new n) ∅
  ∧ length (pool_ (ObjectPool.new n)) = n
  ∧ (∀ h, h < n → pool_ (ObjectPool.new n) !! h = Some Order.default)
  ∧ (∀ h, h ∈ free_indices_ (ObjectPool.new n) ↔ h < n)
  ∧ (∀ o, ObjectPool.acquire o (ObjectPool.new (S n))
          = Ok (n, mkPool (<[n := o]> (replicate (S n) Order.default))
                     (reverse (seq 0 n))))
  ∧ (∀ o, ObjectPool.acquire o (ObjectPool.new 0) = Err PoolExhausted).
Proof.
  unfold ObjectPool.new. split_and!.
  - split_and!; cbn [free_indices_ pool_].
    + rewrite reverse_Permutation. apply NoDup_seq.
    + intros h. rewrite elem_of_reverse, elem_of_seq, length_replicate.
      split; [lia|]. apply not_elem_of_empty.
    + intros h Hh. by apply elem_of_empty in Hh.
    + rewrite length_reverse, length_seq, length_replicate.
      rewrite size_empty. lia.
  - simpl. apply length_replicate.
  - intros h Hh. simpl. by apply lookup_replicate_2.
  - intros h. simpl. rewrite elem_of_reverse, elem_of_seq. lia.
  - intros o. unfold ObjectPool.acquire. cbn [free_indices_ pool_].
    rewrite seq_S, reverse_snoc. cbn [Nat.add].
    rewrite length_replicate. by rewrite decide_True by lia.
  - done.
Qed.

(** X16. On a pool that its user keeps as [pool_inv] says, [acquire]
    throws exactly when every slot is in use; otherwise it hands out a
    slot of the slab that is not in use, the one on top of the free
    stack, writes the new object there and leaves the other slots as
    they are. *)
Theorem acquire_gives_unused_slot p used o :
  pool_inv p used →
  (size used = length (pool_ p) → ObjectPool.acquire o p = Err PoolExhausted)
  ∧ (size used < length (pool_ p) →
     ∃ h p', ObjectPool.acquire o p = Ok (h, p')
       ∧ head (free_indices_ p) = Some h
       ∧ (h ∉ used) ∧ h < length (pool_ p)
       ∧ pool_ p' !! h = Some o
       ∧ (∀ x, x ≠ h → pool_ p' !! x = pool_ p !! x)
       ∧ length (pool_ p') = length (pool_ p)
       ∧ pool_inv p' ({[h]} ∪ used)).
Proof.
  intros (Hnd & Hfree & Hused & Hlen). unfold ObjectPool.acquire.
  destruct (free_indices_ p) as [|h rest] eqn:Hf.
  { split; [done|]. simpl in Hlen. lia. }
  split; [simpl in Hlen; lia|]. intros _.
  destruct (Hfree h) as [Hh Hnu]; [left|].
  rewrite decide_True by done.
  apply NoDup_cons in Hnd as [Hhr Hnd].
  eexists h, _. split_and!; try done.
  - simpl. by apply list_lookup_insert_eq.
  - intros x Hx. simpl. by apply list_lookup_insert_ne.
  - simpl. apply length_insert.
  - split_and!; simpl.
    + done.
    + intros x Hx. destruct (Hfree x) as [Hxl Hxu]; [by right|].
      rewrite length_insert. split; [done|].
      apply not_elem_of_union. split; [|done].
      intros ->%elem_of_singleton. done.
    + intros x. rewrite length_insert.
      intros [->%elem_of_singleton|Hx]%elem_of_union; [done|by apply Hused].
    + rewrite length_insert, size_union, size_singleton.
      * simpl in Hlen. lia.
      * intros x ->%elem_of_singleton. done.
Qed.

(** The first [acquire] on a new pool of two slots. *)
Lemma acquire_gives_unused_slot_witness :
  pool_inv (ObjectPool.new 2) ∅
  ∧ ∃ p', ObjectPool.acquire (Order.new GoodTillCancel 1%N Buy 100%Z 5%N)
            (ObjectPool.new 2) = Ok (1, p')
          ∧ pool_inv p' ({[1]} ∪ ∅).
Proof.
  assert (Hinv : pool_inv (ObjectPool.new 2) ∅).
  { split_and!.
    - apply NoDup_ListNoDup. repeat constructor; simpl; intuition lia.
    - intros h Hh. split; [|apply not_elem_of_empty].
      repeat (apply elem_of_cons in Hh as [->|Hh]; [simpl; lia|]).
      by apply elem_of_nil in Hh.
    - intros h Hh. by apply elem_of_empty in Hh.
    - reflexivity. }
  split; [exact Hinv|].
  destruct (proj2 (acquire_gives_unused_slot (ObjectPool.new 2) ∅
                     (Order.new GoodTillCancel 1%N Buy 100%Z 5%N) Hinv))
    as (h & p' & Hacq & Hh & _ & _ & _ & _ & _ & Hinv').
  { rewrite size_empty. simpl. lia. }
  injection Hh as <-. exists p'. split; [exact Hacq|exact Hinv'].
Defined.

(** X17. [release] throws exactly when the pointer is not into the
    slab; otherwise it puts the index on top of the free stack and
    leaves every slot as it is, the released object included. For a
    slot that was in use, the pool stays as [pool_inv] says, with that
    slot out of use. *)
Theorem release_spec p used h :
  pool_inv p used →
  (length (pool_ p) ≤ h → ObjectPool.release h p = Err AlienPointer)
  ∧ (h < length (pool_ p) →
     ObjectPool.release h p = Ok (mkPool (pool_ p) (h :: free_indices_ p)))
  ∧ (h ∈ used →
     pool_inv (mkPool (pool_ p) (h :: free_indices_ p)) (used ∖ {[h]})).
Proof.
  intros (Hnd & Hfree & Hused & Hlen). unfold ObjectPool.release. split_and!.
  - intros Hh. by rewrite decide_True.
  - intros Hh. by rewrite decide_False by lia.
  - intros Hh. split_and!; cbn [free_indices_ pool_].
    + apply NoDup_cons. split; [|done]. intros Hin.
      by destruct (Hfree h Hin).
    + intros x [->|Hx]%elem_of_cons.
      * split; [by apply Hused|]. rewrite elem_of_difference.
        intros [_ Hne]. apply Hne. by apply elem_of_singleton.
      * destruct (Hfree x Hx) as [Hxl Hxu]. split; [done|].
        rewrite elem_of_difference. by intros [? _].
    + intros x [Hx _]%elem_of_difference. by apply Hused.
    + assert (Hsub : ({[h]} : gset OrderPointer) ⊆ used).
      { intros x ->%elem_of_singleton. done. }
      rewrite (size_difference used {[h]} Hsub), size_singleton.
      cbn [length]. assert (size used ≠ 0); [|lia].
      intros Hz%size_empty_inv. specialize (Hz h).
      rewrite elem_of_empty in Hz. by apply Hz.
Qed.

(** On a pool of two slots with slot 1 in use, slot 1 is released and
    a pointer behind the slab is refused. *)
Lemma release_spec_witness :
  pool_inv (mkPool [Order.default; Order.default] [0]) {[1]}
  ∧ ObjectPool.release 2 (mkPool [Order.default; Order.default] [0])
    = Err AlienPointer
  ∧ ObjectPool.release 1 (mkPool [Order.default; Order.default] [0])
    = Ok (mkPool [Order.default; Order.default] [1; 0]).
Proof.
  assert (Hinv : pool_inv (mkPool [Order.default; Order.default] [0]) {[1]}).
  { split_and!; cbn [free_indices_ pool_].
    - apply NoDup_singleton.
    - intros h ->%list_elem_of_singleton. split; [simpl; lia|].
      intros ?%elem_of_singleton. lia.
    - intros h ->%elem_of_singleton. simpl. lia.
    - by rewrite size_singleton. }
  split; [exact Hinv|].
  destruct (release_spec (mkPool [Order.default; Order.default] [0]) {[1]} 2
              Hinv) as (Herr & _ & _).
  destruct (release_spec (mkPool [Order.default; Order.default] [0]) {[1]} 1
              Hinv) as (_ & Hok & _).
  split; [apply Herr; simpl; lia|apply Hok; simpl; lia].
Defined.

(** X18. The free stack is last in, first out: an [acquire] after a
    [release] takes the released slot again and leaves the stack as it
    was before the [release]; and a [release] of the slot that an
    [acquire] gave puts the stack back as it was before the
    [acquire]. *)
Theorem pool_reuses_last_released p h o :
  (h < length (pool_ p) →
   ∃ p1, ObjectPool.release h p = Ok p1
     ∧ ObjectPool.acquire o p1
       = Ok (h, mkPool (<[h := o]> (pool_ p)) (free_indices_ p)))
  ∧ (∀ p1, ObjectPool.acquire o p = Ok (h, p1) →
       ObjectPool.release h p1
       = Ok (mkPool (<[h := o]> (pool_ p)) (free_indices_ p))).
Proof.
  split.
  - intros Hh. eexists. split.
    + unfold ObjectPool.release. by rewrite decide_False by lia.
    + unfold ObjectPool.acquire. simpl. by rewrite decide_True.
  - intros p1. unfold ObjectPool.acquire.
    destruct (free_indices_ p) as [|x rest] eqn:Hf; [done|].
    case_decide as Hx; [|done]. intros [= -> <-].
    unfold ObjectPool.release. simpl.
    rewrite length_insert. by rewrite decide_False by lia.
Qed.

(** Slot 0 of a pool of two slots, released and acquired again. *)
Lemma pool_reuses_last_released_witness :
  ∃ p1,
    ObjectPool.release 0 (mkPool [Order.default; Order.default] [1]) = Ok p1
    ∧ ObjectPool.acquire (Order.new GoodTillCancel 7%N Sell 10%Z 1%N) p1
      = Ok (0, mkPool [Order.new GoodTillCancel 7%N Sell 10%Z 1%N;
                       Order.default] [1]).
Proof.
  apply (proj1 (pool_reuses_last_released
                  (mkPool [Order.default; Order.default] [1]) 0
                  (Order.new GoodTillCancel 7%N Sell 10%Z 1%N))).
  simpl. lia.
Defined.

(** X19. [release] does not check that the slot is in use: a second
    [release] of the same pointer succeeds as the first, and the next
    two calls of [acquire] then hand out the same slot, the second
    object overwriting the first. *)
Theorem double_release_hands_slot_out_twice p h o1 o2 :
  h < length (pool_ p) →
  ∃ p1 p2 p3 p4,
    ObjectPool.release h p = Ok p1
    ∧ ObjectPool.release h p1 = Ok p2
    ∧ ObjectPool.acquire o1 p2 = Ok (h, p3)
    ∧ ObjectPool.acquire o2 p3 = Ok (h, p4)
    ∧ pool_ p4 !! h = Some o2.
Proof.
  intros Hh. eexists _, _, _, _. split_and!.
  - unfold ObjectPool.release. by rewrite decide_False by lia.
  - unfold ObjectPool.release. simpl. by rewrite decide_False by lia.
  - unfold ObjectPool.acquire. simpl. by rewrite decide_True.
  - unfold ObjectPool.acquire. simpl. rewrite length_insert.
    by rewrite decide_True.
  - simpl. apply list_lookup_insert_eq. by rewrite length_insert.
Qed.

(** Slot 0 of a pool of one slot, released twice. *)
Lemma double_release_hands_slot_out_twice_witness :
  ∃ p2 p3 p4,
    ObjectPool.release 0 (mkPool [Order.default] [0]) = Ok p2
    ∧ ObjectPool.acquire (Order.new GoodTillCancel 1%N Buy 10%Z 1%N)
        (mkPool [Order.default] [0; 0; 0]) = Ok (0, p3)
    ∧ ObjectPool.acquire (Order.new GoodTillCancel 2%N Buy 10%Z 1%N) p3
      = Ok (0, p4)
    ∧ pool_ p4 !! 0 = Some (Order.new GoodTillCancel 2%N Buy 10%Z 1%N).
Proof.
  destruct (double_release_hands_slot_out_twice (mkPool [Order.default] [0]) 0
              (Order.new GoodTillCancel 1%N Buy 10%Z 1%N)
              (Order.new GoodTillCancel 2%N Buy 10%Z 1%N))
    as (p1 & p2 & p3 & p4 & H1 & H2 & H3 & H4 & H5); [simpl; lia|].
  exists p1, p3, p4. split; [exact H1|].
  injection H1 as <-. injection H2 as <-.
  split_and!; [exact H3|exact H4|exact H5].
Defined.

(** X20. For an order with no more remaining than was submitted,
    [Fill] by a quantity that does not exceed the remaining quantity
    keeps the type, id, side, price and initial quantity, and moves
    the quantity from remaining to filled: [GetFilledQuantity], whose
    subtraction then does not wrap, grows by it, filled and remaining
    still make the initial quantity, and [IsFilled] holds afterwards
    exactly when the quantity was all that remained. *)
Theorem Fill_accounting quantity o :
  Order_ok o → (quantity ≤ remainingQuantity_ o)%N →
  ∃ o', Order.Fill quantity o = Ok o'
    ∧ Order_ok o' ∧ same_order o o'
    ∧ (Order.GetFilledQuantity o'
       = Order.GetFilledQuantity o + quantity)%N
    ∧ (Order.GetFilledQuantity o' + remainingQuantity_ o'
       = initialQuantity_ o)%N
    ∧ (Order.IsFilled o' = true ↔ quantity = remainingQuantity_ o).
Proof.
  intros Hok Hq. pose proof Hok as (Hle & Hi & Hp & Hid).
  eexists. split.
  { unfold Order.Fill.
    by destruct (N.ltb_spec (remainingQuantity_ o) quantity); [lia|]. }
  set (o' := mkOrder _ _ _ _ _ _).
  assert (Hok' : Order_ok o').
  { apply (Order_ok_same o); [done|by repeat split|simpl; lia]. }
  pose proof (GetFilledQuantity_exact o Hle Hi) as Hsum.
  pose proof (GetFilledQuantity_exact o' (proj1 Hok') Hi) as Hsum'.
  assert (Hr' : remainingQuantity_ o' = (remainingQuantity_ o - quantity)%N)
    by done.
  assert (Hi' : initialQuantity_ o' = initialQuantity_ o) by done.
  assert (Hs' : same_order o o') by by repeat split.
  unfold Order.IsFilled. rewrite N.eqb_eq.
  clearbody o'. rewrite Hr', Hi' in Hsum'. rewrite Hr'.
  split_and!; [done|done|lia|lia|lia].
Qed.

(** An order of 10 with 6 remaining, filled by 6. *)
Lemma Fill_accounting_witness :
  Order_ok (mkOrder GoodTillCancel 1%N Buy 100%Z 10%N 6%N)
  ∧ (6 ≤ 6)%N
  ∧ ∃ o', Order.Fill 6%N (mkOrder GoodTillCancel 1%N Buy 100%Z 10%N 6%N)
          = Ok o'
          ∧ Order.GetFilledQuantity o' = 10%N
          ∧ Order.IsFilled o' = true.
Proof.
  assert (Hok : Order_ok (mkOrder GoodTillCancel 1%N Buy 100%Z 10%N 6%N)).
  { unfold Order_ok, Quantity_ok, Quantity_modulus, Price_ok, OrderId_ok.
    simpl. lia. }
  assert (Hq : (6 ≤ remainingQuantity_
                      (mkOrder GoodTillCancel 1%N Buy 100%Z 10%N 6%N))%N)
    by (simpl; lia).
  split; [exact Hok|]. split; [lia|].
  destruct (Fill_accounting 6%N _ Hok Hq)
    as (o' & Hfill & _ & _ & Hfilled & _ & Hdone).
  exists o'. split; [exact Hfill|]. split.
  - rewrite Hfilled. reflexivity.
  - by apply Hdone.
Defined.

(** X21. Two calls of [Fill] in a row do what one call with the sum of
    the two quantities does: they throw if the sum exceeds the
    remaining quantity, at the first call or at the second, and take
    the sum off it otherwise. *)
Theorem Fill_twice (q1 q2 : Quantity) o :
  Quantity_ok (q1 + q2)%N →
  (o1 ← Order.Fill q1 o; Order.Fill q2 o1) = Order.Fill (q1 + q2)%N o.
Proof.
  intros _. unfold Order.Fill.
  destruct (N.ltb_spec (remainingQuantity_ o) q1) as [H1|H1]; simpl.
  - by destruct (N.ltb_spec (remainingQuantity_ o) (q1 + q2)); [|lia].
  - destruct (N.ltb_spec (remainingQuantity_ o - q1) q2) as [H2|H2];
      destruct (N.ltb_spec (remainingQuantity_ o) (q1 + q2)) as [H3|H3];
      try lia; [done|].
    do 2 f_equal. lia.
Qed.

(** 5 of 7, filled by 5 and then by 2, and filled by 7. *)
Lemma Fill_twice_witness :
  Quantity_ok (5 + 2)%N
  ∧ (o1 ← Order.Fill 5%N (Order.new GoodTillCancel 3%N Sell 100%Z 7%N);
     Order.Fill 2%N o1)
    = Ok (mkOrder GoodTillCancel 3%N Sell 100%Z 7%N 0%N).
Proof.
  assert (Hq : Quantity_ok (5 + 2)%N)
    by (unfold Quantity_ok, Quantity_modulus; lia).
  split; [exact Hq|].
  rewrite (Fill_twice 5%N 2%N _ Hq). reflexivity.
Defined.

(** ** The intrusive list of [OrderList.h] *)

(** X22. [push_back] of a node that is not in the list appends it: the
    list that held [xs] holds [xs] followed by the node, as
    [OrderList.push_back] says, the call does not fail, and every other
    list over the same orders that does not hold the node or share a
    node with this list is as it was. *)
Theorem push_back_appends k l xs order :
  Intrusive.represents k l xs → order ∉ xs →
  ∃ k' l',
    Intrusive.push_back order k l = Ok (k', l')
    ∧ Intrusive.represents k' l' (OrderList.push_back order xs)
    ∧ ∀ l2 ys,
        Intrusive.represents k l2 ys → order ∉ ys →
        (∀ y, y ∈ ys → y ∉ xs) →
        Intrusive.represents k' l2 ys.
Proof.
  intros Hrep Hfresh.
  destruct (push_back_represents k l xs order Hrep Hfresh)
    as (k' & l' & Hpush & Hrep' & Hframe).
  exists k', l'. split; [exact Hpush|]. split; [exact Hrep'|].
  intros l2 ys Hys Hoys Hdis.
  apply (represents_frame k k' l2 ys Hys).
  intros y Hy. apply Hframe; [by apply Hdis|].
  intros ->. by apply Hoys.
Qed.

(** The second order of a level, behind the first. *)
Lemma push_back_appends_witness :
  Intrusive.represents (Intrusive.mkLinks ∅ ∅)
    (Intrusive.mkList (Some 1) (Some 1) 1%N) [1]
  ∧ (2 ∉ [1])
  ∧ ∃ k' l',
      Intrusive.push_back 2 (Intrusive.mkLinks ∅ ∅)
        (Intrusive.mkList (Some 1) (Some 1) 1%N) = Ok (k', l')
      ∧ Intrusive.represents k' l' [1; 2].
Proof.
  assert (Hrep : Intrusive.represents (Intrusive.mkLinks ∅ ∅)
                   (Intrusive.mkList (Some 1) (Some 1) 1%N) [1]).
  { split_and!; try reflexivity.
    - apply NoDup_singleton.
    - simpl. split_and!; reflexivity. }
  assert (Hfresh : 2 ∉ [1]).
  { intros H. apply elem_of_cons in H as [H|H]; [lia|].
    by apply elem_of_nil in H. }
  split; [exact Hrep|]. split; [exact Hfresh|].
  destruct (push_back_appends _ _ _ 2 Hrep Hfresh)
    as (k' & l' & Hpush & Hrep' & _).
  exists k', l'. split; [exact Hpush|exact Hrep'].
Defined.

(** X23. [remove] of a node of the list splices it out: the list holds
    the other nodes in their order, as [OrderList.remove] says, both
    links of the removed node are null, and every list that shares no
    node with this one is as it was. *)
Theorem remove_splices_out k l xs order :
  Intrusive.represents k l xs → order ∈ xs →
  ∃ xs',
    OrderList.remove order xs = Ok xs'
    ∧ xs' = filter (λ x, x ≠ order) xs
    ∧ Intrusive.represents (Intrusive.remove order k l).1
        (Intrusive.remove order k l).2 xs'
    ∧ Intrusive.prev_ (Intrusive.remove order k l).1 !! order = None
    ∧ Intrusive.next_ (Intrusive.remove order k l).1 !! order = None
    ∧ ∀ l2 ys,
        Intrusive.represents k l2 ys → (∀ y, y ∈ ys → y ∉ xs) →
        Intrusive.represents (Intrusive.remove order k l).1 l2 ys.
Proof.
  intros Hrep Hin.
  apply list_elem_of_split in Hin as (xs1 & xs2 & ->).
  pose proof Hrep as (_ & _ & _ & Hnd & _).
  assert (Ho1 : order ∉ xs1).
  { apply NoDup_app in Hnd as (_ & Hdis & _).
    intros Hin. apply (Hdis _ Hin). left. }
  destruct (remove_represents k l xs1 order xs2 Hrep)
    as (Hrep' & Hframe & Hp & Hn).
  exists (xs1 ++ xs2). unfold OrderList.remove.
  rewrite (unlink_middle xs1 order xs2 Ho1).
  split; [done|]. split.
  - assert (Hin : order ∈ xs1 ++ order :: xs2).
    { apply elem_of_app. right. left. }
    pose proof (unlink_filter order _ Hnd Hin) as Hf.
    rewrite (unlink_middle xs1 order xs2 Ho1) in Hf. by injection Hf.
  - split; [exact Hrep'|]. split; [exact Hp|]. split; [exact Hn|].
    intros l2 ys Hys Hdis.
    apply (represents_frame k _ l2 ys Hys).
    intros y Hy. by apply Hframe, Hdis.
Qed.

(** The first of two orders of a level is cancelled. *)
Lemma remove_splices_out_witness :
  Intrusive.represents (Intrusive.mkLinks {[2 := 1]} {[1 := 2]})
    (Intrusive.mkList (Some 1) (Some 2) 2%N) [1; 2]
  ∧ (1 ∈ [1; 2])
  ∧ Intrusive.represents
      (Intrusive.remove 1 (Intrusive.mkLinks {[2 := 1]} {[1 := 2]})
         (Intrusive.mkList (Some 1) (Some 2) 2%N)).1
      (Intrusive.remove 1 (Intrusive.mkLinks {[2 := 1]} {[1 := 2]})
         (Intrusive.mkList (Some 1) (Some 2) 2%N)).2
      [2].
Proof.
  assert (Hrep : Intrusive.represents
                   (Intrusive.mkLinks {[2 := 1]} {[1 := 2]})
                   (Intrusive.mkList (Some 1) (Some 2) 2%N) [1; 2]).
  { split_and!; try reflexivity.
    - apply NoDup_ListNoDup. repeat constructor; simpl; intuition lia.
    - simpl. split_and!; reflexivity. }
  assert (Hin : 1 ∈ [1; 2]) by left.
  split; [exact Hrep|]. split; [exact Hin|].
  destruct (remove_splices_out _ _ _ 1 Hrep Hin)
    as (xs' & _ & -> & Hrep' & _).
  exact Hrep'.
Defined.

(** X24. What a list that holds [xs] answers: [front] is the oldest
    order or null, [empty] is true exactly when there is no order, the
    head is null exactly when the tail is, and [size] is the number of
    orders as long as that is below 2^64, so [empty] and [size() == 0]
    agree. *)
Theorem list_observers k l xs :
  Intrusive.represents k l xs →
  (N.of_nat (length xs) < Intrusive.size_modulus)%N →
  Intrusive.front l = OrderList.front xs
  ∧ Intrusive.empty l = OrderList.empty xs
  ∧ Intrusive.size l = N.of_nat (OrderList.size xs)
  ∧ (Intrusive.empty l = true ↔ Intrusive.size l = 0%N)
  ∧ (Intrusive.head_ l = None ↔ Intrusive.tail_ l = None).
Proof.
  intros Hrep Hlt.
  destruct (represents_head_tail k l xs Hrep) as [Hh Ht].
  destruct Hrep as (Hhead & _ & Hsize & _).
  assert (Hsz : Intrusive.size l = N.of_nat (length xs)).
  { unfold Intrusive.size. rewrite Hsize. by apply N.mod_small. }
  assert (He : Intrusive.empty l = OrderList.empty xs).
  { unfold Intrusive.empty. rewrite Hhead. by destruct xs. }
  split_and!; [exact Hhead|exact He|exact Hsz| |by rewrite Hh, Ht].
  rewrite He, Hsz. destruct xs; simpl; split; (done || lia).
Qed.

(** A level of two orders. *)
Lemma list_observers_witness :
  Intrusive.represents (Intrusive.mkLinks {[2 := 1]} {[1 := 2]})
    (Intrusive.mkList (Some 1) (Some 2) 2%N) [1; 2]
  ∧ (N.of_nat (length [1; 2]) < Intrusive.size_modulus)%N
  ∧ Intrusive.front (Intrusive.mkList (Some 1) (Some 2) 2%N) = Some 1
  ∧ Intrusive.size (Intrusive.mkList (Some 1) (Some 2) 2%N) = 2%N.
Proof.
  assert (Hrep : Intrusive.represents
                   (Intrusive.mkLinks {[2 := 1]} {[1 := 2]})
                   (Intrusive.mkList (Some 1) (Some 2) 2%N) [1; 2]).
  { split_and!; try reflexivity.
    - apply NoDup_ListNoDup. repeat constructor; simpl; intuition lia.
    - simpl. split_and!; reflexivity. }
  assert (Hlt : (N.of_nat (length [1; 2]) < Intrusive.size_modulus)%N)
    by reflexivity.
  split; [exact Hrep|]. split; [exact Hlt|].
  destruct (list_observers _ _ _ Hrep Hlt) as (Hf & _ & Hs & _).
  split; [exact Hf|exact Hs].
Defined.

(** X25. [pop_front] drops the oldest order and keeps the others in
    their order, as [OrderList.pop_front] says; on a list without
    orders it does nothing at all. *)
Theorem pop_front_drops_oldest k l xs :
  Intrusive.represents k l xs →
  Intrusive.represents (Intrusive.pop_front k l).1
    (Intrusive.pop_front k l).2 (OrderList.pop_front xs)
  ∧ (xs = [] → Intrusive.pop_front k l = (k, l))
  ∧ ∀ x, Intrusive.front l = Some x →
      Intrusive.prev_ (Intrusive.pop_front k l).1 !! x = None
      ∧ Intrusive.next_ (Intrusive.pop_front k l).1 !! x = None
      ∧ Intrusive.front (Intrusive.pop_front k l).2
        = Intrusive.next_ k !! x.
Proof.
  intros Hrep.
  destruct (pop_front_represents k l xs Hrep) as [Hrep' _].
  split; [exact Hrep'|].
  pose proof Hrep as (Hh & _). split.
  - intros ->. unfold Intrusive.pop_front. by rewrite Hh.
  - intros x Hx. unfold Intrusive.front in Hx.
    destruct xs as [|y xs]; [by rewrite Hx in Hh|].
    rewrite Hx in Hh. injection Hh as ->.
    destruct (remove_represents k l [] y xs Hrep) as (_ & _ & Hp & Hn).
    destruct Hrep' as (Hh' & _).
    destruct Hrep as (_ & _ & _ & _ & Hseg).
    unfold Intrusive.pop_front in *. rewrite Hx in *.
    split; [exact Hp|]. split; [exact Hn|].
    unfold Intrusive.front. rewrite Hh'.
    symmetry. destruct Hseg as (_ & Hnext & _).
    rewrite Hnext. by destruct xs.
Qed.

(** The best order of a level of two is filled and popped. *)
Lemma pop_front_drops_oldest_witness :
  Intrusive.represents (Intrusive.mkLinks {[2 := 1]} {[1 := 2]})
    (Intrusive.mkList (Some 1) (Some 2) 2%N) [1; 2]
  ∧ Intrusive.represents
      (Intrusive.pop_front (Intrusive.mkLinks {[2 := 1]} {[1 := 2]})
         (Intrusive.mkList (Some 1) (Some 2) 2%N)).1
      (Intrusive.pop_front (Intrusive.mkLinks {[2 := 1]} {[1 := 2]})
         (Intrusive.mkList (Some 1) (Some 2) 2%N)).2
      [2].
Proof.
  assert (Hrep : Intrusive.represents
                   (Intrusive.mkLinks {[2 := 1]} {[1 := 2]})
                   (Intrusive.mkList (Some 1) (Some 2) 2%N) [1; 2]).
  { split_and!; try reflexivity.
    - apply NoDup_ListNoDup. repeat constructor; simpl; intuition lia.
    - simpl. split_and!; reflexivity. }
  split; [exact Hrep|].
  exact (proj1 (pop_front_drops_oldest _ _ _ Hrep)).
Defined.

(** X26. A loop from [begin()] to [end()] visits exactly the orders of
    the list, oldest first, and ends after as many steps as there are
    orders. *)
Theorem iteration_visits_in_order k l xs fuel :
  Intrusive.represents k l xs → length xs ≤ fuel →
  Intrusive.walk fuel k (Intrusive.begin_ l) = Ok xs.
Proof.
  intros (Hh & _ & _ & _ & Hseg) Hfuel.
  unfold Intrusive.begin_. rewrite Hh.
  by apply (walk_seg k None xs fuel).
Qed.

(** A level of two orders. *)
Lemma iteration_visits_in_order_witness :
  Intrusive.represents (Intrusive.mkLinks {[2 := 1]} {[1 := 2]})
    (Intrusive.mkList (Some 1) (Some 2) 2%N) [1; 2]
  ∧ length [1; 2] ≤ 2
  ∧ Intrusive.walk 2 (Intrusive.mkLinks {[2 := 1]} {[1 := 2]})
      (Intrusive.begin_ (Intrusive.mkList (Some 1) (Some 2) 2%N))
    = Ok [1; 2].
Proof.
  assert (Hrep : Intrusive.represents
                   (Intrusive.mkLinks {[2 := 1]} {[1 := 2]})
                   (Intrusive.mkList (Some 1) (Some 2) 2%N) [1; 2]).
  { split_and!; try reflexivity.
    - apply NoDup_ListNoDup. repeat constructor; simpl; intuition lia.
    - simpl. split_and!; reflexivity. }
  assert (Hfuel : length [1; 2] ≤ 2) by (simpl; lia).
  split; [exact Hrep|]. split; [exact Hfuel|].
  exact (iteration_visits_in_order _ _ _ 2 Hrep Hfuel).
Defined.

(** X27. [remove] does not check that the node is in the list. Given a
    node whose links are both null, it sets head and tail to null and
    takes one off the size, whatever the list holds: for a node that
    was never linked the orders of the list keep their links but the
    list no longer reaches them, and on a list without orders the size
    wraps to 2^64 - 1. *)
Theorem remove_of_unlinked_node_empties k l xs order :
  Intrusive.represents k l xs →
  Intrusive.prev_ k !! order = None → Intrusive.next_ k !! order = None →
  Intrusive.empty (Intrusive.remove order k l).2 = true
  ∧ Intrusive.tail_ (Intrusive.remove order k l).2 = None
  ∧ Intrusive.size (Intrusive.remove order k l).2
    = ((N.of_nat (length xs) mod Intrusive.size_modulus
        + Intrusive.size_modulus - 1) mod Intrusive.size_modulus)%N
  ∧ (xs = [] → Intrusive.size (Intrusive.remove order k l).2
               = (Intrusive.size_modulus - 1)%N)
  ∧ ∀ x, Intrusive.prev_ (Intrusive.remove order k l).1 !! x
         = Intrusive.prev_ k !! x
         ∧ Intrusive.next_ (Intrusive.remove order k l).1 !! x
           = Intrusive.next_ k !! x.
Proof.
  intros (_ & _ & Hsize & _) Hp Hn.
  destruct (remove_links k l order None None Hp Hn)
    as (Hprev & Hnext & Hpo & Hno & Hhead & Htail & Hsz); [done|done|].
  unfold Intrusive.empty, Intrusive.size. rewrite Hhead, Htail, Hsz, Hsize.
  split_and!; [done|done|done| |].
  - intros ->. reflexivity.
  - intros x. destruct (decide (x = order)) as [->|Hx].
    + by rewrite Hpo, Hno, Hp, Hn.
    + by rewrite Hprev, Hnext.
Qed.

(** A level of two orders, and a third order that was never linked. *)
Lemma remove_of_unlinked_node_empties_witness :
  Intrusive.represents (Intrusive.mkLinks {[2 := 1]} {[1 := 2]})
    (Intrusive.mkList (Some 1) (Some 2) 2%N) [1; 2]
  ∧ (3 ∉ [1; 2])
  ∧ Intrusive.empty
      (Intrusive.remove 3 (Intrusive.mkLinks {[2 := 1]} {[1 := 2]})
         (Intrusive.mkList (Some 1) (Some 2) 2%N)).2 = true.
Proof.
  assert (Hrep : Intrusive.represents
                   (Intrusive.mkLinks {[2 := 1]} {[1 := 2]})
                   (Intrusive.mkList (Some 1) (Some 2) 2%N) [1; 2]).
  { split_and!; try reflexivity.
    - apply NoDup_ListNoDup. repeat constructor; simpl; intuition lia.
    - simpl. split_and!; reflexivity. }
  assert (Hout : 3 ∉ [1; 2]).
  { intros H. repeat (apply elem_of_cons in H as [H|H]; [lia|]).
    by apply elem_of_nil in H. }
  split; [exact Hrep|]. split; [exact Hout|].
  exact (proj1 (remove_of_unlinked_node_empties _ _ _ 3 Hrep
                  eq_refl eq_refl)).
Defined.
